(** * blackHole: the per-frame simulation and render pipeline of blackhole.c

    A shallow embedding of [src/blackhole.c] and of the two GLSL fragment
    shaders it embeds as string constants.

    - The C type [float] is IEEE-754 binary32.  It is modelled with the
      Standard Library's [spec_float] at precision 24 and maximal exponent
      128, so every arithmetic operation rounds to nearest, ties to even,
      exactly as [+], [-], [*], [/] and [sqrtf] do, comparisons with a NaN
      are false, and every definition below evaluates.
    - GLSL [float] has the same format; its arithmetic and comparisons are
      read with the same operations.  [length], [normalize], [dot] and
      [mix] are written out from their GLSL definitions; [sin], [atan],
      [pow] and [fract] are inputs of the shader model, and so is the
      sampler.
    - Calls into raylib that draw are recorded as a list of commands, in
      program order.  [raymath.h]'s [Vector3Distance] is written out.
      [GetRandomValue], [GetFrameTime], [GetFPS] and the keyboard are inputs.
    - The camera keys of the main loop use [raymath.h]'s [Vector3Add],
      [Vector3Subtract], [Vector3Scale], [Vector3CrossProduct] and
      [Vector3Normalize], written out.  [CartesianToPolar] (never called)
      takes [atan2f] and [acosf] as inputs.

    The second half of the file proves, from the definitions of
    [spec_float], that the binary32 operations used here are correctly
    rounded and monotone, and then settles the properties of the program. *)

From Stdlib Require Import ZArith Bool List Lia String Reals Lra.
From Stdlib Require Import Floats.SpecFloat.
Import ListNotations.
Local Open Scope Z_scope.

(** ** IEEE-754 binary32 *)

Module B32.

Definition float := spec_float.
Definition prec : Z := 24.
Definition emax : Z := 128.

Definition fadd : float -> float -> float := SFadd prec emax.
Definition fsub : float -> float -> float := SFsub prec emax.
Definition fmul : float -> float -> float := SFmul prec emax.
Definition fdiv : float -> float -> float := SFdiv prec emax.
Definition fsqrt : float -> float := SFsqrt prec emax.

(** C's [a <= b], [a < b], [a > b] and [a >= b] on floats: false as soon as
    one side is a NaN. *)
Definition fle (a b : float) : bool := SFleb a b.
Definition flt (a b : float) : bool := SFltb a b.
Definition fgt (a b : float) : bool := SFltb b a.
Definition fge (a b : float) : bool := SFleb b a.
Definition feq (a b : float) : bool := SFeqb a b.

(** [(float) n] for an [int] n. *)
Definition of_Z (n : Z) : float := binary_normalize prec emax n 0 false.

(** The literal whose decimal value is [n / d], rounded once to nearest. *)
Definition dec (n d : positive) : float :=
  SFdiv prec emax (S754_finite false n 0) (S754_finite false d 0).

(** [(unsigned char) x] for a float x in range: truncation toward zero. *)
Definition to_Z (x : float) : Z :=
  match x with
  | S754_finite s m e =>
      let a := match e with
               | Zneg p => Z.pos m / 2 ^ Z.pos p
               | _ => Z.pos m * 2 ^ e
               end in
      if s then - a else a
  | _ => 0
  end.

Definition zero : float := S754_zero false.
Definition one : float := of_Z 1.
Definition valid (x : float) : bool := valid_binary prec emax x.

Definition not_nan (f : float) : bool :=
  match f with S754_nan => false | _ => true end.

(** Zero or a finite number of either sign. *)
Definition is_finite (f : float) : bool :=
  match f with
  | S754_zero _ | S754_finite _ _ _ => true
  | _ => false
  end.

(** Plus zero or a positive finite number in canonical form. *)
Definition fin_nonneg (f : float) : bool :=
  match f with
  | S754_zero false => true
  | S754_finite false m e => bounded prec emax m e
  | _ => false
  end.

(** [fin_nonneg] or plus infinity. *)
Definition nonneg (f : float) : bool :=
  match f with
  | S754_infinity false => true
  | _ => fin_nonneg f
  end.

End B32.
Import B32.

Declare Scope b32_scope.
Delimit Scope b32_scope with b32.
Infix "+" := fadd : b32_scope.
Infix "-" := fsub : b32_scope.
Infix "*" := fmul : b32_scope.
Infix "/" := fdiv : b32_scope.
Infix "<=?" := fle : b32_scope.
Infix "<?" := flt : b32_scope.
Infix ">?" := fgt (at level 70) : b32_scope.
Infix ">=?" := fge (at level 70) : b32_scope.

(** ** raylib and raymath types *)

Record Vector2 := mkVector2 { x2 : float; y2 : float }.
Record Vector3 := mkVector3 { x3 : float; y3 : float; z3 : float }.
Record Vector4 := mkVector4 { x4 : float; y4 : float; z4 : float; w4 : float }.
Record Color := mkColor { cr : Z; cg : Z; cb : Z; ca : Z }.

Inductive CameraProjection := CAMERA_PERSPECTIVE | CAMERA_ORTHOGRAPHIC.

Record Camera3D := mkCamera3D {
  cam_position : Vector3;
  cam_target : Vector3;
  cam_up : Vector3;
  cam_fovy : float;
  cam_projection : CameraProjection }.

Definition BLACK : Color := mkColor 0 0 0 255.
Definition WHITE : Color := mkColor 255 255 255 255.
Definition GRAY : Color := mkColor 130 130 130 255.
Definition YELLOW : Color := mkColor 253 249 0 255.
Definition ORANGE : Color := mkColor 255 161 0 255.
Definition GREEN : Color := mkColor 0 228 48 255.

(** raymath.h: [sqrtf(dx*dx + dy*dy + dz*dz)] with [d = v2 - v1]. *)
Definition Vector3Distance (v1 v2 : Vector3) : float :=
  let dx := (x3 v2 - x3 v1)%b32 in
  let dy := (y3 v2 - y3 v1)%b32 in
  let dz := (z3 v2 - z3 v1)%b32 in
  fsqrt (dx * dx + dy * dy + dz * dz)%b32.

(** raylib: the colour with its alpha replaced by [255 * alpha]. *)
Definition Fade (c : Color) (alpha : float) : Color :=
  mkColor (cr c) (cg c) (cb c) (to_Z (of_Z 255 * alpha)%b32).

(** ** The structures of blackhole.c *)

Definition SCREEN_WIDTH : Z := 1024.
Definition SCREEN_HEIGHT : Z := 768.
Definition MAX_STARS : nat := 1000.

Record BlackHole := mkBlackHole {
  bh_position : Vector3;
  mass : float;
  schwarzschildRadius : float;
  iscoRadius : float }.

Record Star := mkStar {
  star_position : Vector3;
  brightness : float;
  star_color : Color }.

Record AccretionDisk := mkAccretionDisk {
  innerRadius : float;
  outerRadius : float;
  rotationSpeed : float;
  temperature : float;
  hotColor : Color;
  coolColor : Color }.

Record SimulationState := mkSimulationState {
  camera : Camera3D;
  blackHole : BlackHole;
  disk : AccretionDisk;
  stars : list Star;
  time : float;
  timeDilation : float;
  showLensing : bool;
  showDisk : bool;
  showTimeEffects : bool }.

(** ** Physics *)

Definition CalculateTimeDilation (position : Vector3) (bh : BlackHole) : float :=
  let distance := Vector3Distance position (bh_position bh) in
  let rs := schwarzschildRadius bh in
  if (distance <=? rs)%b32 then zero
  else
    let factor := (one - rs / distance)%b32 in
    if (factor <=? zero)%b32 then zero
    else fsqrt factor.

(** ** Initialisation

    [GetRandomValue] is the input [rand]: [rand k lo hi] is what the k-th
    call returns when asked for a value between [lo] and [hi].  Star [i]
    makes the calls [4 * i] to [4 * i + 3]: its three coordinates, then its
    brightness. *)

Definition RandomSource := nat -> Z -> Z -> Z.

Definition rand_in_range (rand : RandomSource) : Prop :=
  forall k lo hi, lo <= hi -> lo <= rand k lo hi <= hi.

Definition InitStar (rand : RandomSource) (i : nat) : Star :=
  let position :=
    mkVector3 (of_Z (rand (4 * i)%nat (-100) 100))
              (of_Z (rand (4 * i + 1)%nat (-100) 100))
              (of_Z (rand (4 * i + 2)%nat (-100) 100)) in
  let brightness := (of_Z (rand (4 * i + 3)%nat 50 255) / of_Z 255)%b32 in
  let c := to_Z (brightness * of_Z 255)%b32 mod 256 in
  mkStar position brightness (mkColor c c c 255).

Definition InitSimulation (rand : RandomSource) : SimulationState :=
  let bh := mkBlackHole (mkVector3 zero zero zero) (of_Z 1) (of_Z 2) (of_Z 6) in
  mkSimulationState
    (mkCamera3D (mkVector3 zero (of_Z 5) (of_Z 30))
                (mkVector3 zero zero zero)
                (mkVector3 zero (of_Z 1) zero)
                (of_Z 45) CAMERA_PERSPECTIVE)
    bh
    (mkAccretionDisk (iscoRadius bh) (of_Z 20) (of_Z 1) zero
                     (mkColor 255 200 50 255) (mkColor 200 50 25 255))
    (map (InitStar rand) (seq 0 MAX_STARS))
    zero one true true true.

(** ** Update

    [frameTime] is what [GetFrameTime()] returns for this frame. *)

Definition set_time (sim : SimulationState) (t : float) : SimulationState :=
  mkSimulationState (camera sim) (blackHole sim) (disk sim) (stars sim)
    t (timeDilation sim) (showLensing sim) (showDisk sim) (showTimeEffects sim).

Definition set_timeDilation (sim : SimulationState) (d : float) : SimulationState :=
  mkSimulationState (camera sim) (blackHole sim) (disk sim) (stars sim)
    (time sim) d (showLensing sim) (showDisk sim) (showTimeEffects sim).

Definition set_showLensing (sim : SimulationState) (b : bool) : SimulationState :=
  mkSimulationState (camera sim) (blackHole sim) (disk sim) (stars sim)
    (time sim) (timeDilation sim) b (showDisk sim) (showTimeEffects sim).

Definition set_showDisk (sim : SimulationState) (b : bool) : SimulationState :=
  mkSimulationState (camera sim) (blackHole sim) (disk sim) (stars sim)
    (time sim) (timeDilation sim) (showLensing sim) b (showTimeEffects sim).

Definition set_showTimeEffects (sim : SimulationState) (b : bool) : SimulationState :=
  mkSimulationState (camera sim) (blackHole sim) (disk sim) (stars sim)
    (time sim) (timeDilation sim) (showLensing sim) (showDisk sim) b.

Definition UpdateSimulation (frameTime : float) (sim : SimulationState)
  : SimulationState :=
  let deltaTime := frameTime in
  if showTimeEffects sim then
    let sim1 :=
      set_timeDilation sim
        (CalculateTimeDilation (cam_position (camera sim)) (blackHole sim)) in
    let deltaTime := (deltaTime * timeDilation sim1)%b32 in
    set_time sim1 (time sim1 + deltaTime)%b32
  else
    set_time sim (time sim + deltaTime)%b32.

(** The simulation after the frames whose timer readings are [frameTimes],
    oldest first, with no key pressed in between. *)
Definition run_frames (frameTimes : list float) (sim : SimulationState)
  : SimulationState :=
  fold_left (fun s dt => UpdateSimulation dt s) frameTimes sim.

(** The three toggle keys of the main loop, read after [UpdateSimulation]. *)
Record Keys := mkKeys { KEY_L : bool; KEY_O : bool; KEY_T : bool }.

Definition HandleToggles (pressed : Keys) (sim : SimulationState)
  : SimulationState :=
  let sim := if KEY_L pressed
             then set_showLensing sim (negb (showLensing sim)) else sim in
  let sim := if KEY_O pressed
             then set_showDisk sim (negb (showDisk sim)) else sim in
  if KEY_T pressed
  then set_showTimeEffects sim (negb (showTimeEffects sim)) else sim.

(** ** Rendering: the commands a frame sends to raylib *)

Inductive Shader := lensShader | diskShader.

Inductive UniformValue :=
| SHADER_UNIFORM_FLOAT (v : float)
| SHADER_UNIFORM_VEC2 (v : Vector2)
| SHADER_UNIFORM_VEC3 (v : Vector3).

Inductive Cmd :=
| BeginDrawing
| EndDrawing
| ClearBackground (c : Color)
| BeginTextureMode
| EndTextureMode
| BeginMode3D (cam : Camera3D)
| EndMode3D
| BeginShaderMode (sh : Shader)
| EndShaderMode
| SetShaderValue (sh : Shader) (uniform : string) (v : UniformValue)
| DrawCube (pos : Vector3) (width height length : float) (c : Color)
| DrawCylinderEx (startPos endPos : Vector3) (startRadius endRadius : float)
    (sides : Z) (c : Color)
| DrawSphere (center : Vector3) (radius : float) (c : Color)
| DrawCircle3D (center : Vector3) (radius : float) (axis : Vector3)
    (angle : float) (c : Color)
| DrawTextureRec (srcWidth srcHeight : Z) (pos : Vector2) (tint : Color)
| DrawText (text : string) (posX posY fontSize : Z) (c : Color)
| DrawTextFloat (format : string) (v : float) (posX posY fontSize : Z) (c : Color)
| DrawTextInt (format : string) (v : Z) (posX posY fontSize : Z) (c : Color).

Definition DrawStar (sim : SimulationState) (s : Star) : list Cmd :=
  let pos := star_position s in
  let distance := Vector3Distance pos (bh_position (blackHole sim)) in
  if (distance >? schwarzschildRadius (blackHole sim) * of_Z 2)%b32
  then [DrawCube pos (dec 2 10) (dec 2 10) (dec 2 10) (star_color s)]
  else [].

Definition DrawStarfield (sim : SimulationState) : list Cmd :=
  flat_map (DrawStar sim) (stars sim).

Definition DrawAccretionDisk (sim : SimulationState) (sh : Shader) : list Cmd :=
  let p := bh_position (blackHole sim) in
  [ BeginShaderMode sh;
    DrawCylinderEx
      (mkVector3 (x3 p) (y3 p - dec 1 10)%b32 (z3 p))
      (mkVector3 (x3 p) (y3 p + dec 1 10)%b32 (z3 p))
      (outerRadius (disk sim)) (innerRadius (disk sim)) 32 ORANGE;
    EndShaderMode ].

Definition DrawBlackHole (sim : SimulationState) : list Cmd :=
  [ DrawSphere (bh_position (blackHole sim))
      (schwarzschildRadius (blackHole sim)) BLACK;
    DrawCircle3D (bh_position (blackHole sim)) (iscoRadius (blackHole sim))
      (mkVector3 (of_Z 1) zero zero) (of_Z 90) (Fade YELLOW (dec 3 10)) ].


(** The scene part of one iteration of the main loop: the [if (sim.showLensing)]
    statement between [ClearBackground] and the HUD. *)
Definition RenderScene (sim : SimulationState) : list Cmd :=
  if showLensing sim then
    [BeginTextureMode; ClearBackground BLACK; BeginMode3D (camera sim)]
    ++ DrawStarfield sim
    ++ (if showDisk sim then DrawAccretionDisk sim diskShader else [])
    ++ DrawBlackHole sim
    ++ [EndMode3D; EndTextureMode]
    ++ (let lensCenter :=
          mkVector2 (of_Z SCREEN_WIDTH * dec 5 10)%b32
                    (of_Z SCREEN_HEIGHT * dec 5 10)%b32 in
        let lensStrength :=
          (schwarzschildRadius (blackHole sim) * of_Z 5000)%b32 in
        let screenSize := mkVector2 (of_Z SCREEN_WIDTH) (of_Z SCREEN_HEIGHT) in
        [ SetShaderValue lensShader "lensCenter" (SHADER_UNIFORM_VEC2 lensCenter);
          SetShaderValue lensShader "lensStrength" (SHADER_UNIFORM_FLOAT lensStrength);
          SetShaderValue lensShader "screenSize" (SHADER_UNIFORM_VEC2 screenSize);
          BeginShaderMode lensShader;
          DrawTextureRec SCREEN_WIDTH (- SCREEN_HEIGHT) (mkVector2 zero zero) WHITE;
          EndShaderMode ])
  else
    [BeginMode3D (camera sim)]
    ++ DrawStarfield sim
    ++ (if showDisk sim then
          [ SetShaderValue diskShader "time" (SHADER_UNIFORM_FLOAT (time sim));
            SetShaderValue diskShader "blackHolePos"
              (SHADER_UNIFORM_VEC3 (bh_position (blackHole sim)));
            SetShaderValue diskShader "innerRadius"
              (SHADER_UNIFORM_FLOAT (innerRadius (disk sim)));
            SetShaderValue diskShader "outerRadius"
              (SHADER_UNIFORM_FLOAT (outerRadius (disk sim)));
            SetShaderValue diskShader "hotColor"
              (SHADER_UNIFORM_VEC3 (mkVector3 (of_Z 1) (dec 8 10) (dec 2 10)));
            SetShaderValue diskShader "coolColor"
              (SHADER_UNIFORM_VEC3 (mkVector3 (dec 8 10) (dec 2 10) (dec 1 10))) ]
          ++ DrawAccretionDisk sim diskShader
        else [])
    ++ DrawBlackHole sim
    ++ [EndMode3D].

(** The drawing part of one iteration; [fps] is what [GetFPS()] returns. *)
Definition DrawFrame (fps : Z) (sim : SimulationState) : list Cmd :=
  [BeginDrawing; ClearBackground BLACK]
  ++ RenderScene sim
  ++ [ DrawText "Black Hole Simulation" 10 10 20 WHITE;
       DrawText "L - Toggle Lensing" 10 40 16 GRAY;
       DrawText "D - Toggle Accretion Disk" 10 60 16 GRAY;
       DrawText "T - Toggle Time Effects" 10 80 16 GRAY;
       DrawText "WASD - Move Camera" 10 100 16 GRAY ]
  ++ (if showTimeEffects sim
      then [DrawTextFloat "Time Dilation: %.3f" (timeDilation sim) 10 140 16 YELLOW]
      else [])
  ++ [ DrawTextInt "FPS: %d" fps (SCREEN_WIDTH - 100) 10 16 GREEN;
       EndDrawing ].

(** The uniforms the disk fragment shader declares. *)
Definition disk_uniforms : list string :=
  ["time"; "blackHolePos"; "innerRadius"; "outerRadius"; "hotColor"; "coolColor"]%string.

(** A command that draws geometry through the disk shader: a cylinder drawn
    while that shader is bound. *)
Definition is_DrawCylinderEx (c : Cmd) : bool :=
  match c with DrawCylinderEx _ _ _ _ _ _ => true | _ => false end.

Definition mem_string (s : string) (l : list string) : bool :=
  existsb (String.eqb s) l.

(** Scans a command list keeping the shader that is bound and the disk
    uniforms written so far; answers false as soon as the disk is drawn
    through the disk shader with one of [disk_uniforms] not yet written. *)
Fixpoint uniforms_fresh_from (bound : option Shader) (written : list string)
  (cmds : list Cmd) : bool :=
  match cmds with
  | [] => true
  | c :: rest =>
      match c with
      | SetShaderValue diskShader u _ => uniforms_fresh_from bound (u :: written) rest
      | BeginShaderMode sh => uniforms_fresh_from (Some sh) written rest
      | EndShaderMode => uniforms_fresh_from None written rest
      | DrawCylinderEx _ _ _ _ _ _ =>
          match bound with
          | Some diskShader =>
              forallb (fun u => mem_string u written) disk_uniforms
              && uniforms_fresh_from bound written rest
          | _ => uniforms_fresh_from bound written rest
          end
      | _ => uniforms_fresh_from bound written rest
      end
  end.

Definition disk_uniforms_fresh (cmds : list Cmd) : bool :=
  uniforms_fresh_from None [] cmds.

(** The disk is drawn somewhere in the command list. *)
Definition draws_disk (cmds : list Cmd) : bool := existsb is_DrawCylinderEx cmds.

(** ** The fragment shaders

    GLSL arithmetic and comparisons on [float] are the binary32 ones;
    [length], [normalize], [dot], [mix] and [sqrt] are written out from
    their GLSL definitions.  The transcendental built-ins and [fract] are
    inputs of the shader model, as is the sampler. *)

Record Builtins := mkBuiltins {
  glsl_sin : float -> float;
  glsl_atan : float -> float -> float;
  glsl_pow : float -> float -> float;
  glsl_fract : float -> float }.

Definition sampler2D := Vector2 -> Vector4.

Definition length2 (v : Vector2) : float :=
  fsqrt (x2 v * x2 v + y2 v * y2 v)%b32.

Definition normalize2 (v : Vector2) : Vector2 :=
  mkVector2 (x2 v / length2 v)%b32 (y2 v / length2 v)%b32.

Definition dot2 (a b : Vector2) : float := (x2 a * x2 b + y2 a * y2 b)%b32.

Definition mix (a b t : float) : float := (a * (one - t) + b * t)%b32.

Definition black4 : Vector4 := mkVector4 zero zero zero one.

(** lensFragmentShader, [main]. *)
Definition lens_r (lensCenter screenSize fragTexCoord : Vector2) : float :=
  let uv := fragTexCoord in
  let screenPos := mkVector2 (x2 uv * x2 screenSize)%b32 (y2 uv * y2 screenSize)%b32 in
  let delta := mkVector2 (x2 screenPos - x2 lensCenter)%b32
                         (y2 screenPos - y2 lensCenter)%b32 in
  length2 delta.

Definition lens_newR (lensCenter : Vector2) (lensStrength : float)
  (screenSize fragTexCoord : Vector2) : float :=
  let r := lens_r lensCenter screenSize fragTexCoord in
  let deflection := (lensStrength / r)%b32 in
  (r - deflection)%b32.

Definition lens_newUV (lensCenter : Vector2) (lensStrength : float)
  (screenSize fragTexCoord : Vector2) : Vector2 :=
  let uv := fragTexCoord in
  let screenPos := mkVector2 (x2 uv * x2 screenSize)%b32 (y2 uv * y2 screenSize)%b32 in
  let delta := mkVector2 (x2 screenPos - x2 lensCenter)%b32
                         (y2 screenPos - y2 lensCenter)%b32 in
  let newR := lens_newR lensCenter lensStrength screenSize fragTexCoord in
  let newDelta := mkVector2 (x2 (normalize2 delta) * newR)%b32
                            (y2 (normalize2 delta) * newR)%b32 in
  let newScreenPos := mkVector2 (x2 lensCenter + x2 newDelta)%b32
                                (y2 lensCenter + y2 newDelta)%b32 in
  mkVector2 (x2 newScreenPos / x2 screenSize)%b32
            (y2 newScreenPos / y2 screenSize)%b32.

Definition in_unit_square (uv : Vector2) : bool :=
  (x2 uv >=? zero)%b32 && (x2 uv <=? one)%b32
  && (y2 uv >=? zero)%b32 && (y2 uv <=? one)%b32.

Definition lens_main (texture0 : sampler2D) (lensCenter : Vector2)
  (lensStrength : float) (screenSize fragTexCoord : Vector2) : Vector4 :=
  let r := lens_r lensCenter screenSize fragTexCoord in
  if (r >? zero)%b32 then
    let newR := lens_newR lensCenter lensStrength screenSize fragTexCoord in
    if (newR >? zero)%b32 then
      let newUV := lens_newUV lensCenter lensStrength screenSize fragTexCoord in
      if in_unit_square newUV then texture0 newUV
      else black4
    else black4
  else black4.

(** diskFragmentShader.  A discarded fragment is [None]. *)
Record DiskUniforms := mkDiskUniforms {
  u_time : float;
  u_blackHolePos : Vector3;
  u_innerRadius : float;
  u_outerRadius : float;
  u_hotColor : Vector3;
  u_coolColor : Vector3 }.

Definition noise (B : Builtins) (p : Vector2) : float :=
  glsl_fract B
    (glsl_sin B (dot2 p (mkVector2 (dec 1271 10) (dec 3117 10)))
     * dec 437585453 10000)%b32.

Definition disk_pos (u : DiskUniforms) (worldPos : Vector3) : Vector2 :=
  mkVector2 (x3 worldPos - x3 (u_blackHolePos u))%b32
            (z3 worldPos - z3 (u_blackHolePos u))%b32.

Definition disk_r (u : DiskUniforms) (worldPos : Vector3) : float :=
  length2 (disk_pos u worldPos).

Definition disk_discard (u : DiskUniforms) (worldPos : Vector3) : bool :=
  let r := disk_r u worldPos in
  (r <? u_innerRadius u)%b32 || (r >? u_outerRadius u)%b32.

Definition disk_temp (B : Builtins) (u : DiskUniforms) (worldPos : Vector3) : float :=
  let r := disk_r u worldPos in
  let temp :=
    (one - (r - u_innerRadius u) / (u_outerRadius u - u_innerRadius u))%b32 in
  glsl_pow B temp (dec 5 10).

Definition disk_angle (B : Builtins) (u : DiskUniforms) (worldPos : Vector3) : float :=
  let pos := disk_pos u worldPos in
  let r := disk_r u worldPos in
  let angle := glsl_atan B (y2 pos) (x2 pos) in
  let rotSpeed := (one / fsqrt r)%b32 in
  (angle + u_time u * rotSpeed)%b32.

Definition disk_turbulence (B : Builtins) (u : DiskUniforms) (worldPos : Vector3)
  : float :=
  let r := disk_r u worldPos in
  let angle := disk_angle B u worldPos in
  let noiseCoord :=
    mkVector2 (angle * of_Z 3 + u_time u * dec 1 10)%b32
              (r * dec 1 10 + zero)%b32 in
  (noise B noiseCoord * dec 5 10
   + noise B (mkVector2 (x2 noiseCoord * of_Z 2)%b32 (y2 noiseCoord * of_Z 2)%b32)
     * dec 25 100)%b32.

Definition disk_main (B : Builtins) (u : DiskUniforms) (worldPos : Vector3)
  : option Vector4 :=
  if disk_discard u worldPos then None
  else
    let temp := disk_temp B u worldPos in
    let angle := disk_angle B u worldPos in
    let turbulence := disk_turbulence B u worldPos in
    let dopplerShift := (glsl_sin B angle * dec 3 10)%b32 in
    let t := (temp + turbulence * dec 3 10)%b32 in
    let k := (one + dopplerShift)%b32 in
    let alpha := (temp * (dec 7 10 + turbulence * dec 3 10))%b32 in
    Some (mkVector4 (mix (x3 (u_coolColor u)) (x3 (u_hotColor u)) t * k)%b32
                    (mix (y3 (u_coolColor u)) (y3 (u_hotColor u)) t * k)%b32
                    (mix (z3 (u_coolColor u)) (z3 (u_hotColor u)) t * k)%b32
                    alpha).

(** ** The real value of a float and correct rounding

    Powers of two with an integer exponent. *)
Definition bpow (e : Z) : R := powerRZ 2 e.

(** The real [x] lies in the slot of width [2^e] that starts at [m * 2^e],
    at the position [l] reports: on its lower end, in its lower half, on
    its middle or in its upper half. *)
Definition cell (x : R) (m e : Z) (l : location) : Prop :=
  match l with
  | loc_Exact => x = (IZR m * bpow e)%R
  | loc_Inexact Lt => (IZR m * bpow e < x < (IZR m + / 2) * bpow e)%R
  | loc_Inexact Eq => x = ((IZR m + / 2) * bpow e)%R
  | loc_Inexact Gt => ((IZR m + / 2) * bpow e < x < (IZR m + 1) * bpow e)%R
  end.

(** The same for the mantissa and the two sticky bits of a shift record. *)
Definition cellr (x : R) (mrs : shr_record) (e : Z) : Prop :=
  cell x (shr_m mrs) e (loc_of_shr_record mrs).

(** A slot on the grid of binary32: exponent at least -149 and a 24-bit
    mantissa, normalised unless the exponent is the smallest one. *)
Definition ccell (x : R) (m e : Z) (l : location) : Prop :=
  cell x m e l /\ 0 <= m < 2 ^ 24 /\ -149 <= e /\ (e = -149 \/ 2 ^ 23 <= m).

(** The float built from a rounded mantissa [m <= 2^24] on that grid:
    a carry into bit 25 moves to the next exponent, exponents above 104
    overflow to infinity. *)
Definition pack (s : bool) (m e : Z) : float :=
  match m with
  | Z0 => S754_zero s
  | Zpos p =>
      if m =? 2 ^ 24 then
        if e + 1 <=? 104 then S754_finite s (2 ^ 23)%positive (e + 1)
        else S754_infinity s
      else if e <=? 104 then S754_finite s p e else S754_infinity s
  | Zneg _ => S754_nan
  end.

(** [f] is the magnitude [x], rounded to nearest with ties to even, with
    sign [s]. *)
Definition rounded_s (s : bool) (x : R) (f : float) : Prop :=
  exists m e l, ccell x m e l /\ f = pack s (round_nearest_even m l) e.

Definition rounded (x : R) (f : float) : Prop := rounded_s false x f.

(** The real number a finite float stands for (0 for the others). *)
Definition B2R (f : float) : R :=
  match f with
  | S754_finite s m e =>
      if s then (- (IZR (Z.pos m) * bpow e))%R else (IZR (Z.pos m) * bpow e)%R
  | _ => 0%R
  end.

(** ** Well-formed inputs *)

(** A coordinate the program can hold after initialisation and camera
    moves: a finite binary32 number. *)
Definition finite_coord (f : float) : bool := is_finite f && valid f.

Definition finite_vec (v : Vector3) : bool :=
  finite_coord (x3 v) && finite_coord (y3 v) && finite_coord (z3 v).

(** A finite positive number. *)
Definition fin_pos (f : float) : bool := fin_nonneg f && (zero <? f)%b32.

(** The states [UpdateSimulation] is reasoned about on: finite camera and
    black-hole coordinates, a finite positive Schwarzschild radius and a
    clock that is neither negative nor a NaN. *)
Definition wf_state (sim : SimulationState) : bool :=
  finite_vec (cam_position (camera sim))
  && finite_vec (bh_position (blackHole sim))
  && fin_pos (schwarzschildRadius (blackHole sim))
  && nonneg (time sim).

(** The body of [CalculateTimeDilation] once the distance is known. *)
Definition dilation_at (rs distance : float) : float :=
  if (distance <=? rs)%b32 then zero
  else
    let factor := (one - rs / distance)%b32 in
    if (factor <=? zero)%b32 then zero
    else fsqrt factor.

(** The clock before the first frame and after each one. *)
Fixpoint time_trace (frameTimes : list float) (sim : SimulationState)
  : list float :=
  match frameTimes with
  | [] => [time sim]
  | dt :: rest => time sim :: time_trace rest (UpdateSimulation dt sim)
  end.

Fixpoint nondecreasing (l : list float) : bool :=
  match l with
  | a :: (b :: _) as rest => (a <=? b)%b32 && nondecreasing rest
  | _ => true
  end.

(** ** Concrete inputs used in examples *)

(** The black hole [InitSimulation] sets up. *)
Definition bh0 : BlackHole :=
  mkBlackHole (mkVector3 zero zero zero) (of_Z 1) (of_Z 2) (of_Z 6).

(** A random source that answers 0 when 0 is in range and the lower bound
    otherwise: every star sits on the black hole, with brightness 50/255. *)
Definition rand0 : RandomSource :=
  fun _ lo hi => if (lo <=? 0) && (0 <=? hi) then 0 else lo.

(** The disk uniforms the direct render path uploads in the initial state. *)
Definition u0 : DiskUniforms :=
  mkDiskUniforms zero (mkVector3 zero zero zero) (of_Z 6) (of_Z 20)
    (mkVector3 (of_Z 1) (dec 8 10) (dec 2 10))
    (mkVector3 (dec 8 10) (dec 2 10) (dec 1 10)).

(** Built-ins with [pow(x, y)] read as the correctly rounded square root,
    its value at the only exponent the shader uses, and the others trivial. *)
Definition sqrt_builtins : Builtins :=
  mkBuiltins (fun _ => zero) (fun _ _ => zero) (fun x _ => fsqrt x) (fun x => x).

(** A sampler that returns its coordinate in the red and green channels. *)
Definition uv_texture : sampler2D := fun uv => mkVector4 (x2 uv) (y2 uv) zero one.

(** ** The rest of the main loop

    raymath.h, written out. *)

Definition Vector3Add (v1 v2 : Vector3) : Vector3 :=
  mkVector3 (x3 v1 + x3 v2)%b32 (y3 v1 + y3 v2)%b32 (z3 v1 + z3 v2)%b32.

Definition Vector3Subtract (v1 v2 : Vector3) : Vector3 :=
  mkVector3 (x3 v1 - x3 v2)%b32 (y3 v1 - y3 v2)%b32 (z3 v1 - z3 v2)%b32.

Definition Vector3Scale (v : Vector3) (scalar : float) : Vector3 :=
  mkVector3 (x3 v * scalar)%b32 (y3 v * scalar)%b32 (z3 v * scalar)%b32.

Definition Vector3CrossProduct (v1 v2 : Vector3) : Vector3 :=
  mkVector3 (y3 v1 * z3 v2 - z3 v1 * y3 v2)%b32
            (z3 v1 * x3 v2 - x3 v1 * z3 v2)%b32
            (x3 v1 * y3 v2 - y3 v1 * x3 v2)%b32.

(** [if (length != 0.0f)] scales by [1.0f / length]; a zero-length vector
    is returned as it is. *)
Definition Vector3Normalize (v : Vector3) : Vector3 :=
  let length := fsqrt (x3 v * x3 v + y3 v * y3 v + z3 v * z3 v)%b32 in
  if negb (feq length zero) then
    let ilength := (one / length)%b32 in
    mkVector3 (x3 v * ilength)%b32 (y3 v * ilength)%b32 (z3 v * ilength)%b32
  else v.

Definition set_cam_position (sim : SimulationState) (p : Vector3) : SimulationState :=
  mkSimulationState
    (mkCamera3D p (cam_target (camera sim)) (cam_up (camera sim))
       (cam_fovy (camera sim)) (cam_projection (camera sim)))
    (blackHole sim) (disk sim) (stars sim) (time sim) (timeDilation sim)
    (showLensing sim) (showDisk sim) (showTimeEffects sim).

(** The four movement keys, as [IsKeyDown] reports them. *)
Record MoveKeys := mkMoveKeys { KEY_W : bool; KEY_S : bool; KEY_A : bool; KEY_D : bool }.

Definition MoveForward (sim : SimulationState) : SimulationState :=
  let forward := Vector3Subtract (cam_target (camera sim)) (cam_position (camera sim)) in
  let forward := Vector3Normalize forward in
  let forward := Vector3Scale forward (dec 1 2) in
  set_cam_position sim (Vector3Add (cam_position (camera sim)) forward).

Definition MoveBackward (sim : SimulationState) : SimulationState :=
  let backward := Vector3Subtract (cam_position (camera sim)) (cam_target (camera sim)) in
  let backward := Vector3Normalize backward in
  let backward := Vector3Scale backward (dec 1 2) in
  set_cam_position sim (Vector3Add (cam_position (camera sim)) backward).

Definition MoveSideways (step : float) (sim : SimulationState) : SimulationState :=
  let right :=
    Vector3CrossProduct
      (Vector3Subtract (cam_target (camera sim)) (cam_position (camera sim)))
      (cam_up (camera sim)) in
  let right := Vector3Normalize right in
  let right := Vector3Scale right step in
  set_cam_position sim (Vector3Add (cam_position (camera sim)) right).

(** The four [if (IsKeyDown(...))] statements, in the order W, S, A, D. *)
Definition MoveCamera (down : MoveKeys) (sim : SimulationState) : SimulationState :=
  let sim := if KEY_W down then MoveForward sim else sim in
  let sim := if KEY_S down then MoveBackward sim else sim in
  let sim := if KEY_A down then MoveSideways (SFopp (dec 1 2)) sim else sim in
  if KEY_D down then MoveSideways (dec 1 2) sim else sim.

(** What one iteration of the [while] loop reads from outside. *)
Record FrameInput := mkFrameInput {
  in_frameTime : float;
  in_pressed : Keys;
  in_down : MoveKeys;
  in_fps : Z }.

(** The state part of one iteration: [UpdateSimulation], the toggle keys,
    the movement keys. *)
Definition LoopStep (i : FrameInput) (sim : SimulationState) : SimulationState :=
  MoveCamera (in_down i) (HandleToggles (in_pressed i) (UpdateSimulation (in_frameTime i) sim)).

(** The state after the iterations fed with [inputs], oldest first. *)
Definition run_loop (inputs : list FrameInput) (sim : SimulationState)
  : SimulationState :=
  fold_left (fun s i => LoopStep i s) inputs sim.

(** What the last of these iterations draws. *)
Definition LoopDraw (i : FrameInput) (sim : SimulationState) : list Cmd :=
  DrawFrame (in_fps i) (LoopStep i sim).

(** ** Checks on command lists *)

(** The [Begin...]/[End...] calls are properly nested: [opened] is the stack
    of scopes entered and not yet left. *)
Inductive Scope := InDrawing | InTexture | InMode3D | InShader.

Fixpoint nested_from (opened : list Scope) (cmds : list Cmd) : bool :=
  match cmds with
  | [] => match opened with [] => true | _ => false end
  | c :: rest =>
      match c with
      | BeginDrawing => nested_from (InDrawing :: opened) rest
      | BeginTextureMode => nested_from (InTexture :: opened) rest
      | BeginMode3D _ => nested_from (InMode3D :: opened) rest
      | BeginShaderMode _ => nested_from (InShader :: opened) rest
      | EndDrawing =>
          match opened with InDrawing :: o => nested_from o rest | _ => false end
      | EndTextureMode =>
          match opened with InTexture :: o => nested_from o rest | _ => false end
      | EndMode3D =>
          match opened with InMode3D :: o => nested_from o rest | _ => false end
      | EndShaderMode =>
          match opened with InShader :: o => nested_from o rest | _ => false end
      | _ => nested_from opened rest
      end
  end.

Definition well_nested (cmds : list Cmd) : bool := nested_from [] cmds.

(** The calls that put 3-D geometry on the target. *)
Definition is_geometry (c : Cmd) : bool :=
  match c with
  | DrawCube _ _ _ _ _ | DrawCylinderEx _ _ _ _ _ _
  | DrawSphere _ _ _ | DrawCircle3D _ _ _ _ _ => true
  | _ => false
  end.

(** ** Camera steps *)

(** A finite number of magnitude at most 8: what one movement key adds to
    a camera coordinate. *)
Definition small_coord (c : float) : Prop :=
  finite_coord c = true /\ (Rabs (B2R c) <= 8)%R.

Definition small_vec (v : Vector3) : Prop :=
  small_coord (x3 v) /\ small_coord (y3 v) /\ small_coord (z3 v).

(** The states the running program is in: the camera looks at the origin
    with the y axis up from a finite position, the black hole is the initial
    one, the clock is not negative and the dilation factor lies in [0,1]. *)
Definition loop_invariant (sim : SimulationState) : Prop :=
  finite_vec (cam_position (camera sim)) = true
  /\ cam_target (camera sim) = mkVector3 zero zero zero
  /\ cam_up (camera sim) = mkVector3 zero (of_Z 1) zero
  /\ blackHole sim = bh0
  /\ nonneg (time sim) = true
  /\ fin_nonneg (timeDilation sim) = true
  /\ (timeDilation sim <=? one)%b32 = true.

(** How many of the iterations saw [key] pressed. *)
Definition presses (key : Keys -> bool) (inputs : list FrameInput) : nat :=
  List.length (filter (fun i => key (in_pressed i)) inputs).

(** ** [CartesianToPolar]

    [atan2f] and [acosf] are the C library's; they are inputs here. *)
Definition CartesianToPolar (atan2f : float -> float -> float)
    (acosf : float -> float) (pos : Vector3) : Vector3 :=
  let r := fsqrt (x3 pos * x3 pos + y3 pos * y3 pos + z3 pos * z3 pos)%b32 in
  let theta := atan2f (z3 pos) (x3 pos) in
  let phi := acosf (y3 pos / r)%b32 in
  mkVector3 r theta phi.

(** * Proofs *)

(** The four shapes of a float, with both signs: zero, infinity, NaN, finite. *)
Ltac float_cases f m e := destruct f as [[]|[]| |[] m e].

(** Facts about the sign and class of a float. *)
Create HintDb b32.

(** ** Powers of two and digit counts *)

Lemma bpow_gt_0 e : (0 < bpow e)%R.
Proof. apply powerRZ_lt; lra. Qed.

Lemma bpow_add a b : bpow (a + b) = (bpow a * bpow b)%R.
Proof. apply powerRZ_add; lra. Qed.

Lemma bpow_0 : bpow 0 = 1%R.
Proof. reflexivity. Qed.

Lemma bpow_1 : bpow 1 = 2%R.
Proof. unfold bpow; simpl; lra. Qed.

Lemma bpow_succ e : bpow (e + 1) = (2 * bpow e)%R.
Proof. rewrite bpow_add, bpow_1; lra. Qed.

Lemma bpow_IZR e : 0 <= e -> bpow e = IZR (2 ^ e).
Proof.
  intros He. pattern e. apply natlike_ind; [reflexivity | | exact He].
  intros k Hk IH. rewrite Z.pow_succ_r by lia. unfold Z.succ.
  rewrite bpow_succ, IH, mult_IZR. reflexivity.
Qed.

Lemma bpow_le a b : a <= b -> (bpow a <= bpow b)%R.
Proof.
  intros H. replace b with (a + (b - a)) by lia.
  rewrite bpow_add, (bpow_IZR (b - a)) by lia.
  assert (1 <= 2 ^ (b - a)) by (apply Z.lt_succ_r, Z.lt_pred_lt_succ; apply Z.pow_pos_nonneg; lia).
  apply IZR_le in H0. pose proof (bpow_gt_0 a). nra.
Qed.

Lemma bpow_lt a b : a < b -> (bpow a < bpow b)%R.
Proof.
  intros H. replace b with (a + 1 + (b - a - 1)) by lia.
  rewrite bpow_add, bpow_succ.
  pose proof (bpow_le 0 (b - a - 1)). rewrite bpow_0 in H0.
  pose proof (bpow_gt_0 a). specialize (H0 ltac:(lia)). nra.
Qed.

Lemma bpow_lt_inv a b : (bpow a < bpow b)%R -> a < b.
Proof.
  intros H. destruct (Z_lt_le_dec a b) as [|Hle]; [assumption|].
  apply bpow_le in Hle. lra.
Qed.

Lemma digits2_pos_bounds p :
  2 ^ (Z.pos (digits2_pos p) - 1) <= Z.pos p < 2 ^ Z.pos (digits2_pos p).
Proof.
  induction p as [p IH | p IH |]; simpl digits2_pos.
  - rewrite Pos2Z.inj_succ. replace (Z.succ (Z.pos (digits2_pos p)) - 1) with (Z.succ (Z.pos (digits2_pos p) - 1)) by lia.
    rewrite !Z.pow_succ_r by lia. lia.
  - rewrite Pos2Z.inj_succ. replace (Z.succ (Z.pos (digits2_pos p)) - 1) with (Z.succ (Z.pos (digits2_pos p) - 1)) by lia.
    rewrite !Z.pow_succ_r by lia. lia.
  - simpl. lia.
Qed.

Lemma Zdigits2_bounds m : 0 < m -> 2 ^ (Zdigits2 m - 1) <= m < 2 ^ Zdigits2 m.
Proof. destruct m; try lia. intros _. apply digits2_pos_bounds. Qed.

Lemma Zdigits2_nonneg m : 0 <= Zdigits2 m.
Proof. destruct m; simpl; lia. Qed.

Lemma Zdigits2_unique m d : 0 < m -> 2 ^ (d - 1) <= m < 2 ^ d -> Zdigits2 m = d.
Proof.
  intros Hm [H1 H2]. destruct (Zdigits2_bounds m Hm) as [H3 H4].
  assert (0 < Zdigits2 m) by (destruct m; simpl; lia).
  assert (0 < d).
  { destruct (Z_lt_le_dec 0 d); [lia|]. exfalso.
    assert (2 ^ d <= 1) by (destruct (Z.eq_dec d 0); subst; [simpl; lia | rewrite Z.pow_neg_r; lia]).
    lia. }
  destruct (Z_lt_le_dec (Zdigits2 m) d).
  - assert (2 ^ Zdigits2 m <= 2 ^ (d - 1)) by (apply Z.pow_le_mono_r; lia). lia.
  - destruct (Z_lt_le_dec d (Zdigits2 m)); [|lia].
    assert (2 ^ d <= 2 ^ (Zdigits2 m - 1)) by (apply Z.pow_le_mono_r; lia). lia.
Qed.

(** ** Shifting a mantissa right keeps the number in its slot *)

Lemma shr_1_m mrs : 0 <= shr_m mrs -> shr_m (shr_1 mrs) = shr_m mrs / 2.
Proof.
  destruct mrs as [m r s]; simpl. intros Hm.
  destruct m as [|[p|p|]|p]; simpl shr_m; try lia.
  - reflexivity.
  - apply Z.div_unique with (r := 1); lia.
  - apply Z.div_unique with (r := 0); lia.
  - reflexivity.
Qed.

Lemma IZR_xO p : IZR (Z.pos p~0) = (2 * IZR (Z.pos p))%R.
Proof. rewrite Pos2Z.inj_xO, mult_IZR. reflexivity. Qed.

Lemma IZR_xI p : IZR (Z.pos p~1) = (2 * IZR (Z.pos p) + 1)%R.
Proof. rewrite Pos2Z.inj_xI, plus_IZR, mult_IZR. reflexivity. Qed.

(** One step of [shr] halves the mantissa and widens the slot; the two
    sticky bits keep track of where the number sits in it. *)
Lemma shr_1_cell x mrs e :
  0 <= shr_m mrs -> cellr x mrs e -> cellr x (shr_1 mrs) (e + 1).
Proof.
  destruct mrs as [m r s]; unfold cellr; simpl. intros Hm.
  pose proof (bpow_gt_0 e) as Hb.
  destruct m as [|[p|p|]|p]; try lia;
    destruct r, s; simpl; rewrite bpow_succ;
    try rewrite IZR_xI; try rewrite IZR_xO; intros H; lra.
Qed.

Lemma shr_iter_spec p : forall x mrs e,
  0 <= shr_m mrs -> cellr x mrs e ->
  cellr x (iter_pos shr_1 p mrs) (e + Z.pos p)
  /\ shr_m (iter_pos shr_1 p mrs) = shr_m mrs / 2 ^ Z.pos p.
Proof.
  induction p as [p IH | p IH |]; intros x mrs e Hm Hc; simpl iter_pos.
  - pose proof (shr_1_cell x mrs e Hm Hc) as H1.
    pose proof (shr_1_m mrs Hm) as E1.
    assert (Hm1 : 0 <= shr_m (shr_1 mrs)) by (rewrite E1; apply Z.div_pos; lia).
    destruct (IH x _ _ Hm1 H1) as [H2 E2].
    assert (Hm2 : 0 <= shr_m (iter_pos shr_1 p (shr_1 mrs)))
      by (rewrite E2; apply Z.div_pos; [lia | apply Z.pow_pos_nonneg; lia]).
    destruct (IH x _ _ Hm2 H2) as [H3 E3].
    split.
    + replace (e + Z.pos p~1) with (e + 1 + Z.pos p + Z.pos p) by lia. exact H3.
    + rewrite E3, E2, E1, !Z.div_div by (try apply Z.pow_pos_nonneg; lia).
      f_equal. replace (Z.pos p~1) with (1 + Z.pos p + Z.pos p) by lia.
      rewrite !Z.pow_add_r by lia. lia.
  - destruct (IH x _ _ Hm Hc) as [H2 E2].
    assert (Hm2 : 0 <= shr_m (iter_pos shr_1 p mrs))
      by (rewrite E2; apply Z.div_pos; [lia | apply Z.pow_pos_nonneg; lia]).
    destruct (IH x _ _ Hm2 H2) as [H3 E3].
    split.
    + replace (e + Z.pos p~0) with (e + Z.pos p + Z.pos p) by lia. exact H3.
    + rewrite E3, E2, !Z.div_div by (try apply Z.pow_pos_nonneg; lia).
      f_equal. replace (Z.pos p~0) with (Z.pos p + Z.pos p) by lia.
      rewrite !Z.pow_add_r by lia. lia.
  - split; [apply shr_1_cell; assumption | rewrite shr_1_m by assumption; reflexivity].
Qed.

Lemma shr_spec x mrs e n :
  0 <= shr_m mrs -> cellr x mrs e -> 0 <= n ->
  cellr x (fst (shr mrs e n)) (e + n)
  /\ snd (shr mrs e n) = e + n
  /\ shr_m (fst (shr mrs e n)) = shr_m mrs / 2 ^ n.
Proof.
  intros Hm Hc Hn. destruct n as [|p|p]; try lia; simpl.
  - rewrite Z.add_0_r, Z.div_1_r. auto.
  - destruct (shr_iter_spec p x mrs e Hm Hc) as [H1 H2]. auto.
Qed.

Lemma shr_record_of_loc_m m l : shr_m (shr_record_of_loc m l) = m.
Proof. destruct l as [|[]]; reflexivity. Qed.

Lemma loc_of_shr_record_of_loc m l :
  loc_of_shr_record (shr_record_of_loc m l) = l.
Proof. destruct l as [|[]]; reflexivity. Qed.

(** ** Rounding a slot to the binary32 grid *)

Lemma fexp_eq k : fexp prec emax k = Z.max (k - 24) (-149).
Proof. reflexivity. Qed.

(** [shr_fexp] brings any slot that is not coarser than the format onto
    the binary32 grid. *)
Lemma shr_fexp_spec x m e l :
  0 <= m -> cell x m e l -> e <= fexp prec emax (Zdigits2 m + e) ->
  ccell x (shr_m (fst (shr_fexp prec emax m e l))) (snd (shr_fexp prec emax m e l))
    (loc_of_shr_record (fst (shr_fexp prec emax m e l))).
Proof.
  intros Hm Hc He. unfold shr_fexp.
  set (n := fexp prec emax (Zdigits2 m + e) - e).
  assert (Hn : 0 <= n) by (unfold n; lia).
  assert (Hc' : cellr x (shr_record_of_loc m l) e)
    by (unfold cellr; rewrite shr_record_of_loc_m, loc_of_shr_record_of_loc; exact Hc).
  assert (Hm' : 0 <= shr_m (shr_record_of_loc m l))
    by (rewrite shr_record_of_loc_m; exact Hm).
  destruct (shr_spec x _ e n Hm' Hc' Hn) as (H1 & H2 & H3).
  rewrite shr_record_of_loc_m in H3.
  rewrite H2, H3. unfold cellr in H1. rewrite H3 in H1.
  assert (Hp : 0 < 2 ^ n) by (apply Z.pow_pos_nonneg; lia).
  unfold ccell. split; [exact H1|].
  unfold n in *. rewrite fexp_eq in *.
  destruct (Z.eq_dec m 0) as [-> | Hm0].
  - simpl Zdigits2 in *. rewrite Z.div_0_l by lia. lia.
  - destruct (Zdigits2_bounds m ltac:(lia)) as [Hd1 Hd2].
    set (d := Zdigits2 m) in *.
    assert (0 < d) by (unfold d; destruct m; simpl; lia).
    split; [split|split].
    + apply Z.div_pos; lia.
    + apply Z.div_lt_upper_bound; [lia|].
      rewrite <- Z.pow_add_r by lia.
      eapply Z.lt_le_trans; [exact Hd2|]. apply Z.pow_le_mono_r; lia.
    + lia.
    + destruct (Z.eq_dec (e + (Z.max (d + e - 24) (-149) - e)) (-149)); [left; assumption | right].
      apply Z.div_le_lower_bound; [lia|].
      rewrite <- Z.pow_add_r by lia.
      eapply Z.le_trans; [|exact Hd1]. apply Z.pow_le_mono_r; lia.
Qed.

Lemma shr_fexp_exact_small m e :
  0 <= m < 2 ^ 24 -> -149 <= e ->
  shr_fexp prec emax m e loc_Exact = (Build_shr_record m false false, e).
Proof.
  intros Hm He. unfold shr_fexp. rewrite fexp_eq. simpl shr_record_of_loc.
  assert (Hd : Zdigits2 m <= 24).
  { destruct (Z.eq_dec m 0) as [-> | Hm0]; [simpl; lia|].
    destruct (Zdigits2_bounds m ltac:(lia)) as [Hd1 Hd2].
    destruct (Z_lt_le_dec 24 (Zdigits2 m)); [|assumption].
    assert (2 ^ 24 <= 2 ^ (Zdigits2 m - 1)) by (apply Z.pow_le_mono_r; lia). lia. }
  destruct (Z.max (Zdigits2 m + e - 24) (-149) - e) eqn:E; try reflexivity. lia.
Qed.

Lemma shr_fexp_exact_carry e :
  -149 <= e ->
  shr_fexp prec emax (2 ^ 24) e loc_Exact
  = (Build_shr_record (2 ^ 23) false false, e + 1).
Proof.
  intros He. unfold shr_fexp. rewrite fexp_eq. simpl shr_record_of_loc.
  change (Zdigits2 (2 ^ 24)) with 25.
  replace (Z.max (25 + e - 24) (-149) - e) with 1 by lia. reflexivity.
Qed.

Lemma round_nearest_even_bounds m l :
  m <= round_nearest_even m l <= m + 1.
Proof. destruct l as [|[]]; simpl; try lia. destruct (Z.even m); lia. Qed.

(** [binary_round_aux] is: move to the grid, round the mantissa to
    nearest even, renormalise. *)
Lemma binary_round_aux_pack x s m e l :
  0 <= m -> cell x m e l -> e <= fexp prec emax (Zdigits2 m + e) ->
  exists m1 e1 l1,
    ccell x m1 e1 l1
    /\ binary_round_aux prec emax s m e l = pack s (round_nearest_even m1 l1) e1.
Proof.
  intros Hm Hc He.
  pose proof (shr_fexp_spec x m e l Hm Hc He) as H.
  unfold binary_round_aux.
  destruct (shr_fexp prec emax m e l) as [mrs' e'] eqn:E1. simpl fst in H; simpl snd in H.
  exists (shr_m mrs'), e', (loc_of_shr_record mrs'). split; [exact H|].
  destruct H as (_ & Hb & He' & _).
  pose proof (round_nearest_even_bounds (shr_m mrs') (loc_of_shr_record mrs')) as Hr.
  set (m2 := round_nearest_even (shr_m mrs') (loc_of_shr_record mrs')) in *.
  destruct (Z.eq_dec m2 (2 ^ 24)) as [E | NE].
  - rewrite E, shr_fexp_exact_carry by assumption. reflexivity.
  - rewrite shr_fexp_exact_small by lia. simpl shr_m.
    unfold pack. destruct m2 as [|p|p]; try lia; try reflexivity.
    destruct (Z.eqb_spec (Z.pos p) (2 ^ 24)); [contradiction | reflexivity].
Qed.

(** ** Rounding is monotone *)

Lemma fle_finite_pos m e m' e' :
  fle (S754_finite false m e) (S754_finite false m' e') = true
  <-> (e < e' \/ (e = e' /\ (m <= m')%positive)).
Proof.
  unfold fle, SFleb, SFcompare.
  destruct (Z.compare_spec e e') as [E | E | E].
  - change (Pos.compare_cont Eq m m') with (Pos.compare m m').
    destruct (Pos.compare_spec m m') as [E2 | E2 | E2]; split; intros H; try discriminate; try lia; auto.
  - split; intros; [lia | reflexivity].
  - split; intros H; [discriminate | lia].
Qed.

Lemma pack_le m e m' e' :
  0 <= m <= 2 ^ 24 -> 0 <= m' <= 2 ^ 24 ->
  (e < e' /\ 2 ^ 23 <= m') \/ (e = e' /\ m <= m') ->
  fle (pack false m e) (pack false m' e') = true.
Proof.
  intros Hm Hm' H. unfold pack.
  destruct m as [|p|p]; try lia; destruct m' as [|p'|p']; try lia.
  - reflexivity.
  - destruct (Z.pos p' =? 2 ^ 24); [destruct (e' + 1 <=? 104) | destruct (e' <=? 104)]; reflexivity.
  - destruct (Z.eqb_spec (Z.pos p) (2 ^ 24)) as [E1|E1];
    destruct (Z.eqb_spec (Z.pos p') (2 ^ 24)) as [E2|E2];
    repeat match goal with
      | |- context [?a <=? ?b] => destruct (Z.leb_spec a b)
      end; try reflexivity; try lia;
    try (apply fle_finite_pos; lia).
Qed.

Lemma cell_bounds x m e l :
  cell x m e l -> (IZR m * bpow e <= x < (IZR m + 1) * bpow e)%R.
Proof.
  pose proof (bpow_gt_0 e). destruct l as [|[]]; simpl; intros; lra.
Qed.

Lemma IZR_bpow_lt_inv m m' e :
  (IZR m * bpow e < (IZR m' + 1) * bpow e)%R -> m <= m'.
Proof.
  intros H. pose proof (bpow_gt_0 e).
  assert (IZR m < IZR (m' + 1))%R by (rewrite plus_IZR; nra).
  apply lt_IZR in H1. lia.
Qed.

Lemma round_nearest_even_mono x y m e l l' :
  cell x m e l -> cell y m e l' -> (x <= y)%R ->
  round_nearest_even m l <= round_nearest_even m l'.
Proof.
  pose proof (bpow_gt_0 e).
  destruct l as [|[]], l' as [|[]]; simpl; intros; try lia; try lra;
    destruct (Z.even m); lia.
Qed.

(** Rounding to nearest is monotone. *)
Lemma rounded_mono x y f g :
  rounded x f -> rounded y g -> (x <= y)%R -> fle f g = true.
Proof.
  intros (m & e & l & (Hc & Hm & He & Hn) & ->) (m' & e' & l' & (Hc' & Hm' & He' & Hn') & ->) Hxy.
  pose proof (round_nearest_even_bounds m l) as Hr.
  pose proof (round_nearest_even_bounds m' l') as Hr'.
  pose proof (cell_bounds _ _ _ _ Hc) as Hb.
  pose proof (cell_bounds _ _ _ _ Hc') as Hb'.
  apply pack_le; try lia.
  destruct (Z.compare_spec e e') as [E | E | E].
  - subst e'. right. split; [reflexivity|].
    assert (m <= m') by (apply (IZR_bpow_lt_inv m m' e); lra).
    destruct (Z.eq_dec m m') as [<- | NE]; [|lia].
    eapply round_nearest_even_mono; eassumption.
  - left. lia.
  - exfalso. assert (2 ^ 23 <= m) by lia.
    assert (bpow (e' + 1) <= bpow e)%R by (apply bpow_le; lia).
    rewrite bpow_succ in H0.
    assert (IZR (2 ^ 23) <= IZR m)%R by (apply IZR_le; assumption).
    assert (IZR m' + 1 <= IZR (2 ^ 24))%R by (rewrite <- plus_IZR; apply IZR_le; lia).
    pose proof (bpow_gt_0 e'). pose proof (bpow_gt_0 e).
    change (IZR (2 ^ 23)) with 8388608%R in *. change (IZR (2 ^ 24)) with 16777216%R in *.
    assert (IZR m * bpow e >= 8388608 * (2 * bpow e'))%R by nra.
    assert ((IZR m' + 1) * bpow e' <= 16777216 * bpow e')%R by nra.
    lra.
Qed.

(** ** Canonical floats and the real numbers they stand for *)

Lemma bounded_spec m e :
  bounded prec emax m e = true <->
  (Z.pos m < 2 ^ 24 /\ -149 <= e <= 104 /\ (e = -149 \/ 2 ^ 23 <= Z.pos m)).
Proof.
  unfold bounded, canonical_mantissa. rewrite andb_true_iff, Z.eqb_eq, Z.leb_le, fexp_eq.
  change (emax - prec) with 104.
  pose proof (digits2_pos_bounds m) as [H1 H2].
  set (d := Z.pos (digits2_pos m)) in *.
  assert (0 < d) by (unfold d; lia).
  split.
  - intros [E Hle].
    assert (d <= 24) by lia.
    assert (2 ^ d <= 2 ^ 24) by (apply Z.pow_le_mono_r; lia).
    repeat split; try lia.
    destruct (Z.eq_dec e (-149)); [left; assumption | right].
    assert (d = 24) by lia. subst d. rewrite H4 in H1. exact H1.
  - intros (Hm & He & Hn).
    assert (d <= 24).
    { destruct (Z_lt_le_dec 24 d); [|assumption].
      assert (2 ^ 24 <= 2 ^ (d - 1)) by (apply Z.pow_le_mono_r; lia). lia. }
    split; [|lia].
    destruct Hn as [-> | Hn]; [lia|].
    assert (d = 24).
    { destruct (Z_lt_le_dec d 24); [|lia].
      assert (2 ^ d <= 2 ^ 23) by (apply Z.pow_le_mono_r; lia). lia. }
    lia.
Qed.

Lemma pack_valid s m e l x :
  ccell x m e l ->
  valid (pack s (round_nearest_even m l) e) = true.
Proof.
  intros (_ & Hm & He & Hn).
  pose proof (round_nearest_even_bounds m l) as Hr.
  unfold pack. destruct (round_nearest_even m l) as [|p|p] eqn:E; try lia; try reflexivity.
  destruct (Z.eqb_spec (Z.pos p) (2 ^ 24)) as [E1|E1].
  - destruct (Z.leb_spec (e + 1) 104); [|reflexivity].
    apply bounded_spec. change (Z.pos (2 ^ 23)) with (2 ^ 23). lia.
  - destruct (Z.leb_spec e 104); [|reflexivity].
    apply bounded_spec. lia.
Qed.

Lemma pack_not_nan s m e l x :
  ccell x m e l -> pack s (round_nearest_even m l) e <> S754_nan.
Proof.
  intros (_ & Hm & He & Hn).
  pose proof (round_nearest_even_bounds m l) as Hr.
  unfold pack. destruct (round_nearest_even m l) as [|p|p] eqn:E; try lia; try discriminate.
  destruct (Z.pos p =? 2 ^ 24); [destruct (e + 1 <=? 104) | destruct (e <=? 104)]; discriminate.
Qed.

Lemma rounded_nonneg x f : rounded x f -> nonneg f = true.
Proof.
  intros (m & e & l & Hc & ->).
  pose proof (pack_valid false m e l x Hc) as Hv.
  destruct Hc as (_ & Hm & He & Hn).
  pose proof (round_nearest_even_bounds m l) as Hr.
  unfold pack in *. destruct (round_nearest_even m l) as [|p|p] eqn:E; try lia; try reflexivity.
  destruct (Z.pos p =? 2 ^ 24); [destruct (e + 1 <=? 104) | destruct (e <=? 104)];
    try reflexivity; exact Hv.
Qed.

(** A canonical float is the rounding of its own value. *)
Lemma fin_nonneg_rounded f : fin_nonneg f = true -> rounded (B2R f) f.
Proof.
  float_cases f m e; try discriminate; simpl; intros H.
  - exists 0, (-149), loc_Exact. split; [|reflexivity].
    unfold ccell; simpl. split; [lra | lia].
  - apply bounded_spec in H. destruct H as (Hm & He & Hn).
    exists (Z.pos m), e, loc_Exact. split.
    + unfold ccell; simpl. split; [reflexivity | lia].
    + unfold round_nearest_even, pack.
      destruct (Z.eqb_spec (Z.pos m) (2 ^ 24)); [lia|].
      destruct (Z.leb_spec e 104); [reflexivity | lia].
Qed.

Lemma fin_nonneg_B2R_ge_0 f : fin_nonneg f = true -> (0 <= B2R f)%R.
Proof.
  float_cases f m e; try discriminate; simpl; intros _; [lra|].
  pose proof (bpow_gt_0 e). assert (0 < IZR (Z.pos m))%R by (apply IZR_lt; lia). nra.
Qed.

(** On canonical non-negative floats, [<=] is the order of the reals. *)
Lemma fle_B2R f g :
  fin_nonneg f = true -> fin_nonneg g = true ->
  (fle f g = true <-> (B2R f <= B2R g)%R).
Proof.
  intros Hf Hg. split.
  - intros H.
    float_cases f m e; try discriminate; float_cases g m' e'; try discriminate;
      unfold B2R.
    + lra.
    + pose proof (bpow_gt_0 e'). assert (0 < IZR (Z.pos m'))%R by (apply IZR_lt; lia). nra.
    + apply fle_finite_pos in H. simpl in Hf, Hg. apply bounded_spec in Hf, Hg.
      destruct H as [H | [-> H]].
      * assert (bpow (e + 1) <= bpow e')%R by (apply bpow_le; lia).
        rewrite bpow_succ in H0.
        assert (IZR (Z.pos m) <= IZR (2 ^ 24))%R by (apply IZR_le; lia).
        assert (IZR (2 ^ 23) <= IZR (Z.pos m'))%R by (apply IZR_le; lia).
        change (IZR (2 ^ 23)) with 8388608%R in *. change (IZR (2 ^ 24)) with 16777216%R in *.
        pose proof (bpow_gt_0 e'). pose proof (bpow_gt_0 e). nra.
      * assert (IZR (Z.pos m) <= IZR (Z.pos m'))%R by (apply IZR_le; lia).
        pose proof (bpow_gt_0 e'). nra.
  - intros H. eapply rounded_mono; [apply fin_nonneg_rounded | apply fin_nonneg_rounded | exact H]; assumption.
Qed.

(** ** The arithmetic operations are correctly rounded *)

Lemma rounded_s_valid s x f : rounded_s s x f -> valid f = true /\ f <> S754_nan.
Proof.
  intros (m & e & l & Hc & ->). split; [eapply pack_valid | eapply pack_not_nan]; eassumption.
Qed.

Lemma binary_round_aux_rounded s x m e l :
  0 <= m -> cell x m e l -> e <= fexp prec emax (Zdigits2 m + e) ->
  rounded_s s x (binary_round_aux prec emax s m e l).
Proof.
  intros Hm Hc He.
  destruct (binary_round_aux_pack x s m e l Hm Hc He) as (m1 & e1 & l1 & H1 & H2).
  exists m1, e1, l1. auto.
Qed.

Lemma iter_xO m d : Z.pos (Pos.iter xO m d) = Z.pos m * 2 ^ Z.pos d.
Proof.
  induction d as [|d IH] using Pos.peano_ind.
  - simpl. lia.
  - rewrite Pos.iter_succ, Pos2Z.inj_xO, IH, Pos2Z.inj_succ, Z.pow_succ_r by lia. lia.
Qed.

Lemma Zdigits2_shift m k :
  0 < m -> 0 <= k -> Zdigits2 (m * 2 ^ k) = Zdigits2 m + k.
Proof.
  intros Hm Hk. destruct (Zdigits2_bounds m Hm) as [H1 H2].
  assert (0 < Zdigits2 m) by (destruct m; simpl; lia).
  assert (0 < 2 ^ k) by (apply Z.pow_pos_nonneg; lia).
  apply Zdigits2_unique; [lia|].
  replace (Zdigits2 m + k - 1) with (Zdigits2 m - 1 + k) by lia.
  rewrite !Z.pow_add_r by lia. nia.
Qed.

Lemma shl_align_spec m e e' :
  (IZR (Z.pos (fst (shl_align m e e'))) * bpow (snd (shl_align m e e'))
   = IZR (Z.pos m) * bpow e)%R
  /\ Zdigits2 (Z.pos (fst (shl_align m e e'))) + snd (shl_align m e e')
     = Zdigits2 (Z.pos m) + e
  /\ snd (shl_align m e e') = Z.min e e'
  /\ Z.pos (fst (shl_align m e e')) = Z.pos m * 2 ^ (e - Z.min e e').
Proof.
  unfold shl_align. destruct (e' - e) as [|d|d] eqn:E; simpl fst; simpl snd.
  - replace (Z.min e e') with e by lia. rewrite Z.sub_diag. simpl (2 ^ 0). repeat split; lia.
  - replace (Z.min e e') with e by lia. rewrite Z.sub_diag. simpl (2 ^ 0). repeat split; lia.
  - replace (Z.min e e') with e' by lia.
    assert (Ed : e - e' = Z.pos d) by lia.
    pose proof (iter_xO m d) as Hi. rewrite Ed.
    repeat split; try assumption.
    + rewrite Hi, mult_IZR, <- bpow_IZR by lia.
      rewrite Rmult_assoc, <- bpow_add. f_equal. f_equal. lia.
    + rewrite Hi, Zdigits2_shift by lia. lia.
Qed.

Lemma binary_round_rounded s m e :
  rounded_s s (IZR (Z.pos m) * bpow e) (binary_round prec emax s m e).
Proof.
  unfold binary_round.
  pose proof (shl_align_spec m e (fexp prec emax (Z.pos (digits2_pos m) + e))) as H.
  destruct (shl_align m e _) as [mz ez]. simpl fst in H; simpl snd in H.
  destruct H as (H1 & H2 & H3 & _).
  apply binary_round_aux_rounded; [lia | simpl; symmetry; exact H1 |].
  rewrite H2. change (Zdigits2 (Z.pos m)) with (Z.pos (digits2_pos m)). lia.
Qed.

(** Sum, difference, product, quotient and square root of non-negative
    floats are the roundings of the exact results. *)
Lemma fadd_rounded a b :
  fin_nonneg a = true -> fin_nonneg b = true ->
  rounded (B2R a + B2R b) (SFadd prec emax a b).
Proof.
  intros Ha Hb.
  float_cases a ma ea; try discriminate;
    float_cases b mb eb; try discriminate.
  - simpl SFadd. replace (B2R _ + B2R _)%R with (B2R (S754_zero false)) by (simpl; lra).
    apply fin_nonneg_rounded; reflexivity.
  - simpl SFadd. replace (B2R _ + B2R _)%R with (B2R (S754_finite false mb eb)) by (simpl; lra).
    apply fin_nonneg_rounded; assumption.
  - simpl SFadd. replace (B2R _ + B2R _)%R with (B2R (S754_finite false ma ea)) by (simpl; lra).
    apply fin_nonneg_rounded; assumption.
  - unfold SFadd, cond_Zopp.
    pose proof (shl_align_spec ma ea (Z.min ea eb)) as Sa.
    pose proof (shl_align_spec mb eb (Z.min ea eb)) as Sb.
    destruct (shl_align ma ea _) as [ma' ea'], (shl_align mb eb _) as [mb' eb'].
    simpl fst in Sa, Sb; simpl snd in Sa, Sb.
    destruct Sa as (Sa1 & _ & Sa3 & _), Sb as (Sb1 & _ & Sb3 & _).
    simpl fst. change (Z.pos ma' + Z.pos mb') with (Z.pos (ma' + mb')).
    unfold binary_normalize.
    replace (B2R _ + B2R _)%R with (IZR (Z.pos (ma' + mb')) * bpow (Z.min ea eb))%R.
    + apply binary_round_rounded.
    + simpl B2R. rewrite <- Sa1, <- Sb1, Pos2Z.inj_add, plus_IZR.
      replace ea' with (Z.min ea eb) by lia. replace eb' with (Z.min ea eb) by lia. lra.
Qed.

Lemma fsub_rounded a b :
  fin_nonneg a = true -> fin_nonneg b = true -> (B2R b <= B2R a)%R ->
  rounded (B2R a - B2R b) (SFsub prec emax a b).
Proof.
  intros Ha Hb Hle.
  float_cases a ma ea; try discriminate;
    float_cases b mb eb; try discriminate.
  - simpl SFsub. replace (B2R _ - B2R _)%R with (B2R (S754_zero false)) by (simpl; lra).
    apply fin_nonneg_rounded; reflexivity.
  - exfalso. simpl in Hle. pose proof (bpow_gt_0 eb).
    assert (0 < IZR (Z.pos mb))%R by (apply IZR_lt; lia). nra.
  - simpl SFsub. replace (B2R _ - B2R _)%R with (B2R (S754_finite false ma ea)) by (simpl; lra).
    apply fin_nonneg_rounded; assumption.
  - unfold SFsub, cond_Zopp.
    pose proof (shl_align_spec ma ea (Z.min ea eb)) as Sa.
    pose proof (shl_align_spec mb eb (Z.min ea eb)) as Sb.
    destruct (shl_align ma ea _) as [ma' ea'], (shl_align mb eb _) as [mb' eb'].
    simpl fst in Sa, Sb; simpl snd in Sa, Sb.
    destruct Sa as (Sa1 & _ & Sa3 & _), Sb as (Sb1 & _ & Sb3 & _).
    simpl fst. replace ea' with (Z.min ea eb) in Sa1 by lia.
    replace eb' with (Z.min ea eb) in Sb1 by lia.
    assert (E : (B2R (S754_finite false ma ea) - B2R (S754_finite false mb eb)
                 = IZR (Z.pos ma' - Z.pos mb') * bpow (Z.min ea eb))%R)
      by (simpl B2R; rewrite <- Sa1, <- Sb1, minus_IZR; lra).
    rewrite E. simpl B2R in Hle. rewrite <- Sa1, <- Sb1 in Hle.
    pose proof (bpow_gt_0 (Z.min ea eb)) as Hp.
    assert (Hz : 0 <= Z.pos ma' - Z.pos mb').
    { apply le_IZR. rewrite minus_IZR. nra. }
    destruct (Z.pos ma' - Z.pos mb') as [|p|p]; try lia.
    + simpl. exists 0, (-149), loc_Exact. split; [|reflexivity].
      unfold ccell; simpl. split; [lra | lia].
    + apply binary_round_rounded.
Qed.

Lemma binary_normalize_ok z e :
  valid (binary_normalize prec emax z e false) = true
  /\ not_nan (binary_normalize prec emax z e false) = true.
Proof.
  destruct z as [|p|p]; simpl binary_normalize.
  - split; reflexivity.
  - destruct (rounded_s_valid _ _ _ (binary_round_rounded false p e)) as [H1 H2].
    split; [exact H1|]. destruct (binary_round prec emax false p e); try reflexivity. congruence.
  - destruct (rounded_s_valid _ _ _ (binary_round_rounded true p e)) as [H1 H2].
    split; [exact H1|]. destruct (binary_round prec emax true p e); try reflexivity. congruence.
Qed.

Lemma fsub_finite_ok a b :
  is_finite a = true -> is_finite b = true -> valid a = true -> valid b = true ->
  valid (SFsub prec emax a b) = true /\ not_nan (SFsub prec emax a b) = true.
Proof.
  intros Fa Fb Va Vb.
  destruct a as [sa|sa| |sa ma ea]; try discriminate;
    destruct b as [sb|sb| |sb mb eb]; try discriminate.
  - destruct sa, sb; split; reflexivity.
  - split; [exact Vb | reflexivity].
  - split; [exact Va | reflexivity].
  - unfold SFsub. apply binary_normalize_ok.
Qed.

Lemma mul_prec_ok ma ea mb eb :
  bounded prec emax ma ea = true -> bounded prec emax mb eb = true ->
  ea + eb <= fexp prec emax (Zdigits2 (Z.pos (ma * mb)) + (ea + eb)).
Proof.
  intros Ha Hb. apply bounded_spec in Ha, Hb. rewrite fexp_eq.
  destruct (Z_le_gt_dec (ea + eb) (-149)); [lia|].
  assert (2 ^ 23 <= Z.pos (ma * mb)).
  { rewrite Pos2Z.inj_mul. destruct Ha as (_ & Ha1 & [Ha2|Ha2]), Hb as (_ & Hb1 & [Hb2|Hb2]); try lia; nia. }
  destruct (Zdigits2_bounds (Z.pos (ma * mb)) ltac:(lia)) as [_ H2].
  assert (23 < Zdigits2 (Z.pos (ma * mb))).
  { destruct (Z_lt_le_dec 23 (Zdigits2 (Z.pos (ma * mb)))); [assumption|].
    assert (2 ^ Zdigits2 (Z.pos (ma * mb)) <= 2 ^ 23)
      by (apply Z.pow_le_mono_r; [lia | assumption]). lia. }
  lia.
Qed.

Lemma fmul_rounded a b :
  fin_nonneg a = true -> fin_nonneg b = true ->
  rounded (B2R a * B2R b) (SFmul prec emax a b).
Proof.
  intros Ha Hb.
  float_cases a ma ea; try discriminate;
    float_cases b mb eb; try discriminate;
    try (simpl SFmul; replace (B2R _ * B2R _)%R with (B2R (S754_zero false)) by (simpl; lra);
         apply fin_nonneg_rounded; reflexivity).
  unfold SFmul. simpl xorb.
  apply binary_round_aux_rounded; [lia | | apply mul_prec_ok; assumption].
  simpl. rewrite Pos2Z.inj_mul, mult_IZR, bpow_add. lra.
Qed.

Lemma fmul_self_nonneg a :
  valid a = true -> not_nan a = true -> nonneg (SFmul prec emax a a) = true.
Proof.
  intros Va Na. destruct a as [s|s| |s m e]; try discriminate.
  - destruct s; reflexivity.
  - destruct s; reflexivity.
  - unfold SFmul. rewrite xorb_nilpotent.
    apply (rounded_nonneg (IZR (Z.pos (m * m)) * bpow (e + e))).
    apply binary_round_aux_rounded; [lia | reflexivity | apply mul_prec_ok; assumption].
Qed.

Lemma IZR_digits_bounds m :
  0 < m -> (bpow (Zdigits2 m - 1) <= IZR m < bpow (Zdigits2 m))%R.
Proof.
  intros Hm. destruct (Zdigits2_bounds m Hm) as [H1 H2].
  assert (0 < Zdigits2 m) by (destruct m; simpl; lia).
  rewrite !bpow_IZR by lia. split; [apply IZR_le | apply IZR_lt]; assumption.
Qed.

(** A slot is fine enough for [binary_round_aux] as soon as its exponent
    is at most the format's exponent at a power of two below the number. *)
Lemma cell_prec_ok x m e l k :
  0 <= m -> cell x m e l -> (bpow (k - 1) <= x)%R -> e <= fexp prec emax k ->
  e <= fexp prec emax (Zdigits2 m + e).
Proof.
  intros Hm Hc Hx He.
  pose proof (cell_bounds _ _ _ _ Hc) as [_ Hb].
  assert (Hd : (IZR m + 1 <= bpow (Zdigits2 m))%R).
  { destruct (Z.eq_dec m 0) as [-> | Hm0]; [change (bpow (Zdigits2 0)) with 1%R; lra|].
    destruct (Zdigits2_bounds m ltac:(lia)) as [_ H2].
    rewrite bpow_IZR by apply Zdigits2_nonneg. rewrite <- plus_IZR. apply IZR_le. lia. }
  pose proof (bpow_gt_0 e).
  assert (bpow (k - 1) < bpow (Zdigits2 m + e))%R by (rewrite bpow_add; nra).
  apply bpow_lt_inv in H0. rewrite fexp_eq in *. lia.
Qed.

Lemma new_location_cell mb r q e :
  0 < mb -> 0 <= r < mb ->
  cell ((IZR q + IZR r / IZR mb) * bpow e) q e (new_location mb r).
Proof.
  intros Hmb Hr. pose proof (bpow_gt_0 e) as Hp.
  assert (Hmb' : (0 < IZR mb)%R) by (apply IZR_lt; lia).
  assert (Hr0 : (0 <= IZR r)%R) by (apply IZR_le; lia).
  assert (Hr1 : (IZR r < IZR mb)%R) by (apply IZR_lt; lia).
  assert (Hy1 : (IZR r / IZR mb < 1)%R).
  { apply Rmult_lt_reg_r with (IZR mb); [assumption|]. field_simplify; lra. }
  assert (Hhalf : forall c, Z.compare (2 * r) mb = c ->
            match c with
            | Lt => (IZR r / IZR mb < / 2)%R
            | Eq => (IZR r / IZR mb = / 2)%R
            | Gt => (/ 2 < IZR r / IZR mb)%R
            end).
  { intros c <-. destruct (Z.compare_spec (2 * r) mb) as [E | E | E].
    - apply (f_equal IZR) in E. rewrite mult_IZR in E. field_simplify_eq; lra.
    - apply IZR_lt in E. rewrite mult_IZR in E.
      apply Rmult_lt_reg_r with (IZR mb); [assumption|]. field_simplify; lra.
    - apply IZR_lt in E. rewrite mult_IZR in E.
      apply Rmult_lt_reg_r with (IZR mb); [assumption|]. field_simplify; lra. }
  assert (Hy0 : r <> 0 -> (0 < IZR r / IZR mb)%R).
  { intros Hr2. apply Rdiv_lt_0_compat; [|assumption]. apply IZR_lt. lia. }
  set (y := (IZR r / IZR mb)%R) in *.
  unfold new_location, new_location_even, new_location_odd.
  destruct (Z.even mb) eqn:Ev; destruct (Z.eqb_spec r 0) as [E0 | Hr2];
    try (subst r; unfold y, Rdiv, cell; rewrite Rmult_0_l; lra);
    specialize (Hy0 Hr2); pose proof (Hhalf _ eq_refl) as Hh.
  - destruct (2 * r ?= mb); unfold cell; try split; try rewrite Hh; nra.
  - assert (2 * r <> mb).
    { intros E. rewrite <- E, Z.even_mul in Ev. discriminate. }
    destruct (Z.compare_spec (2 * r + 1) mb) as [E | E | E];
      destruct (Z.compare_spec (2 * r) mb) as [E' | E' | E']; try lia;
      unfold cell; try split; nra.
Qed.

Lemma fdiv_rounded ma ea mb eb :
  rounded (B2R (S754_finite false ma ea) / B2R (S754_finite false mb eb))
    (SFdiv prec emax (S754_finite false ma ea) (S754_finite false mb eb)).
Proof.
  unfold SFdiv, SFdiv_core_binary. simpl xorb.
  set (D := Zdigits2 (Z.pos ma) + ea - (Zdigits2 (Z.pos mb) + eb)).
  set (e' := Z.min (fexp prec emax D) (ea - eb)).
  set (s := ea - eb - e').
  assert (Hs : 0 <= s) by (unfold s, e'; lia).
  set (m' := match s with Z.pos _ => Z.shiftl (Z.pos ma) s | 0 => Z.pos ma | Z.neg _ => 0 end).
  assert (Hm' : m' = Z.pos ma * 2 ^ s).
  { unfold m'. destruct s as [|p|p]; try lia. rewrite Z.shiftl_mul_pow2 by lia. reflexivity. }
  pose proof (Z_div_mod m' (Z.pos mb) ltac:(lia)) as Hdiv.
  destruct (Z.div_eucl m' (Z.pos mb)) as [q r]. destruct Hdiv as [Hq Hr].
  assert (Hmb : (0 < IZR (Z.pos mb))%R) by (apply IZR_lt; lia).
  assert (Hma : (0 < IZR (Z.pos ma))%R) by (apply IZR_lt; lia).
  pose proof (bpow_gt_0 ea) as Hpa. pose proof (bpow_gt_0 eb) as Hpb.
  pose proof (bpow_gt_0 e') as Hpe. pose proof (bpow_gt_0 s) as Hps.
  assert (Hx : (B2R (S754_finite false ma ea) / B2R (S754_finite false mb eb)
                = (IZR q + IZR r / IZR (Z.pos mb)) * bpow e')%R).
  { simpl B2R.
    assert (E1 : (IZR (Z.pos ma) * bpow s = IZR (Z.pos mb) * IZR q + IZR r)%R).
    { rewrite bpow_IZR by assumption. rewrite <- !mult_IZR, <- plus_IZR. f_equal. lia. }
    replace ea with (s + e' + eb) by (unfold s; lia).
    rewrite !bpow_add.
    replace (IZR q + IZR r / IZR (Z.pos mb))%R
      with ((IZR (Z.pos mb) * IZR q + IZR r) / IZR (Z.pos mb))%R by (field; lra).
    rewrite <- E1. field. split; lra. }
  assert (Hq0 : 0 <= q).
  { assert (0 < 2 ^ s) by (apply Z.pow_pos_nonneg; lia).
    assert (0 < m') by (rewrite Hm'; apply Z.mul_pos_pos; lia).
    destruct (Z_lt_le_dec q 0); [|assumption]. exfalso.
    assert (Z.pos mb * q <= Z.pos mb * (-1)) by (apply Z.mul_le_mono_nonneg_l; lia). lia. }
  assert (Hc : cell (B2R (S754_finite false ma ea) / B2R (S754_finite false mb eb))
                 q e' (new_location (Z.pos mb) r))
    by (rewrite Hx; apply new_location_cell; lia).
  apply binary_round_aux_rounded; [exact Hq0 | exact Hc |].
  apply (cell_prec_ok _ _ _ _ D Hq0 Hc); [|unfold e'; lia].
  simpl B2R.
  destruct (IZR_digits_bounds (Z.pos ma) ltac:(lia)) as [Ha1 _].
  destruct (IZR_digits_bounds (Z.pos mb) ltac:(lia)) as [_ Hb2].
  apply Rmult_le_reg_r with (IZR (Z.pos mb) * bpow eb)%R; [nra|].
  replace (IZR (Z.pos ma) * bpow ea / (IZR (Z.pos mb) * bpow eb) * (IZR (Z.pos mb) * bpow eb))%R
    with (IZR (Z.pos ma) * bpow ea)%R by (field; split; lra).
  apply Rle_trans with (bpow (D - 1) * (bpow (Zdigits2 (Z.pos mb)) * bpow eb))%R.
  - pose proof (bpow_gt_0 (D - 1)).
    apply Rmult_le_compat_l; [lra|]. apply Rmult_le_compat_r; lra.
  - rewrite <- !bpow_add.
    replace (D - 1 + (Zdigits2 (Z.pos mb) + eb)) with (Zdigits2 (Z.pos ma) - 1 + ea) by (unfold D; lia).
    rewrite bpow_add. nra.
Qed.

Lemma sqrtrem_cell m q r e :
  0 <= q -> m = q * q + r -> 0 <= r <= 2 * q ->
  cell (sqrt (IZR m) * bpow e) q e
    (if r =? 0 then loc_Exact else loc_Inexact (if r <=? q then Lt else Gt)).
Proof.
  intros Hq Hm Hr. pose proof (bpow_gt_0 e) as Hp.
  assert (Hm0 : (0 <= IZR m)%R) by (apply IZR_le; nia).
  pose proof (sqrt_pos (IZR m)) as Ht0.
  pose proof (sqrt_sqrt (IZR m) Hm0) as Ht.
  set (t := sqrt (IZR m)) in *.
  assert (Em : (IZR m = IZR q * IZR q + IZR r)%R)
    by (rewrite <- mult_IZR, <- plus_IZR; f_equal; assumption).
  assert (Hq' : (0 <= IZR q)%R) by (apply IZR_le; assumption).
  assert (Hr0 : (0 <= IZR r)%R) by (apply IZR_le; lia).
  assert (Hr2 : (IZR r <= 2 * IZR q)%R) by (rewrite <- mult_IZR; apply IZR_le; lia).
  destruct (Z.eqb_spec r 0) as [E0 | E0].
  - unfold cell. subst r. assert (t = IZR q) by nra. rewrite H. reflexivity.
  - assert (Hr1 : (1 <= IZR r)%R) by (apply IZR_le; lia).
    assert (Hlo : (IZR q < t)%R) by nra.
    assert (Hhi : (t < IZR q + 1)%R) by nra.
    destruct (Z.leb_spec r q) as [E1 | E1]; unfold cell.
    + apply IZR_le in E1. assert (t < IZR q + / 2)%R by nra. split; nra.
    + assert (IZR q + 1 <= IZR r)%R by (rewrite <- plus_IZR; apply IZR_le; lia).
      assert (IZR q + / 2 < t)%R by nra. split; nra.
Qed.

Lemma fsqrt_rounded m e :
  rounded (sqrt (B2R (S754_finite false m e)))
    (SFsqrt prec emax (S754_finite false m e)).
Proof.
  unfold SFsqrt, SFsqrt_core_binary.
  set (k := Z.div2 (Zdigits2 (Z.pos m) + e + 1)).
  set (e' := Z.min (fexp prec emax k) (Z.div2 e)).
  set (s := e - 2 * e').
  assert (Hs : 0 <= s).
  { unfold s, e'. pose proof (Z.div2_div e). pose proof (Z.mul_div_le e 2 ltac:(lia)). lia. }
  set (m' := match s with Z.pos _ => Z.shiftl (Z.pos m) s | 0 => Z.pos m | Z.neg _ => 0 end).
  assert (Hm' : m' = Z.pos m * 2 ^ s).
  { unfold m'. destruct s as [|p|p]; try lia. rewrite Z.shiftl_mul_pow2 by lia. reflexivity. }
  assert (Hm0 : 0 < m') by (rewrite Hm'; apply Z.mul_pos_pos; [lia | apply Z.pow_pos_nonneg; lia]).
  pose proof (Z.sqrtrem_spec m' ltac:(lia)) as Hsq.
  destruct (Z.sqrtrem m') as [q r]. destruct Hsq as [Hq Hr].
  assert (Hq0 : 0 <= q) by lia.
  pose proof (bpow_gt_0 e') as Hpe.
  assert (Hx : (sqrt (B2R (S754_finite false m e)) = sqrt (IZR m') * bpow e')%R).
  { simpl B2R.
    replace (sqrt (IZR m') * bpow e')%R with (sqrt (IZR m') * sqrt (Rsqr (bpow e')))%R
      by (rewrite sqrt_Rsqr by lra; reflexivity).
    rewrite <- sqrt_mult; [|apply IZR_le; lia | apply Rle_0_sqr].
    f_equal. unfold Rsqr. rewrite Hm', mult_IZR, <- bpow_IZR by assumption.
    replace e with (s + (e' + e')) at 1 by (unfold s; lia).
    rewrite !bpow_add. ring. }
  assert (Hc : cell (sqrt (B2R (S754_finite false m e))) q e'
                 (if r =? 0 then loc_Exact else loc_Inexact (if r <=? q then Lt else Gt)))
    by (rewrite Hx; apply sqrtrem_cell; assumption).
  apply binary_round_aux_rounded; [exact Hq0 | exact Hc |].
  apply (cell_prec_ok _ _ _ _ k Hq0 Hc); [|unfold e'; lia].
  simpl B2R.
  destruct (IZR_digits_bounds (Z.pos m) ltac:(lia)) as [Ha1 _].
  pose proof (bpow_gt_0 e) as Hp. pose proof (bpow_gt_0 (k - 1)) as Hpk.
  rewrite <- (sqrt_Rsqr (bpow (k - 1))) by lra.
  apply sqrt_le_1_alt. unfold Rsqr. rewrite <- bpow_add.
  apply Rle_trans with (bpow (Zdigits2 (Z.pos m) - 1 + e)).
  - apply bpow_le. unfold k.
    pose proof (Z.div2_div (Zdigits2 (Z.pos m) + e + 1)).
    pose proof (Z.mul_div_le (Zdigits2 (Z.pos m) + e + 1) 2 ltac:(lia)). lia.
  - rewrite bpow_add. nra.
Qed.

(** ** Comparisons *)

Lemma SFcompare_antisym a b :
  SFcompare b a = option_map CompOpp (SFcompare a b).
Proof.
  float_cases a ma ea; float_cases b mb eb; try reflexivity; simpl;
    rewrite (Z.compare_antisym ea eb); destruct (ea ?= eb); simpl; try reflexivity;
    change (Pos.compare_cont Eq mb ma) with (Pos.compare mb ma);
    change (Pos.compare_cont Eq ma mb) with (Pos.compare ma mb);
    rewrite (Pos.compare_antisym ma mb); destruct (ma ?= mb)%positive; reflexivity.
Qed.

Lemma flt_not_fle a b : flt a b = true -> fle b a = false.
Proof.
  unfold flt, fle, SFltb, SFleb. rewrite (SFcompare_antisym a b).
  destruct (SFcompare a b) as [[]|]; simpl; congruence.
Qed.

Lemma fle_not_flt a b : fle a b = true -> flt b a = false.
Proof.
  unfold flt, fle, SFltb, SFleb. rewrite (SFcompare_antisym a b).
  destruct (SFcompare a b) as [[]|]; simpl; congruence.
Qed.

Lemma flt_asym a b : flt a b = true -> flt b a = false.
Proof.
  unfold flt, SFltb. rewrite (SFcompare_antisym a b).
  destruct (SFcompare a b) as [[]|]; simpl; congruence.
Qed.

Lemma flt_fle a b : flt a b = true -> fle a b = true.
Proof. unfold flt, fle, SFltb, SFleb. destruct (SFcompare a b) as [[]|]; congruence. Qed.

Lemma feq_not_flt a b : feq a b = true -> flt b a = false /\ flt a b = false.
Proof.
  unfold flt, feq, SFltb, SFeqb. rewrite (SFcompare_antisym a b).
  destruct (SFcompare a b) as [[]|]; simpl; split; congruence.
Qed.

Lemma SFcompare_not_nan a b :
  not_nan a = true -> not_nan b = true -> SFcompare a b <> None.
Proof.
  float_cases a ma ea; float_cases b mb eb; simpl; congruence.
Qed.

Lemma flt_negb_fle a b :
  not_nan a = true -> not_nan b = true -> flt a b = negb (fle b a).
Proof.
  intros Ha Hb. pose proof (SFcompare_not_nan a b Ha Hb) as H.
  unfold flt, fle, SFltb, SFleb. rewrite (SFcompare_antisym a b).
  destruct (SFcompare a b) as [[]|]; simpl; congruence.
Qed.

Lemma nonneg_not_nan a : nonneg a = true -> not_nan a = true.
Proof. float_cases a m e; simpl; congruence. Qed.

Lemma nonneg_valid a : nonneg a = true -> valid a = true.
Proof. float_cases a m e; simpl; congruence. Qed.

Lemma fin_nonneg_nonneg a : fin_nonneg a = true -> nonneg a = true.
Proof. float_cases a m e; simpl; congruence. Qed.

#[local] Hint Resolve nonneg_not_nan nonneg_valid fin_nonneg_nonneg : b32.

Lemma nonneg_cases a :
  nonneg a = true -> a = S754_infinity false \/ fin_nonneg a = true.
Proof. float_cases a m e; simpl; auto; congruence. Qed.

Lemma fle_inf a : not_nan a = true -> fle a (S754_infinity false) = true.
Proof. float_cases a m e; intros H; try reflexivity; discriminate. Qed.

Lemma fle_inf_l a : fle (S754_infinity false) a = true -> a = S754_infinity false.
Proof. float_cases a m e; intros H; try reflexivity; discriminate. Qed.

Lemma flt_B2R a b :
  fin_nonneg a = true -> fin_nonneg b = true ->
  (flt a b = true <-> (B2R a < B2R b)%R).
Proof.
  intros Ha Hb.
  rewrite (flt_negb_fle a b) by auto with b32.
  rewrite negb_true_iff. pose proof (fle_B2R b a Hb Ha) as H.
  destruct (fle b a); split; intros H1; try congruence.
  - exfalso. apply (Rlt_not_le _ _ H1). apply H. reflexivity.
  - apply Rnot_le_lt. intros H2. apply H in H2. discriminate.
Qed.

(** ** Operations on non-negative numbers *)

Lemma fadd_nonneg a b :
  nonneg a = true -> nonneg b = true -> nonneg (a + b)%b32 = true.
Proof.
  intros Ha Hb. destruct (nonneg_cases a Ha) as [-> | Fa].
  - float_cases b m e; try discriminate; reflexivity.
  - destruct (nonneg_cases b Hb) as [-> | Fb].
    + float_cases a m e; try discriminate; reflexivity.
    + eapply rounded_nonneg. apply fadd_rounded; assumption.
Qed.

Lemma fsqrt_nonneg a : nonneg a = true -> nonneg (fsqrt a) = true.
Proof.
  float_cases a m e; try discriminate; try reflexivity. intros _.
  eapply rounded_nonneg. apply fsqrt_rounded.
Qed.

(** Adding a non-negative number never decreases a float. *)
Lemma fle_add_r a b :
  nonneg a = true -> nonneg b = true -> fle a (a + b)%b32 = true.
Proof.
  intros Ha Hb. destruct (nonneg_cases a Ha) as [-> | Fa].
  - float_cases b m e; try discriminate; reflexivity.
  - destruct (nonneg_cases b Hb) as [-> | Fb].
    + float_cases a m e; try discriminate; reflexivity.
    + eapply rounded_mono; [apply fin_nonneg_rounded; exact Fa | apply fadd_rounded; assumption |].
      pose proof (fin_nonneg_B2R_ge_0 b Fb). lra.
Qed.

Lemma fmul_nonneg a b :
  fin_nonneg a = true -> fin_nonneg b = true -> nonneg (a * b)%b32 = true.
Proof. intros Ha Hb. eapply rounded_nonneg. apply fmul_rounded; assumption. Qed.

(** ** Distances *)

Lemma fsub_coord a b :
  finite_coord a = true -> finite_coord b = true ->
  valid (a - b)%b32 = true /\ not_nan (a - b)%b32 = true.
Proof.
  unfold finite_coord. rewrite !andb_true_iff. intros [Fa Va] [Fb Vb].
  apply fsub_finite_ok; assumption.
Qed.

Lemma Vector3Distance_nonneg v1 v2 :
  finite_vec v1 = true -> finite_vec v2 = true ->
  nonneg (Vector3Distance v1 v2) = true.
Proof.
  unfold finite_vec. rewrite !andb_true_iff. intros [[X1 Y1] Z1] [[X2 Y2] Z2].
  unfold Vector3Distance.
  destruct (fsub_coord _ _ X2 X1) as [Vx Nx].
  destruct (fsub_coord _ _ Y2 Y1) as [Vy Ny].
  destruct (fsub_coord _ _ Z2 Z1) as [Vz Nz].
  apply fsqrt_nonneg. repeat apply fadd_nonneg; apply fmul_self_nonneg; assumption.
Qed.

(** ** Time dilation as a function of the distance *)

Lemma fin_pos_inv f :
  fin_pos f = true ->
  exists m e, f = S754_finite false m e /\ bounded prec emax m e = true.
Proof.
  unfold fin_pos. rewrite andb_true_iff. intros [H1 H2].
  float_cases f m e; try discriminate. eauto.
Qed.

Lemma fin_pos_B2R f : fin_pos f = true -> (0 < B2R f)%R.
Proof.
  intros H. destruct (fin_pos_inv f H) as (m & e & -> & _). simpl.
  pose proof (bpow_gt_0 e). assert (0 < IZR (Z.pos m))%R by (apply IZR_lt; lia). nra.
Qed.

Lemma fin_pos_fin_nonneg f : fin_pos f = true -> fin_nonneg f = true.
Proof. unfold fin_pos. rewrite andb_true_iff. tauto. Qed.

#[local] Hint Resolve fin_pos_fin_nonneg : b32.

Lemma B2R_one : B2R one = 1%R.
Proof. unfold one. simpl. unfold bpow. simpl. lra. Qed.

Lemma bpow_m24 : bpow (-24) = (/ 16777216)%R.
Proof. unfold bpow. simpl. lra. Qed.

(** Two distinct canonical floats are at least one unit in the last place
    of the larger one apart. *)
Lemma float_gap a b :
  fin_pos a = true -> fin_pos b = true -> (B2R a < B2R b)%R ->
  (B2R a <= B2R b * (1 - bpow (-24)))%R.
Proof.
  intros Ha Hb Hlt.
  assert (Hf : flt a b = true) by (apply flt_B2R; auto with b32).
  apply flt_not_fle in Hf.
  destruct (fin_pos_inv a Ha) as (ma & ea & -> & Va).
  destruct (fin_pos_inv b Hb) as (mb & eb & -> & Vb).
  assert (Hord : ea < eb \/ (ea = eb /\ Z.pos ma < Z.pos mb)).
  { destruct (Z.lt_trichotomy ea eb) as [H | [H | H]]; [left; assumption | right | exfalso].
    - split; [assumption|]. destruct (Z_lt_le_dec (Z.pos ma) (Z.pos mb)); [assumption|].
      exfalso. assert (fle (S754_finite false mb eb) (S754_finite false ma ea) = true)
        by (apply fle_finite_pos; right; split; [lia | lia]). congruence.
    - assert (fle (S754_finite false mb eb) (S754_finite false ma ea) = true)
        by (apply fle_finite_pos; left; lia). congruence. }
  apply bounded_spec in Va, Vb. simpl B2R. rewrite bpow_m24.
  pose proof (bpow_gt_0 ea) as Hpa. pose proof (bpow_gt_0 eb) as Hpb.
  assert (Ma : (IZR (Z.pos ma) <= 16777215)%R) by (apply IZR_le; lia).
  assert (Mb : (IZR (Z.pos mb) <= 16777215)%R) by (apply IZR_le; lia).
  assert (Ma0 : (1 <= IZR (Z.pos ma))%R) by (apply IZR_le; lia).
  destruct Hord as [H | [-> H]].
  - assert (Hb2 : (8388608 <= IZR (Z.pos mb))%R) by (apply IZR_le; lia).
    assert (He : (2 * bpow ea <= bpow eb)%R)
      by (rewrite <- bpow_succ; apply bpow_le; lia).
    apply Rle_trans with (16777215 * bpow ea)%R; [nra|].
    apply Rle_trans with (8388608 * bpow eb * (1 - / 16777216))%R; [nra|].
    apply Rmult_le_compat_r; [lra | nra].
  - assert (IZR (Z.pos ma) + 1 <= IZR (Z.pos mb))%R
      by (rewrite <- plus_IZR; apply IZR_le; lia).
    assert (IZR (Z.pos ma) <= IZR (Z.pos mb) * (1 - / 16777216))%R by lra.
    replace (IZR (Z.pos mb) * bpow eb * (1 - / 16777216))%R
      with (IZR (Z.pos mb) * (1 - / 16777216) * bpow eb)%R by ring.
    apply Rmult_le_compat_r; lra.
Qed.

Lemma rounded_le_fin x f g :
  rounded x f -> fin_nonneg g = true -> (x <= B2R g)%R ->
  fin_nonneg f = true /\ (B2R f <= B2R g)%R.
Proof.
  intros Hr Hg Hx.
  pose proof (rounded_mono x (B2R g) f g Hr (fin_nonneg_rounded g Hg) Hx) as Hle.
  assert (Hf : fin_nonneg f = true).
  { destruct (nonneg_cases f (rounded_nonneg x f Hr)) as [-> | H]; [|exact H].
    float_cases g m e; discriminate. }
  split; [exact Hf | apply fle_B2R; assumption].
Qed.

Lemma rounded_ge_fin x f g :
  rounded x f -> fin_nonneg f = true -> fin_nonneg g = true -> (B2R g <= x)%R ->
  (B2R g <= B2R f)%R.
Proof.
  intros Hr Hf Hg Hx. apply fle_B2R; try assumption.
  exact (rounded_mono (B2R g) x g f (fin_nonneg_rounded g Hg) Hr Hx).
Qed.

Lemma fin_nonneg_pos_inv f :
  fin_nonneg f = true -> (0 < B2R f)%R ->
  exists m e, f = S754_finite false m e.
Proof.
  float_cases f m e; try discriminate; simpl; intros _ H; [lra | eauto].
Qed.

(** Outside the horizon: the quotient is below 1, the factor lies in
    [2^-24, 1], and each step is the rounding of the exact operation. *)
Lemma dilation_far rs d :
  fin_pos rs = true -> fin_nonneg d = true -> (B2R rs < B2R d)%R ->
  let q := (rs / d)%b32 in
  let factor := (one - q)%b32 in
  fin_nonneg q = true /\ rounded (B2R rs / B2R d) q
  /\ fin_nonneg factor = true /\ rounded (1 - B2R q) factor
  /\ (bpow (-24) <= B2R factor <= 1)%R
  /\ dilation_at rs d = fsqrt factor
  /\ rounded (sqrt (B2R factor)) (fsqrt factor).
Proof.
  intros Hrs Hd Hlt q factor.
  pose proof (fin_pos_B2R rs Hrs) as Hrs0.
  assert (Hdp : fin_pos d = true).
  { unfold fin_pos. rewrite Hd. simpl. apply flt_B2R; [reflexivity | assumption |]. simpl; lra. }
  pose proof (float_gap rs d Hrs Hdp Hlt) as Hgap. rewrite bpow_m24 in *.
  assert (Hq : rounded (B2R rs / B2R d) q).
  { destruct (fin_pos_inv rs Hrs) as (mr & er & -> & _).
    destruct (fin_pos_inv d Hdp) as (md & ed & -> & _). apply fdiv_rounded. }
  assert (Hx : (0 <= B2R rs / B2R d <= 1 - / 16777216)%R).
  { split.
    - apply Rlt_le, Rdiv_lt_0_compat; lra.
    - apply Rmult_le_reg_r with (B2R d); [lra|]. unfold Rdiv.
      rewrite Rmult_assoc, Rinv_l by lra. lra. }
  set (pred_one := S754_finite false 16777215 (-24)).
  assert (Hp1 : B2R pred_one = (1 - / 16777216)%R).
  { unfold pred_one, B2R. rewrite bpow_m24. lra. }
  destruct (rounded_le_fin _ q pred_one Hq eq_refl) as [Fq Bq]; [rewrite Hp1; lra|].
  rewrite Hp1 in Bq.
  pose proof (fin_nonneg_B2R_ge_0 q Fq) as Bq0.
  assert (Hf : rounded (1 - B2R q) factor).
  { rewrite <- B2R_one. apply fsub_rounded; [reflexivity | assumption | rewrite B2R_one; lra]. }
  destruct (rounded_le_fin _ factor one Hf eq_refl) as [Ff Bf]; [rewrite B2R_one; lra|].
  rewrite B2R_one in Bf.
  set (ulp_one := S754_finite false 8388608 (-47)).
  assert (Hu : B2R ulp_one = (/ 16777216)%R).
  { unfold ulp_one. simpl. unfold bpow. simpl. lra. }
  pose proof (rounded_ge_fin _ factor ulp_one Hf Ff eq_refl) as Bf0.
  rewrite Hu in Bf0. specialize (Bf0 ltac:(lra)).
  repeat split; try assumption.
  - unfold dilation_at. fold q. fold factor.
    assert (E1 : fle d rs = false).
    { apply flt_not_fle. apply flt_B2R; auto with b32. }
    assert (E2 : fle factor zero = false).
    { apply flt_not_fle. apply flt_B2R; [reflexivity | assumption |]. simpl; lra. }
    rewrite E1, E2. reflexivity.
  - destruct (fin_nonneg_pos_inv factor Ff ltac:(lra)) as (m & e & ->). apply fsqrt_rounded.
Qed.

Lemma dilation_at_inf rs :
  fin_pos rs = true -> dilation_at rs (S754_infinity false) = one.
Proof.
  intros H. destruct (fin_pos_inv rs H) as (m & e & -> & _). reflexivity.
Qed.

Lemma dilation_range_fin rs d :
  fin_pos rs = true -> fin_nonneg d = true -> flt rs d = true ->
  fin_nonneg (dilation_at rs d) = true
  /\ (bpow (-12) <= B2R (dilation_at rs d) <= 1)%R.
Proof.
  intros Hrs Hd Hlt.
  apply flt_B2R in Hlt; auto with b32.
  destruct (dilation_far rs d Hrs Hd Hlt) as (_ & _ & Ff & _ & [Bf0 Bf1] & -> & Ht).
  set (factor := (one - rs / d)%b32) in *.
  assert (S1 : (sqrt (B2R factor) <= 1)%R)
    by (rewrite <- sqrt_1; apply sqrt_le_1_alt; assumption).
  assert (E12 : bpow (-12) = (/ 4096)%R) by (unfold bpow; simpl; lra).
  assert (S0 : (bpow (-12) <= sqrt (B2R factor))%R).
  { rewrite <- (sqrt_Rsqr (bpow (-12))) by (apply Rlt_le, bpow_gt_0).
    apply sqrt_le_1_alt. unfold Rsqr. rewrite <- bpow_add. exact Bf0. }
  destruct (rounded_le_fin _ _ one Ht eq_refl) as [Ft Bt]; [rewrite B2R_one; exact S1|].
  rewrite B2R_one in Bt. split; [exact Ft | split; [|exact Bt]].
  set (sqrt_ulp := S754_finite false 8388608 (-35)).
  assert (Hu : B2R sqrt_ulp = bpow (-12)).
  { rewrite E12. unfold sqrt_ulp, B2R, bpow. simpl. lra. }
  rewrite <- Hu. apply (rounded_ge_fin _ _ sqrt_ulp Ht Ft eq_refl). rewrite Hu. exact S0.
Qed.

Lemma dilation_range rs d :
  fin_pos rs = true -> nonneg d = true -> flt rs d = true ->
  fin_nonneg (dilation_at rs d) = true
  /\ flt zero (dilation_at rs d) = true
  /\ fle (dilation_at rs d) one = true.
Proof.
  intros Hrs Hd Hlt. destruct (nonneg_cases d Hd) as [-> | Fd].
  - rewrite dilation_at_inf by assumption. repeat split; reflexivity.
  - destruct (dilation_range_fin rs d Hrs Fd Hlt) as [Ft [B0 B1]].
    split; [exact Ft | split].
    + apply flt_B2R; [reflexivity | exact Ft |]. pose proof (bpow_gt_0 (-12)). simpl B2R at 1. lra.
    + apply fle_B2R; [exact Ft | reflexivity | rewrite B2R_one; exact B1].
Qed.

Lemma dilation_mono rs d1 d2 :
  fin_pos rs = true -> nonneg d1 = true -> nonneg d2 = true ->
  flt rs d1 = true -> fle d1 d2 = true ->
  fle (dilation_at rs d1) (dilation_at rs d2) = true.
Proof.
  intros Hrs H1 H2 Hlt Hle.
  destruct (nonneg_cases d2 H2) as [-> | F2].
  - rewrite (dilation_at_inf rs Hrs). apply (dilation_range rs d1); assumption.
  - destruct (nonneg_cases d1 H1) as [-> | F1].
    { apply fle_inf_l in Hle. subst d2. discriminate. }
    pose proof (fin_pos_B2R rs Hrs) as Hrs0.
    assert (L1 : (B2R rs < B2R d1)%R) by (apply flt_B2R; auto with b32).
    assert (L12 : (B2R d1 <= B2R d2)%R) by (apply fle_B2R; assumption).
    assert (L2 : (B2R rs < B2R d2)%R) by lra.
    destruct (dilation_far rs d1 Hrs F1 L1) as (Fq1 & Rq1 & Ff1 & Rf1 & [Bl1 Bh1] & -> & Rt1).
    destruct (dilation_far rs d2 Hrs F2 L2) as (Fq2 & Rq2 & Ff2 & Rf2 & [Bl2 Bh2] & -> & Rt2).
    assert (Q : (B2R (rs / d2)%b32 <= B2R (rs / d1)%b32)%R).
    { apply fle_B2R; try assumption.
      apply (rounded_mono _ _ _ _ Rq2 Rq1).
      unfold Rdiv. apply Rmult_le_compat_l; [lra|].
      apply Rinv_le_contravar; lra. }
    assert (F : (B2R (one - rs / d1)%b32 <= B2R (one - rs / d2)%b32)%R).
    { apply fle_B2R; try assumption.
      apply (rounded_mono _ _ _ _ Rf1 Rf2). lra. }
    apply (rounded_mono _ _ _ _ Rt1 Rt2). apply sqrt_le_1_alt. exact F.
Qed.

Lemma dilation_fin_nonneg rs d :
  fin_pos rs = true -> nonneg d = true -> fin_nonneg (dilation_at rs d) = true.
Proof.
  intros Hrs Hd. destruct (fle d rs) eqn:E.
  - unfold dilation_at. rewrite E. reflexivity.
  - apply (dilation_range rs d Hrs Hd).
    rewrite flt_negb_fle, E; [reflexivity | auto with b32 ..].
Qed.

Lemma CalculateTimeDilation_at position bh :
  CalculateTimeDilation position bh
  = dilation_at (schwarzschildRadius bh) (Vector3Distance position (bh_position bh)).
Proof. reflexivity. Qed.

(** ** The clock *)

Lemma UpdateSimulation_time dt sim :
  time (UpdateSimulation dt sim)
  = if showTimeEffects sim
    then (time sim
          + dt * CalculateTimeDilation (cam_position (camera sim)) (blackHole sim))%b32
    else (time sim + dt)%b32.
Proof. unfold UpdateSimulation. destruct (showTimeEffects sim); reflexivity. Qed.

Lemma UpdateSimulation_frame dt sim :
  camera (UpdateSimulation dt sim) = camera sim
  /\ blackHole (UpdateSimulation dt sim) = blackHole sim
  /\ disk (UpdateSimulation dt sim) = disk sim
  /\ stars (UpdateSimulation dt sim) = stars sim
  /\ showLensing (UpdateSimulation dt sim) = showLensing sim
  /\ showDisk (UpdateSimulation dt sim) = showDisk sim
  /\ showTimeEffects (UpdateSimulation dt sim) = showTimeEffects sim.
Proof.
  unfold UpdateSimulation.
  destruct (showTimeEffects sim) eqn:E; repeat split; try reflexivity; exact E.
Qed.

(** One frame never decreases the clock and keeps the state well formed. *)
Lemma UpdateSimulation_step dt sim :
  wf_state sim = true -> fin_pos dt = true ->
  fle (time sim) (time (UpdateSimulation dt sim)) = true
  /\ wf_state (UpdateSimulation dt sim) = true.
Proof.
  intros Hwf Hdt. pose proof Hwf as Hwf'.
  unfold wf_state in Hwf. rewrite !andb_true_iff in Hwf.
  destruct Hwf as [[[Hc Hb] Hrs] Ht].
  destruct (UpdateSimulation_frame dt sim) as (Ec & Eb & _).
  assert (Hinc : nonneg (if showTimeEffects sim
                         then (dt * CalculateTimeDilation (cam_position (camera sim)) (blackHole sim))%b32
                         else dt) = true).
  { destruct (showTimeEffects sim).
    - apply fmul_nonneg; [auto with b32|].
      rewrite CalculateTimeDilation_at. apply dilation_fin_nonneg; [assumption|].
      apply Vector3Distance_nonneg; assumption.
    - auto with b32. }
  split.
  - rewrite UpdateSimulation_time. destruct (showTimeEffects sim); apply fle_add_r; assumption.
  - unfold wf_state. rewrite Ec, Eb, Hc, Hb, Hrs. simpl.
    rewrite UpdateSimulation_time. destruct (showTimeEffects sim); apply fadd_nonneg; assumption.
Qed.

Lemma time_trace_nondecreasing dts : forall sim,
  wf_state sim = true -> forallb fin_pos dts = true ->
  nondecreasing (time_trace dts sim) = true.
Proof.
  induction dts as [|dt rest IH]; intros sim Hwf Hd; [reflexivity|].
  simpl in Hd. apply andb_true_iff in Hd. destruct Hd as [Hdt Hrest].
  destruct (UpdateSimulation_step dt sim Hwf Hdt) as [Hle Hwf'].
  specialize (IH _ Hwf' Hrest).
  simpl time_trace. destruct rest as [|dt' rest']; simpl in *; rewrite Hle; simpl; exact IH.
Qed.

Lemma run_frames_effects_off dts : forall sim,
  showTimeEffects sim = false ->
  time (run_frames dts sim) = fold_left fadd dts (time sim)
  /\ timeDilation (run_frames dts sim) = timeDilation sim.
Proof.
  induction dts as [|dt rest IH]; intros sim Hoff; [split; reflexivity|].
  simpl. destruct (UpdateSimulation_frame dt sim) as (_ & _ & _ & _ & _ & _ & E).
  destruct (IH (UpdateSimulation dt sim) ltac:(congruence)) as [IH1 IH2].
  rewrite IH1, IH2, UpdateSimulation_time, Hoff.
  split; [reflexivity|]. unfold UpdateSimulation. rewrite Hoff. reflexivity.
Qed.

Lemma fle_B2R_refl a : nonneg a = true -> fle a a = true.
Proof.
  intros H. destruct (nonneg_cases a H) as [-> | F]; [reflexivity|].
  apply fle_B2R; try assumption. lra.
Qed.

Lemma fle_nonneg_trans a b c :
  nonneg a = true -> nonneg b = true -> nonneg c = true ->
  fle a b = true -> fle b c = true -> fle a c = true.
Proof.
  intros Ha Hb Hc Hab Hbc.
  destruct (nonneg_cases c Hc) as [-> | Fc].
  { apply fle_inf; auto with b32. }
  destruct (nonneg_cases b Hb) as [-> | Fb].
  { apply fle_inf_l in Hbc. subst c. discriminate. }
  destruct (nonneg_cases a Ha) as [-> | Fa].
  { apply fle_inf_l in Hab. subst b. discriminate. }
  apply fle_B2R; try assumption.
  apply fle_B2R in Hab, Hbc; try assumption. lra.
Qed.

Lemma run_frames_wf dts : forall sim,
  wf_state sim = true -> forallb fin_pos dts = true ->
  nonneg (time (run_frames dts sim)) = true.
Proof.
  induction dts as [|dt rest IH]; intros sim Hwf Hd.
  - simpl. unfold wf_state in Hwf. rewrite !andb_true_iff in Hwf. tauto.
  - simpl in Hd. apply andb_true_iff in Hd. destruct Hd as [Hdt Hrest].
    destruct (UpdateSimulation_step dt sim Hwf Hdt) as [_ Hwf'].
    simpl. apply IH; assumption.
Qed.

(** ** How far a rounded value is from the exact one *)

Lemma B2R_pack m e :
  0 <= m <= 2 ^ 24 -> fin_nonneg (pack false m e) = true ->
  B2R (pack false m e) = (IZR m * bpow e)%R.
Proof.
  intros Hm. unfold pack. destruct m as [|p|p]; try lia.
  - intros _. simpl. lra.
  - destruct (Z.eqb_spec (Z.pos p) (2 ^ 24)) as [E | E].
    + destruct (e + 1 <=? 104); [|discriminate]. intros _.
      rewrite E. unfold B2R. rewrite bpow_succ.
      change (IZR (Z.pos (2 ^ 23))) with 8388608%R. change (IZR (2 ^ 24)) with 16777216%R. lra.
    + destruct (e <=? 104); [|discriminate]. reflexivity.
Qed.

Lemma rounded_zero_small x : rounded x (S754_zero false) -> (x < bpow (-149))%R.
Proof.
  intros (m & e & l & (Hc & Hm & He & Hn) & Hz).
  pose proof (round_nearest_even_bounds m l) as Hr.
  assert (E0 : round_nearest_even m l = 0).
  { unfold pack in Hz. destruct (round_nearest_even m l) as [|p|p]; try reflexivity; try discriminate.
    destruct (Z.pos p =? 2 ^ 24); [destruct (e + 1 <=? 104) | destruct (e <=? 104)]; discriminate. }
  assert (m = 0) by lia. subst m.
  assert (e = -149) by (destruct Hn as [-> | H]; [reflexivity | lia]). subst e.
  pose proof (cell_bounds _ _ _ _ Hc) as [_ H]. simpl IZR in H. lra.
Qed.










(** * The claims *)

(** ** Time dilation *)

(** C1. For every observer position and black hole, [CalculateTimeDilation]
    takes the Euclidean distance [d] between them, returns exactly 0 when
    [d <= rs], and otherwise computes [factor = 1 - rs / d], returning 0 when
    [factor <= 0] and [sqrt factor] in the remaining case. *)
Theorem CalculateTimeDilation_cases (position : Vector3) (bh : BlackHole) :
  let c := bh_position bh in
  let dx := (x3 c - x3 position)%b32 in
  let dy := (y3 c - y3 position)%b32 in
  let dz := (z3 c - z3 position)%b32 in
  let d := Vector3Distance position c in
  let rs := schwarzschildRadius bh in
  let factor := (one - rs / d)%b32 in
  d = fsqrt (dx * dx + dy * dy + dz * dz)%b32
  /\ ((d <=? rs)%b32 = true -> CalculateTimeDilation position bh = zero)
  /\ ((d <=? rs)%b32 = false -> (factor <=? zero)%b32 = true ->
      CalculateTimeDilation position bh = zero)
  /\ ((d <=? rs)%b32 = false -> (factor <=? zero)%b32 = false ->
      CalculateTimeDilation position bh = fsqrt factor).
Proof.
  intros c dx dy dz d rs factor. unfold CalculateTimeDilation.
  fold c. fold d. fold rs. fold factor.
  split; [reflexivity|].
  split; [intros ->; reflexivity|].
  split; intros -> ->; reflexivity.
Qed.

Lemma CalculateTimeDilation_cases_witness :
  CalculateTimeDilation (mkVector3 zero zero zero) bh0 = zero
  /\ CalculateTimeDilation (mkVector3 zero (of_Z 5) (of_Z 30)) bh0
     = S754_finite false 16216205 (-24).
Proof.
  split.
  - destruct (CalculateTimeDilation_cases (mkVector3 zero zero zero) bh0)
      as (_ & inside & _).
    apply inside. reflexivity.
  - destruct (CalculateTimeDilation_cases (mkVector3 zero (of_Z 5) (of_Z 30)) bh0)
      as (_ & _ & _ & outside).
    rewrite outside; reflexivity.
Defined.

(** C2, as stated, fails: with the initial radius 2 the distances 2^27 and
    2^28 are both outside the horizon and distinct, yet both are mapped to
    exactly 1, so the function is not strictly increasing. *)
Lemma dilation_not_strictly_increasing :
  let p1 := mkVector3 (of_Z (2 ^ 27)) zero zero in
  let p2 := mkVector3 (of_Z (2 ^ 28)) zero zero in
  let d1 := Vector3Distance p1 (bh_position bh0) in
  let d2 := Vector3Distance p2 (bh_position bh0) in
  (schwarzschildRadius bh0 <? d1)%b32 = true
  /\ (d1 <? d2)%b32 = true
  /\ CalculateTimeDilation p1 bh0 = one
  /\ CalculateTimeDilation p2 bh0 = one
  /\ (CalculateTimeDilation p1 bh0 <? CalculateTimeDilation p2 bh0)%b32 = false.
Proof. vm_compute. repeat split; reflexivity. Qed.

(** C2, amended.  For finite coordinates and a finite radius [rs > 0], at
    every distance [d > rs] the result lies in (0,1] and is non-decreasing in
    [d]; at [d = 4] with [rs = 2] it is the single-precision square root of
    0.5. *)
Theorem CalculateTimeDilation_outside_horizon (bh : BlackHole) (p1 p2 : Vector3) :
  finite_vec (bh_position bh) = true ->
  fin_pos (schwarzschildRadius bh) = true ->
  finite_vec p1 = true -> finite_vec p2 = true ->
  let d1 := Vector3Distance p1 (bh_position bh) in
  let d2 := Vector3Distance p2 (bh_position bh) in
  (schwarzschildRadius bh <? d1)%b32 = true ->
  (d1 <=? d2)%b32 = true ->
  (zero <? CalculateTimeDilation p1 bh)%b32 = true
  /\ (CalculateTimeDilation p1 bh <=? one)%b32 = true
  /\ (CalculateTimeDilation p1 bh <=? CalculateTimeDilation p2 bh)%b32 = true
  /\ (schwarzschildRadius bh = of_Z 2 -> d1 = of_Z 4 ->
      CalculateTimeDilation p1 bh = fsqrt (dec 5 10)).
Proof.
  intros Hc Hrs Hp1 Hp2 d1 d2 Hlt Hle.
  pose proof (Vector3Distance_nonneg p1 _ Hp1 Hc) as N1.
  pose proof (Vector3Distance_nonneg p2 _ Hp2 Hc) as N2.
  rewrite !CalculateTimeDilation_at. fold d1 d2 in N1, N2 |- *.
  destruct (dilation_range _ d1 Hrs N1 Hlt) as (_ & H0 & H1).
  repeat split; try assumption.
  - apply dilation_mono; assumption.
  - intros -> ->. reflexivity.
Qed.

Lemma CalculateTimeDilation_outside_horizon_witness :
  let p1 := mkVector3 (of_Z 4) zero zero in
  let p2 := mkVector3 zero (of_Z 5) (of_Z 30) in
  (zero <? CalculateTimeDilation p1 bh0)%b32 = true
  /\ (CalculateTimeDilation p1 bh0 <=? one)%b32 = true
  /\ (CalculateTimeDilation p1 bh0 <=? CalculateTimeDilation p2 bh0)%b32 = true
  /\ (schwarzschildRadius bh0 = of_Z 2 ->
      Vector3Distance p1 (bh_position bh0) = of_Z 4 ->
      CalculateTimeDilation p1 bh0 = fsqrt (dec 5 10)).
Proof.
  intros p1 p2.
  apply (CalculateTimeDilation_outside_horizon bh0 p1 p2); reflexivity.
Defined.

(** ** The disk fragment shader: which fragments survive *)

(** C3, as stated, fails on the bounds: with the initial radii 6 and 20, the
    world points at planar radius exactly 6 and exactly 20 are kept. *)
Lemma disk_fragment_on_bound_kept :
  let w_in := mkVector3 (of_Z 6) zero zero in
  let w_out := mkVector3 zero zero (of_Z 20) in
  disk_r u0 w_in = u_innerRadius u0
  /\ disk_discard u0 w_in = false
  /\ disk_main sqrt_builtins u0 w_in <> None
  /\ disk_r u0 w_out = u_outerRadius u0
  /\ disk_discard u0 w_out = false
  /\ disk_main sqrt_builtins u0 w_out <> None.
Proof. vm_compute. repeat split; try reflexivity; discriminate. Qed.

(** C3, amended.  A fragment is discarded exactly when its planar radius is
    strictly below [innerRadius] or strictly above [outerRadius]: every
    radius strictly between the two bounds is kept, every radius strictly
    outside is discarded, and a radius exactly on a bound is kept. *)
Theorem disk_main_discard (B : Builtins) (u : DiskUniforms) (worldPos : Vector3) :
  let pos := mkVector2 (x3 worldPos - x3 (u_blackHolePos u))%b32
                       (z3 worldPos - z3 (u_blackHolePos u))%b32 in
  let r := disk_r u worldPos in
  r = length2 pos
  /\ (disk_main B u worldPos = None
      <-> (r <? u_innerRadius u)%b32 = true \/ (r >? u_outerRadius u)%b32 = true)
  /\ ((u_innerRadius u <? r)%b32 = true -> (r <? u_outerRadius u)%b32 = true ->
      disk_main B u worldPos <> None)
  /\ ((u_innerRadius u <=? r)%b32 = true -> (r <=? u_outerRadius u)%b32 = true ->
      disk_main B u worldPos <> None).
Proof.
  intros pos r.
  assert (Hmain : disk_main B u worldPos = None <-> disk_discard u worldPos = true).
  { unfold disk_main. destruct (disk_discard u worldPos); split; congruence. }
  assert (Hd : disk_discard u worldPos
               = (r <? u_innerRadius u)%b32 || (r >? u_outerRadius u)%b32) by reflexivity.
  split; [reflexivity|]. split; [|split].
  - rewrite Hmain, Hd, orb_true_iff. reflexivity.
  - intros H1 H2. rewrite Hmain, Hd.
    change (r >? u_outerRadius u)%b32 with (u_outerRadius u <? r)%b32.
    rewrite (flt_asym _ _ H1), (flt_asym _ _ H2). discriminate.
  - intros H1 H2. rewrite Hmain, Hd.
    change (r >? u_outerRadius u)%b32 with (u_outerRadius u <? r)%b32.
    rewrite (fle_not_flt _ _ H1), (fle_not_flt _ _ H2). discriminate.
Qed.

Lemma disk_main_discard_witness :
  disk_main sqrt_builtins u0 (mkVector3 (of_Z 7) zero zero) <> None
  /\ disk_main sqrt_builtins u0 (mkVector3 (of_Z 6) zero zero) <> None.
Proof.
  split.
  - destruct (disk_main_discard sqrt_builtins u0 (mkVector3 (of_Z 7) zero zero))
      as (_ & _ & between & _).
    apply between; reflexivity.
  - destruct (disk_main_discard sqrt_builtins u0 (mkVector3 (of_Z 6) zero zero))
      as (_ & _ & _ & closed).
    apply closed; reflexivity.
Defined.

(** ** Uniforms and the disk draw call *)

Lemma uniforms_fresh_from_DrawStarfield sim bound written rest :
  uniforms_fresh_from bound written (DrawStarfield sim ++ rest)
  = uniforms_fresh_from bound written rest.
Proof.
  unfold DrawStarfield. induction (stars sim) as [|s l IH]; [reflexivity|].
  simpl flat_map. rewrite <- app_assoc. unfold DrawStar at 1.
  destruct (_ >? _)%b32; simpl; exact IH.
Qed.

Lemma draws_disk_DrawStarfield sim : draws_disk (DrawStarfield sim) = false.
Proof.
  unfold DrawStarfield, draws_disk. induction (stars sim) as [|s l IH]; [reflexivity|].
  simpl flat_map. rewrite existsb_app, IH, orb_false_r. unfold DrawStar.
  destruct (_ >? _)%b32; reflexivity.
Qed.

(** The direct path writes the six uniforms before it draws the disk. *)
Lemma direct_path_uniforms_fresh sim :
  showLensing sim = false -> disk_uniforms_fresh (RenderScene sim) = true.
Proof.
  intros H. unfold disk_uniforms_fresh, RenderScene. rewrite H.
  simpl app at 1. simpl uniforms_fresh_from at 1.
  rewrite uniforms_fresh_from_DrawStarfield.
  destruct (showDisk sim); reflexivity.
Qed.

(** The lensed path draws the disk without writing one of them. *)
Lemma lensed_path_uniforms_stale sim :
  showLensing sim = true -> showDisk sim = true ->
  draws_disk (RenderScene sim) = true
  /\ disk_uniforms_fresh (RenderScene sim) = false
  /\ forall u v, ~ In (SetShaderValue diskShader u v) (RenderScene sim).
Proof.
  intros H1 H2. unfold RenderScene. rewrite H1, H2. split; [|split].
  - unfold draws_disk. simpl app at 1. simpl existsb at 1.
    rewrite existsb_app. fold (draws_disk (DrawStarfield sim)).
    rewrite draws_disk_DrawStarfield. reflexivity.
  - unfold disk_uniforms_fresh. simpl app at 1. simpl uniforms_fresh_from at 1.
    rewrite uniforms_fresh_from_DrawStarfield. reflexivity.
  - intros u v Hin. simpl app at 1 in Hin.
    repeat (destruct Hin as [Hin | Hin]; [discriminate|]).
    apply in_app_or in Hin. destruct Hin as [Hin | Hin].
    + unfold DrawStarfield in Hin. apply in_flat_map in Hin.
      destruct Hin as (s & _ & Hin). unfold DrawStar in Hin.
      destruct (_ >? _)%b32; simpl in Hin; [destruct Hin as [Hin | []]; discriminate | contradiction].
    + simpl in Hin. repeat (destruct Hin as [Hin | Hin]; [discriminate|]). contradiction.
Qed.

(** C4 fails on the code.  In the state [InitSimulation] builds, lensing and
    the disk are both on; the frame then draws the disk through the disk
    shader although no disk uniform has been written, while the same state
    with lensing off writes all six first. *)
Theorem initial_frame_draws_disk_with_unset_uniforms (rand : RandomSource) :
  let sim := InitSimulation rand in
  showLensing sim = true /\ showDisk sim = true
  /\ draws_disk (RenderScene sim) = true
  /\ disk_uniforms_fresh (RenderScene sim) = false
  /\ (forall u v, ~ In (SetShaderValue diskShader u v) (RenderScene sim))
  /\ disk_uniforms_fresh (RenderScene (set_showLensing sim false)) = true.
Proof.
  intros sim.
  destruct (lensed_path_uniforms_stale sim eq_refl eq_refl) as (H1 & H2 & H3).
  repeat split; try assumption.
  apply direct_path_uniforms_fresh. reflexivity.
Qed.

(** ** The simulated clock *)

(** C5, as stated, fails in its second half: with the time effects off, ten
    frames of delta 0.1f from time 0 leave the clock at 8388609 * 2^-23,
    which is neither the single-precision product 10 * 0.1f (exactly 1) nor
    the real number 10 * 0.1f. *)
Lemma accumulated_time_not_N_times_delta :
  let sim := set_showTimeEffects (InitSimulation rand0) false in
  let delta := dec 1 10 in
  let t := time (run_frames (repeat delta 10) sim) in
  time sim = zero
  /\ t = S754_finite false 8388609 (-23)
  /\ (of_Z 10 * delta)%b32 = S754_finite false 8388608 (-23)
  /\ t <> (of_Z 10 * delta)%b32
  /\ B2R t <> (10 * B2R delta)%R.
Proof.
  intros sim delta t.
  assert (Et : t = S754_finite false 8388609 (-23)) by (vm_compute; reflexivity).
  assert (Ed : delta = S754_finite false 13421773 (-27)) by (vm_compute; reflexivity).
  repeat split; try (vm_compute; reflexivity).
  - rewrite Et. vm_compute. discriminate.
  - rewrite Et, Ed. unfold B2R, bpow. simpl. lra.
Qed.

(** C5, amended.  From a state with finite coordinates, a finite positive
    radius and a clock that is not negative, for every sequence of finite
    positive frame deltas the clock never decreases, under both values of
    [showTimeEffects]; with the time effects off every frame adds its delta
    unscaled, so the clock is the running single-precision sum of the
    deltas (equal to N * delta up to rounding only). *)
Theorem time_nondecreasing_and_unscaled (sim : SimulationState) (frameTimes : list float) :
  wf_state sim = true ->
  forallb fin_pos frameTimes = true ->
  nondecreasing (time_trace frameTimes sim) = true
  /\ (time sim <=? time (run_frames frameTimes sim))%b32 = true
  /\ (showTimeEffects sim = false ->
      time (run_frames frameTimes sim) = fold_left fadd frameTimes (time sim)).
Proof.
  intros Hwf Hd. split; [apply time_trace_nondecreasing; assumption | split].
  - revert sim Hwf Hd. induction frameTimes as [|dt rest IH]; intros sim Hwf Hd.
    + simpl. apply fle_B2R_refl. unfold wf_state in Hwf. rewrite !andb_true_iff in Hwf. tauto.
    + simpl in Hd. apply andb_true_iff in Hd. destruct Hd as [Hdt Hrest].
      destruct (UpdateSimulation_step dt sim Hwf Hdt) as [Hle Hwf'].
      simpl. eapply fle_nonneg_trans; [| | | exact Hle | apply IH; assumption].
      * unfold wf_state in Hwf. rewrite !andb_true_iff in Hwf. tauto.
      * unfold wf_state in Hwf'. rewrite !andb_true_iff in Hwf'. tauto.
      * apply run_frames_wf; assumption.
  - intros Hoff. apply run_frames_effects_off. exact Hoff.
Qed.

Lemma time_nondecreasing_and_unscaled_witness :
  let sim := set_showTimeEffects (InitSimulation rand0) false in
  let frameTimes := [dec 16 1000; dec 17 1000; dec 16 1000] in
  nondecreasing (time_trace frameTimes sim) = true
  /\ (time sim <=? time (run_frames frameTimes sim))%b32 = true
  /\ (showTimeEffects sim = false ->
      time (run_frames frameTimes sim) = fold_left fadd frameTimes (time sim)).
Proof.
  intros sim frameTimes.
  apply (time_nondecreasing_and_unscaled sim frameTimes); reflexivity.
Defined.

(** ** The lens fragment shader *)

Lemma fsqrt_nonzero_positive a :
  not_nan (fsqrt a) = true -> feq (fsqrt a) zero = false ->
  (fsqrt a >? zero)%b32 = true.
Proof.
  float_cases a m e; try discriminate; try reflexivity.
  intros Hn Hz.
  pose proof (rounded_nonneg _ _ (fsqrt_rounded m e)) as Hnn.
  fold (fsqrt (S754_finite false m e)) in Hnn.
  destruct (fsqrt (S754_finite false m e)) as [[]|[]| |[] m' e']; try discriminate; reflexivity.
Qed.

(** C6. For every output pixel of the lens shader, with [delta] the pixel
    position minus [lensCenter] and [r = length(delta)]: at distance 0 from
    [lensCenter] the output is opaque black; when the deflected radius
    [newR = r - lensStrength / r] is not positive it is opaque black; when
    the remapped coordinate
    [newUV = (lensCenter + normalize(delta) * newR) / screenSize] fails one
    of [0 <= newUV.x], [newUV.x <= 1], [0 <= newUV.y], [newUV.y <= 1] it is
    opaque black; in every other case it is the texel sampled at [newUV],
    unchanged. *)
Theorem lens_main_cases (texture0 : sampler2D) (lensCenter : Vector2)
  (lensStrength : float) (screenSize fragTexCoord : Vector2) :
  let dx := (x2 fragTexCoord * x2 screenSize - x2 lensCenter)%b32 in
  let dy := (y2 fragTexCoord * y2 screenSize - y2 lensCenter)%b32 in
  let r := fsqrt (dx * dx + dy * dy)%b32 in
  let newR := (r - lensStrength / r)%b32 in
  let newUV :=
    mkVector2 ((x2 lensCenter + dx / r * newR) / x2 screenSize)%b32
              ((y2 lensCenter + dy / r * newR) / y2 screenSize)%b32 in
  let inside :=
    SFleb zero (x2 newUV) && SFleb (x2 newUV) one
    && SFleb zero (y2 newUV) && SFleb (y2 newUV) one in
  let out := lens_main texture0 lensCenter lensStrength screenSize fragTexCoord in
  lens_r lensCenter screenSize fragTexCoord = r
  /\ lens_newR lensCenter lensStrength screenSize fragTexCoord = newR
  /\ lens_newUV lensCenter lensStrength screenSize fragTexCoord = newUV
  /\ in_unit_square newUV = inside
  /\ black4 = mkVector4 zero zero zero one
  /\ (feq r zero = true -> out = black4)
  /\ ((newR <=? zero)%b32 = true -> out = black4)
  /\ (inside = false -> out = black4)
  /\ (not_nan (x2 newUV) = false \/ not_nan (y2 newUV) = false -> out = black4)
  /\ ((r >? zero)%b32 = true -> (newR >? zero)%b32 = true ->
      inside = true -> out = texture0 newUV)
  /\ (not_nan r = true -> feq r zero = false ->
      not_nan newR = true -> (newR <=? zero)%b32 = false ->
      inside = true -> out = texture0 newUV).
Proof.
  intros dx dy r newR newUV inside out.
  assert (Hout : out = if (r >? zero)%b32
                       then if (newR >? zero)%b32
                            then if inside then texture0 newUV else black4
                            else black4
                       else black4) by reflexivity.
  assert (Hsamp : (r >? zero)%b32 = true -> (newR >? zero)%b32 = true ->
                  inside = true -> out = texture0 newUV).
  { intros H1 H2 H3. rewrite Hout, H1, H2, H3. reflexivity. }
  assert (Hblack : inside = false -> out = black4).
  { intros H. rewrite Hout, H.
    destruct (r >? zero)%b32; [destruct (newR >? zero)%b32|]; reflexivity. }
  repeat split; try assumption.
  - intros H. rewrite Hout. unfold fgt. fold (flt zero r).
    destruct (feq_not_flt _ _ H) as [-> _]. reflexivity.
  - intros H. rewrite Hout. unfold fgt at 2. fold (flt zero newR).
    rewrite (fle_not_flt _ _ H). destruct (r >? zero)%b32; reflexivity.
  - intros H. apply Hblack. unfold inside.
    destruct H as [H | H].
    + destruct (x2 newUV); try discriminate. reflexivity.
    + destruct (y2 newUV); try discriminate.
      rewrite andb_false_r. reflexivity.
  - intros N1 Z1 N2 Z2 H3. apply Hsamp; try assumption.
    + apply fsqrt_nonzero_positive; assumption.
    + unfold fgt. fold (flt zero newR). rewrite flt_negb_fle by (reflexivity || assumption).
      rewrite Z2. reflexivity.
Qed.

Lemma lens_main_cases_witness :
  let lensCenter := mkVector2 (of_Z 512) (of_Z 384) in
  let screenSize := mkVector2 (of_Z 1024) (of_Z 768) in
  let lensStrength := of_Z 10000 in
  lens_main uv_texture lensCenter lensStrength screenSize (mkVector2 (dec 1 2) (dec 1 2)) = black4
  /\ lens_main uv_texture lensCenter lensStrength screenSize (mkVector2 (dec 9 16) (dec 1 2)) = black4
  /\ lens_main uv_texture lensCenter lensStrength screenSize (mkVector2 one (dec 1 2))
     = uv_texture (mkVector2 (S754_finite false 16457216 (-24)) (dec 1 2))
  /\ lens_main uv_texture (mkVector2 zero zero) (of_Z 4) (mkVector2 (of_Z 2) (of_Z 2))
       (mkVector2 (of_Z 2) zero) = black4.
Proof.
  intros lensCenter screenSize lensStrength. split; [|split; [|split]].
  - destruct (lens_main_cases uv_texture lensCenter lensStrength screenSize
                (mkVector2 (dec 1 2) (dec 1 2))) as (_ & _ & _ & _ & _ & centre & _).
    apply centre. reflexivity.
  - destruct (lens_main_cases uv_texture lensCenter lensStrength screenSize
                (mkVector2 (dec 9 16) (dec 1 2))) as (_ & _ & _ & _ & _ & _ & fell_in & _).
    apply fell_in. reflexivity.
  - destruct (lens_main_cases uv_texture lensCenter lensStrength screenSize
                (mkVector2 one (dec 1 2)))
      as (_ & _ & _ & _ & _ & _ & _ & _ & _ & sampled & _).
    rewrite (sampled eq_refl eq_refl eq_refl). vm_compute. reflexivity.
  - destruct (lens_main_cases uv_texture (mkVector2 zero zero) (of_Z 4)
                (mkVector2 (of_Z 2) (of_Z 2)) (mkVector2 (of_Z 2) zero))
      as (_ & _ & _ & _ & _ & _ & _ & escaped & _).
    apply escaped. reflexivity.
Defined.

(** ** The disk fragment shader: colour and alpha *)



(** ** The starfield *)

Lemma of_Z_small_finite z :
  -100 <= z <= 100 -> finite_coord (of_Z z) = true.
Proof.
  intros Hz.
  assert (H : forallb (fun n => finite_coord (of_Z (Z.of_nat n - 100))) (seq 0 201) = true)
    by (vm_compute; reflexivity).
  rewrite forallb_forall in H. specialize (H (Z.to_nat (z + 100))).
  rewrite Z2Nat.id in H by lia. replace (z + 100 - 100) with z in H by lia.
  apply H. apply in_seq. lia.
Qed.

Lemma InitStar_finite rand i :
  rand_in_range rand -> finite_vec (star_position (InitStar rand i)) = true.
Proof.
  intros Hr. unfold InitStar, finite_vec. simpl.
  rewrite !of_Z_small_finite by (apply Hr; lia). reflexivity.
Qed.


Lemma rand0_in_range : rand_in_range rand0.
Proof.
  intros k lo hi H. unfold rand0.
  destruct (Z.leb_spec lo 0), (Z.leb_spec 0 hi); simpl; lia.
Defined.


(** ** What [UpdateSimulation] reads and writes *)

(** C9. Toggling [showLensing] leaves the physics values alone: the L key
    changes that flag only, and for any state the [time] and [timeDilation]
    that [UpdateSimulation] produces are the same whatever the flag is; the
    flag only selects the branch [RenderScene] takes. *)
Theorem UpdateSimulation_ignores_showLensing (frameTime : float)
  (sim : SimulationState) (b : bool) :
  HandleToggles (mkKeys true false false) sim
  = set_showLensing sim (negb (showLensing sim))
  /\ time (set_showLensing sim b) = time sim
  /\ timeDilation (set_showLensing sim b) = timeDilation sim
  /\ UpdateSimulation frameTime (set_showLensing sim b)
     = set_showLensing (UpdateSimulation frameTime sim) b
  /\ time (UpdateSimulation frameTime (set_showLensing sim b))
     = time (UpdateSimulation frameTime sim)
  /\ timeDilation (UpdateSimulation frameTime (set_showLensing sim b))
     = timeDilation (UpdateSimulation frameTime sim)
  /\ hd_error (RenderScene (set_showLensing sim true)) = Some BeginTextureMode
  /\ hd_error (RenderScene (set_showLensing sim false))
     = Some (BeginMode3D (camera sim)).
Proof.
  assert (H : UpdateSimulation frameTime (set_showLensing sim b)
              = set_showLensing (UpdateSimulation frameTime sim) b).
  { unfold UpdateSimulation. simpl showTimeEffects.
    destruct (showTimeEffects sim); reflexivity. }
  repeat split; try reflexivity; try exact H; rewrite H; reflexivity.
Qed.

(** C10. A call to [UpdateSimulation] writes at most [time] and
    [timeDilation]: the camera, the black hole, the disk, the stars and the
    three toggles keep their values; and with [showTimeEffects] off
    [timeDilation] keeps its previous value too. *)
Theorem UpdateSimulation_writes_only_clock (frameTime : float) (sim : SimulationState) :
  camera (UpdateSimulation frameTime sim) = camera sim
  /\ blackHole (UpdateSimulation frameTime sim) = blackHole sim
  /\ disk (UpdateSimulation frameTime sim) = disk sim
  /\ stars (UpdateSimulation frameTime sim) = stars sim
  /\ showLensing (UpdateSimulation frameTime sim) = showLensing sim
  /\ showDisk (UpdateSimulation frameTime sim) = showDisk sim
  /\ showTimeEffects (UpdateSimulation frameTime sim) = showTimeEffects sim
  /\ (showTimeEffects sim = false ->
      timeDilation (UpdateSimulation frameTime sim) = timeDilation sim)
  /\ (showTimeEffects sim = true ->
      timeDilation (UpdateSimulation frameTime sim)
      = CalculateTimeDilation (cam_position (camera sim)) (blackHole sim)).
Proof.
  destruct (UpdateSimulation_frame frameTime sim) as (H1 & H2 & H3 & H4 & H5 & H6 & H7).
  repeat split; try assumption;
    intros H; unfold UpdateSimulation; rewrite H; reflexivity.
Qed.

Lemma UpdateSimulation_writes_only_clock_witness :
  let sim := set_showTimeEffects (InitSimulation rand0) false in
  timeDilation (UpdateSimulation (dec 16 1000) sim) = timeDilation sim.
Proof.
  intros sim.
  destruct (UpdateSimulation_writes_only_clock (dec 16 1000) sim)
    as (_ & _ & _ & _ & _ & _ & _ & off & _).
  apply off. reflexivity.
Defined.

(** * Further properties of the program *)

(** ** The toggle keys *)

(** X1. The toggle keys only flip flags: applying the same key presses on
    two consecutive frames gives back the state, whatever the keys. *)
Theorem HandleToggles_involutive (pressed : Keys) (sim : SimulationState) :
  HandleToggles pressed (HandleToggles pressed sim) = sim.
Proof.
  destruct sim as [c bh dk st t td l d e], pressed as [kl ko kt].
  unfold HandleToggles. simpl.
  destruct kl, ko, kt; simpl; rewrite ?negb_involutive; reflexivity.
Qed.

(** ** What never changes while the loop runs *)

Lemma MoveCamera_frame down sim :
  cam_target (camera (MoveCamera down sim)) = cam_target (camera sim)
  /\ cam_up (camera (MoveCamera down sim)) = cam_up (camera sim)
  /\ cam_fovy (camera (MoveCamera down sim)) = cam_fovy (camera sim)
  /\ cam_projection (camera (MoveCamera down sim)) = cam_projection (camera sim)
  /\ blackHole (MoveCamera down sim) = blackHole sim
  /\ disk (MoveCamera down sim) = disk sim
  /\ stars (MoveCamera down sim) = stars sim
  /\ time (MoveCamera down sim) = time sim
  /\ timeDilation (MoveCamera down sim) = timeDilation sim
  /\ showLensing (MoveCamera down sim) = showLensing sim
  /\ showDisk (MoveCamera down sim) = showDisk sim
  /\ showTimeEffects (MoveCamera down sim) = showTimeEffects sim.
Proof.
  destruct down as [w s a d]. unfold MoveCamera. simpl.
  destruct w, s, a, d; repeat split; reflexivity.
Qed.

Lemma HandleToggles_frame pressed sim :
  camera (HandleToggles pressed sim) = camera sim
  /\ blackHole (HandleToggles pressed sim) = blackHole sim
  /\ disk (HandleToggles pressed sim) = disk sim
  /\ stars (HandleToggles pressed sim) = stars sim
  /\ time (HandleToggles pressed sim) = time sim
  /\ timeDilation (HandleToggles pressed sim) = timeDilation sim.
Proof.
  destruct pressed as [kl ko kt]. unfold HandleToggles. simpl.
  destruct kl, ko, kt; repeat split; reflexivity.
Qed.

Lemma LoopStep_frame i sim :
  cam_target (camera (LoopStep i sim)) = cam_target (camera sim)
  /\ cam_up (camera (LoopStep i sim)) = cam_up (camera sim)
  /\ cam_fovy (camera (LoopStep i sim)) = cam_fovy (camera sim)
  /\ cam_projection (camera (LoopStep i sim)) = cam_projection (camera sim)
  /\ blackHole (LoopStep i sim) = blackHole sim
  /\ disk (LoopStep i sim) = disk sim
  /\ stars (LoopStep i sim) = stars sim.
Proof.
  unfold LoopStep.
  destruct (MoveCamera_frame (in_down i)
              (HandleToggles (in_pressed i) (UpdateSimulation (in_frameTime i) sim)))
    as (M1 & M2 & M3 & M4 & M5 & M6 & M7 & _).
  destruct (HandleToggles_frame (in_pressed i) (UpdateSimulation (in_frameTime i) sim))
    as (T1 & T2 & T3 & T4 & _).
  destruct (UpdateSimulation_frame (in_frameTime i) sim) as (U1 & U2 & U3 & U4 & _).
  rewrite M1, M2, M3, M4, M5, M6, M7, T1, T2, T3, T4, U1, U2, U3, U4. repeat split; reflexivity.
Qed.

(** X2. Whatever the frame times and the keys, the loop never changes the
    black hole, the disk, the stars or where the camera looks: after any
    number of iterations they are what [InitSimulation] set, so the radii
    stay ordered [2 < 6 < 20] and the star count stays [MAX_STARS]. *)
Theorem run_loop_immutable (rand : RandomSource) (inputs : list FrameInput) :
  let sim0 := InitSimulation rand in
  let sim := run_loop inputs sim0 in
  blackHole sim = bh0
  /\ disk sim = disk sim0
  /\ stars sim = stars sim0
  /\ List.length (stars sim) = MAX_STARS
  /\ cam_target (camera sim) = mkVector3 zero zero zero
  /\ cam_up (camera sim) = mkVector3 zero (of_Z 1) zero
  /\ innerRadius (disk sim) = iscoRadius (blackHole sim)
  /\ (schwarzschildRadius (blackHole sim) <? iscoRadius (blackHole sim))%b32 = true
  /\ (innerRadius (disk sim) <? outerRadius (disk sim))%b32 = true.
Proof.
  intros sim0 sim.
  assert (H : cam_target (camera sim) = cam_target (camera sim0)
              /\ cam_up (camera sim) = cam_up (camera sim0)
              /\ blackHole sim = blackHole sim0
              /\ disk sim = disk sim0 /\ stars sim = stars sim0).
  { unfold sim. generalize sim0. clear sim.
    induction inputs as [|i rest IH]; intros s; [repeat split; reflexivity|].
    simpl. destruct (IH (LoopStep i s)) as (A & B & C & D & E).
    destruct (LoopStep_frame i s) as (A' & B' & _ & _ & C' & D' & E').
    rewrite A, B, C, D, E, A', B', C', D', E'. repeat split; reflexivity. }
  destruct H as (A & B & C & D & E).
  rewrite A, B, C, D, E. repeat split; reflexivity.
Qed.

(** ** The initial starfield *)

Lemma Z_range_forallb (P : Z -> bool) lo n z :
  forallb (fun k => P (Z.of_nat k + lo)) (seq 0 n) = true ->
  lo <= z < lo + Z.of_nat n -> P z = true.
Proof.
  intros H Hz. rewrite forallb_forall in H. specialize (H (Z.to_nat (z - lo))).
  rewrite Z2Nat.id in H by lia. replace (z - lo + lo) with z in H by lia.
  apply H. apply in_seq. lia.
Qed.

Lemma coordinate_round_trip z :
  -100 <= z <= 100 -> to_Z (of_Z z) = z.
Proof.
  intros Hz. apply Z.eqb_eq.
  apply (Z_range_forallb (fun z => to_Z (of_Z z) =? z) (-100) 201); [vm_compute; reflexivity | lia].
Qed.

Lemma brightness_round_trip k :
  50 <= k <= 255 ->
  to_Z ((of_Z k / of_Z 255) * of_Z 255)%b32 mod 256 = k
  /\ (of_Z 50 / of_Z 255 <=? of_Z k / of_Z 255)%b32 = true
  /\ (of_Z k / of_Z 255 <=? one)%b32 = true.
Proof.
  intros Hk.
  assert (H : (to_Z ((of_Z k / of_Z 255) * of_Z 255)%b32 mod 256 =? k)
              && (of_Z 50 / of_Z 255 <=? of_Z k / of_Z 255)%b32
              && (of_Z k / of_Z 255 <=? one)%b32 = true).
  { apply (Z_range_forallb
             (fun k => (to_Z ((of_Z k / of_Z 255) * of_Z 255)%b32 mod 256 =? k)
                       && (of_Z 50 / of_Z 255 <=? of_Z k / of_Z 255)%b32
                       && (of_Z k / of_Z 255 <=? one)%b32) 50 206);
      [vm_compute; reflexivity | lia]. }
  rewrite !andb_true_iff, Z.eqb_eq in H. tauto.
Qed.

Lemma exact_integer_sound (f : float) (z : Z) :
  match f with
  | S754_zero _ => z =? 0
  | S754_finite s m e => (e <=? 0) && (cond_Zopp s (Z.pos m) =? z * 2 ^ (- e))
  | _ => false
  end = true ->
  B2R f = IZR z.
Proof.
  destruct f as [s|s| |s m e]; try discriminate.
  - intros H. apply Z.eqb_eq in H. subst z. reflexivity.
  - rewrite andb_true_iff, Z.leb_le, Z.eqb_eq. intros [He Hm].
    assert (Hz : (IZR (z * 2 ^ (- e)) * bpow e = IZR z)%R).
    { rewrite mult_IZR, <- bpow_IZR by lia. rewrite Rmult_assoc, <- bpow_add.
      replace (- e + e) with 0 by lia. rewrite bpow_0. ring. }
    unfold B2R. destruct s; simpl cond_Zopp in Hm.
    + rewrite <- Hz, <- Hm. change (Z.neg m) with (- Z.pos m).
      rewrite opp_IZR. ring.
    + rewrite <- Hz, <- Hm. reflexivity.
Qed.

(** The cast of a drawn coordinate to [float] is that integer. *)
Lemma coordinate_exact z :
  -100 <= z <= 100 -> B2R (of_Z z) = IZR z.
Proof.
  intros Hz. apply exact_integer_sound.
  apply (Z_range_forallb
           (fun z => match of_Z z with
                     | S754_zero _ => z =? 0
                     | S754_finite s m e =>
                         (e <=? 0) && (cond_Zopp s (Z.pos m) =? z * 2 ^ (- e))
                     | _ => false
                     end) (-100) 201);
    [vm_compute; reflexivity | lia].
Qed.

(** X3. Whatever the random source returns within its bounds, star [i] of
    the initial state sits on the integer point that was drawn: each
    coordinate is a finite float whose value is exactly the drawn integer
    (the casts to [float] lose nothing, and casting back returns it).  Its
    brightness is [k / 255.0f] for the drawn [k], between 50/255 and 1, and
    its colour is the grey [(k, k, k, 255)]: the round trip through
    [k / 255.0f * 255] and the cast to [unsigned char] gives [k] back for
    every [k] from 50 to 255. *)
Theorem InitStar_values (rand : RandomSource) (i : nat) :
  rand_in_range rand ->
  let s := InitStar rand i in
  let px := rand (4 * i)%nat (-100) 100 in
  let py := rand (4 * i + 1)%nat (-100) 100 in
  let pz := rand (4 * i + 2)%nat (-100) 100 in
  let k := rand (4 * i + 3)%nat 50 255 in
  finite_vec (star_position s) = true
  /\ B2R (x3 (star_position s)) = IZR px
  /\ B2R (y3 (star_position s)) = IZR py
  /\ B2R (z3 (star_position s)) = IZR pz
  /\ to_Z (x3 (star_position s)) = px
  /\ to_Z (y3 (star_position s)) = py
  /\ to_Z (z3 (star_position s)) = pz
  /\ brightness s = (of_Z k / of_Z 255)%b32
  /\ (of_Z 50 / of_Z 255 <=? brightness s)%b32 = true
  /\ (brightness s <=? one)%b32 = true
  /\ star_color s = mkColor k k k 255.
Proof.
  intros Hr s px py pz k.
  destruct (brightness_round_trip k (Hr _ 50 255 ltac:(lia))) as (C & B0 & B1).
  split; [apply (InitStar_finite rand i Hr)|].
  unfold s.
  cbv beta iota zeta delta [InitStar star_position brightness star_color x3 y3 z3].
  fold px py pz k.
  rewrite !coordinate_round_trip, !coordinate_exact by (apply Hr; lia).
  rewrite C.
  repeat split; assumption.
Qed.

Lemma InitStar_values_witness :
  star_position (InitStar rand0 7) = mkVector3 zero zero zero
  /\ B2R (x3 (star_position (InitStar rand0 7))) = 0%R
  /\ star_color (InitStar rand0 7) = mkColor 50 50 50 255.
Proof.
  destruct (InitStar_values rand0 7 rand0_in_range)
    as (_ & X & _ & _ & _ & _ & _ & _ & _ & _ & C).
  split; [reflexivity | split; [exact X | exact C]].
Defined.

(** ** Time dilation and the clock *)

Lemma CalculateTimeDilation_range_aux (position : Vector3) (bh : BlackHole) :
  finite_vec position = true ->
  finite_vec (bh_position bh) = true ->
  fin_pos (schwarzschildRadius bh) = true ->
  fin_nonneg (CalculateTimeDilation position bh) = true
  /\ (zero <=? CalculateTimeDilation position bh)%b32 = true
  /\ (CalculateTimeDilation position bh <=? one)%b32 = true.
Proof.
  intros Hp Hc Hrs. rewrite CalculateTimeDilation_at.
  pose proof (Vector3Distance_nonneg position _ Hp Hc) as Hd.
  set (d := Vector3Distance position (bh_position bh)) in *.
  assert (H : fin_nonneg (dilation_at (schwarzschildRadius bh) d) = true
              /\ (dilation_at (schwarzschildRadius bh) d <=? one)%b32 = true).
  { destruct (fle d (schwarzschildRadius bh)) eqn:E.
    - unfold dilation_at. fold (fle d (schwarzschildRadius bh)). rewrite E. split; reflexivity.
    - assert (Hlt : flt (schwarzschildRadius bh) d = true)
        by (rewrite flt_negb_fle, E; [reflexivity | auto with b32 ..]).
      destruct (dilation_range _ d Hrs Hd Hlt) as (A & _ & B). split; assumption. }
  destruct H as [A B]. repeat split; try assumption.
  apply fle_B2R; [reflexivity | exact A |]. simpl B2R at 1. apply fin_nonneg_B2R_ge_0. exact A.
Qed.

(** X4. For finite coordinates and a finite positive radius the dilation
    factor is a number between 0 and 1, at every distance: it is never a
    NaN, never negative and never above 1. *)
Theorem CalculateTimeDilation_range (position : Vector3) (bh : BlackHole) :
  finite_vec position = true ->
  finite_vec (bh_position bh) = true ->
  fin_pos (schwarzschildRadius bh) = true ->
  fin_nonneg (CalculateTimeDilation position bh) = true
  /\ (zero <=? CalculateTimeDilation position bh)%b32 = true
  /\ (CalculateTimeDilation position bh <=? one)%b32 = true.
Proof. apply CalculateTimeDilation_range_aux. Qed.

Lemma CalculateTimeDilation_range_witness :
  (CalculateTimeDilation (mkVector3 (of_Z 1) zero zero) bh0 <=? one)%b32 = true.
Proof.
  apply (CalculateTimeDilation_range (mkVector3 (of_Z 1) zero zero) bh0); reflexivity.
Defined.

Lemma fadd_mono_r a b c :
  nonneg a = true -> nonneg b = true -> nonneg c = true ->
  fle b c = true -> fle (a + b)%b32 (a + c)%b32 = true.
Proof.
  intros Ha Hb Hc Hbc.
  destruct (nonneg_cases a Ha) as [-> | Fa].
  { float_cases b mb eb; try discriminate; float_cases c mc ec; try discriminate; reflexivity. }
  destruct (nonneg_cases c Hc) as [-> | Fc].
  { replace (a + S754_infinity false)%b32 with (S754_infinity false)
      by (float_cases a ma ea; try discriminate; reflexivity).
    apply fle_inf. apply nonneg_not_nan. apply fadd_nonneg; assumption. }
  destruct (nonneg_cases b Hb) as [-> | Fb].
  { apply fle_inf_l in Hbc. subst c. discriminate. }
  apply (rounded_mono (B2R a + B2R b) (B2R a + B2R c)); try (apply fadd_rounded; assumption).
  apply fle_B2R in Hbc; try assumption. lra.
Qed.

(** X5. In a well-formed state one frame moves the clock forward by at most
    the frame time: simulated time never runs faster than real time, and
    with the time effects on the stored dilation factor lies in [0,1]. *)
Theorem UpdateSimulation_clock_bounds (frameTime : float) (sim : SimulationState) :
  wf_state sim = true ->
  fin_pos frameTime = true ->
  (time sim <=? time (UpdateSimulation frameTime sim))%b32 = true
  /\ (time (UpdateSimulation frameTime sim) <=? time sim + frameTime)%b32 = true
  /\ (showTimeEffects sim = true ->
      (zero <=? timeDilation (UpdateSimulation frameTime sim))%b32 = true
      /\ (timeDilation (UpdateSimulation frameTime sim) <=? one)%b32 = true).
Proof.
  intros Hwf Hdt. destruct (UpdateSimulation_step frameTime sim Hwf Hdt) as [Hle _].
  unfold wf_state in Hwf. rewrite !andb_true_iff in Hwf.
  destruct Hwf as [[[Hc Hb] Hrs] Ht].
  destruct (CalculateTimeDilation_range_aux _ _ Hc Hb Hrs) as (Fd & D0 & D1).
  split; [exact Hle | split].
  - rewrite UpdateSimulation_time. destruct (showTimeEffects sim).
    + apply fadd_mono_r; auto with b32.
      * apply fmul_nonneg; auto with b32.
      * apply (rounded_mono _ (B2R frameTime) _ _ (fmul_rounded _ _ (fin_pos_fin_nonneg _ Hdt) Fd)).
        { apply fin_nonneg_rounded. auto with b32. }
        apply fle_B2R in D1; [|assumption|reflexivity]. rewrite B2R_one in D1.
        pose proof (fin_pos_B2R _ Hdt). pose proof (fin_nonneg_B2R_ge_0 _ Fd). nra.
    + apply fle_B2R_refl. apply fadd_nonneg; auto with b32.
  - intros Hon. unfold UpdateSimulation. rewrite Hon. simpl timeDilation. split; assumption.
Qed.

Lemma UpdateSimulation_clock_bounds_witness :
  let sim := InitSimulation rand0 in
  (time (UpdateSimulation (dec 16 1000) sim) <=? time sim + dec 16 1000)%b32 = true.
Proof.
  intros sim.
  apply (UpdateSimulation_clock_bounds (dec 16 1000) sim); reflexivity.
Defined.

(** ** The command stream of a frame *)

Lemma nested_from_DrawStarfield sim opened rest :
  nested_from opened (DrawStarfield sim ++ rest) = nested_from opened rest.
Proof.
  unfold DrawStarfield. induction (stars sim) as [|s l IH]; [reflexivity|].
  simpl flat_map. rewrite <- app_assoc. unfold DrawStar at 1.
  destruct (_ >? _)%b32; simpl; exact IH.
Qed.

(** X6. In every state and on both render paths, the commands of a frame
    open and close their scopes in a properly nested way: each
    [BeginDrawing], [BeginTextureMode], [BeginMode3D] and [BeginShaderMode]
    is closed by its own [End...] call, innermost first, and nothing is left
    open at the end of the frame. *)
Theorem DrawFrame_well_nested (fps : Z) (sim : SimulationState) :
  well_nested (DrawFrame fps sim) = true.
Proof.
  unfold well_nested, DrawFrame, RenderScene.
  destruct (showLensing sim), (showDisk sim), (showTimeEffects sim);
    repeat rewrite <- app_assoc; cbn [app nested_from];
    rewrite nested_from_DrawStarfield; reflexivity.
Qed.

Lemma filter_geometry_DrawStarfield sim :
  filter is_geometry (DrawStarfield sim) = DrawStarfield sim.
Proof.
  unfold DrawStarfield. induction (stars sim) as [|s l IH]; [reflexivity|].
  simpl flat_map. rewrite filter_app, IH. unfold DrawStar.
  destruct (_ >? _)%b32; reflexivity.
Qed.

(** X7. Both render paths put the same geometry on their target, in the
    same order: the stars that pass the distance test, then the disk
    cylinder if [showDisk] is on, then the horizon sphere and the ISCO ring.
    Lensing changes the target and the post-process pass, not what is
    drawn; the sphere and the ring are drawn whatever the toggles are. *)
Theorem RenderScene_geometry (sim : SimulationState) :
  let p := bh_position (blackHole sim) in
  filter is_geometry (RenderScene sim)
  = DrawStarfield sim
    ++ (if showDisk sim
        then [DrawCylinderEx (mkVector3 (x3 p) (y3 p - dec 1 10)%b32 (z3 p))
                (mkVector3 (x3 p) (y3 p + dec 1 10)%b32 (z3 p))
                (outerRadius (disk sim)) (innerRadius (disk sim)) 32 ORANGE]
        else [])
    ++ [DrawSphere p (schwarzschildRadius (blackHole sim)) BLACK;
        DrawCircle3D p (iscoRadius (blackHole sim)) (mkVector3 (of_Z 1) zero zero)
          (of_Z 90) (Fade YELLOW (dec 3 10))].
Proof.
  intros p. unfold RenderScene.
  destruct (showLensing sim), (showDisk sim);
    cbn [app filter is_geometry];
    rewrite filter_app, filter_geometry_DrawStarfield; reflexivity.
Qed.

(** ** The starfield in any state *)

Lemma fmul_two_not_nan rs :
  valid rs = true -> not_nan rs = true -> not_nan (rs * of_Z 2)%b32 = true.
Proof.
  intros V N. destruct rs as [s|s| |s m e]; try discriminate; try reflexivity.
  change (of_Z 2) with (S754_finite false 8388608 (-22)).
  unfold fmul, SFmul.
  destruct (rounded_s_valid _ _ _
              (binary_round_aux_rounded (xorb s false)
                 (IZR (Z.pos (m * 8388608)) * bpow (e + -22)) (Z.pos (m * 8388608))
                 (e + -22) loc_Exact ltac:(lia) eq_refl
                 (mul_prec_ok m e 8388608 (-22) V eq_refl))) as [_ H].
  destruct (binary_round_aux _ _ _ _ _ _); try reflexivity. congruence.
Qed.

(** X8. In any state with finite star and black-hole coordinates and a
    radius that is not a NaN, the starfield pass is exactly the list of the
    cubes of side 0.2, each at its star's position in its star's colour, of
    the stars whose distance to the black hole is not at most twice the
    radius, in the order of the stars: every star within that distance is
    skipped, every other star is drawn once, and nothing else is drawn. *)
Theorem DrawStarfield_any_state (sim : SimulationState) :
  finite_vec (bh_position (blackHole sim)) = true ->
  valid (schwarzschildRadius (blackHole sim)) = true ->
  not_nan (schwarzschildRadius (blackHole sim)) = true ->
  forallb (fun s => finite_vec (star_position s)) (stars sim) = true ->
  let near s :=
    (Vector3Distance (star_position s) (bh_position (blackHole sim))
     <=? schwarzschildRadius (blackHole sim) * of_Z 2)%b32 in
  let cube s :=
    DrawCube (star_position s) (dec 2 10) (dec 2 10) (dec 2 10) (star_color s) in
  DrawStarfield sim = map cube (filter (fun s => negb (near s)) (stars sim))
  /\ (forall s, In s (stars sim) ->
        DrawStar sim s = if near s then [] else [cube s])
  /\ (forall s, In s (stars sim) ->
        (In (cube s) (DrawStarfield sim) <-> near s = false))
  /\ (List.length (DrawStarfield sim) <= List.length (stars sim))%nat.
Proof.
  intros Hb Hv Hn Hs near cube.
  assert (Hstar : forall s, finite_vec (star_position s) = true ->
                    DrawStar sim s = if near s then [] else [cube s]).
  { intros s Fs. unfold DrawStar, near.
    pose proof (Vector3Distance_nonneg _ _ Fs Hb) as Hd.
    unfold fgt.
    fold (flt (schwarzschildRadius (blackHole sim) * of_Z 2)%b32
              (Vector3Distance (star_position s) (bh_position (blackHole sim)))).
    rewrite flt_negb_fle by (auto using fmul_two_not_nan with b32).
    destruct (_ <=? _)%b32; reflexivity. }
  rewrite forallb_forall in Hs.
  assert (Hpass : DrawStarfield sim = map cube (filter (fun s => negb (near s)) (stars sim))).
  { unfold DrawStarfield. revert Hs.
    induction (stars sim) as [|s l IH]; intros Hs; [reflexivity|].
    cbn [flat_map filter]. rewrite IH by (intros s' H'; apply Hs; right; exact H').
    rewrite (Hstar s) by (apply Hs; left; reflexivity).
    destruct (near s); reflexivity. }
  split; [exact Hpass|]. split; [|split].
  - intros s Hin. apply Hstar, Hs, Hin.
  - intros s Hin. rewrite Hpass, in_map_iff. split.
    + intros (s' & Ec & Hf). apply filter_In in Hf. destruct Hf as [_ Hf].
      apply negb_true_iff in Hf.
      assert (Es : near s = near s').
      { unfold near. unfold cube in Ec. injection Ec as Ep _. rewrite Ep. reflexivity. }
      rewrite Es. exact Hf.
    + intros Hf. exists s. split; [reflexivity|]. apply filter_In. split; [exact Hin|].
      rewrite Hf. reflexivity.
  - rewrite Hpass, length_map. apply filter_length_le.
Qed.

Lemma DrawStarfield_any_state_witness :
  let s0 := InitSimulation rand0 in
  let inside := mkStar (mkVector3 (of_Z 4) zero zero) one (mkColor 255 255 255 255) in
  let outside := mkStar (mkVector3 (of_Z 5) zero zero) (dec 1 2) (mkColor 127 127 127 255) in
  let sim := mkSimulationState (camera s0) (blackHole s0) (disk s0) [inside; outside]
               (time s0) (timeDilation s0) true true true in
  DrawStarfield sim
  = [DrawCube (mkVector3 (of_Z 5) zero zero) (dec 2 10) (dec 2 10) (dec 2 10)
       (mkColor 127 127 127 255)].
Proof.
  intros s0 inside outside sim.
  destruct (DrawStarfield_any_state sim eq_refl eq_refl eq_refl eq_refl) as (H & _).
  rewrite H. reflexivity.
Defined.

(** ** The lens shader *)

(** X9. The lens shader reads the offscreen texture only inside the unit
    square: replacing the texture by anything else outside [0,1] x [0,1]
    changes no output pixel. *)
Theorem lens_main_samples_inside (texture0 outside : sampler2D)
  (lensCenter : Vector2) (lensStrength : float) (screenSize fragTexCoord : Vector2) :
  lens_main (fun uv => if in_unit_square uv then texture0 uv else outside uv)
    lensCenter lensStrength screenSize fragTexCoord
  = lens_main texture0 lensCenter lensStrength screenSize fragTexCoord.
Proof.
  unfold lens_main.
  destruct (_ >? _)%b32; [|reflexivity].
  destruct (_ >? _)%b32; [|reflexivity].
  cbv beta. destruct (in_unit_square _); reflexivity.
Qed.

Lemma pack_true_nonpos m e : 0 <= m -> fle (pack true m e) zero = true.
Proof.
  intros Hm. unfold pack. destruct m as [|p|p]; try lia; [reflexivity|].
  destruct (Z.pos p =? 2 ^ 24); [destruct (e + 1 <=? 104) | destruct (e <=? 104)];
    reflexivity.
Qed.

(** A difference that is not positive in the reals is not positive as a
    float. *)
Lemma fsub_nonpos a b :
  fin_nonneg a = true -> fin_nonneg b = true -> (B2R a <= B2R b)%R ->
  fle (a - b)%b32 zero = true.
Proof.
  intros Ha Hb Hle.
  float_cases a ma ea; try discriminate; float_cases b mb eb; try discriminate;
    try reflexivity.
  - exfalso. simpl in Hle. pose proof (bpow_gt_0 ea).
    assert (0 < IZR (Z.pos ma))%R by (apply IZR_lt; lia). nra.
  - unfold fsub, SFsub, cond_Zopp.
    pose proof (shl_align_spec ma ea (Z.min ea eb)) as Sa.
    pose proof (shl_align_spec mb eb (Z.min ea eb)) as Sb.
    destruct (shl_align ma ea _) as [ma' ea'], (shl_align mb eb _) as [mb' eb'].
    simpl fst in Sa, Sb; simpl snd in Sa, Sb.
    destruct Sa as (Sa1 & _ & Sa3 & _), Sb as (Sb1 & _ & Sb3 & _).
    simpl fst. replace ea' with (Z.min ea eb) in Sa1 by lia.
    replace eb' with (Z.min ea eb) in Sb1 by lia.
    simpl B2R in Hle. rewrite <- Sa1, <- Sb1 in Hle.
    pose proof (bpow_gt_0 (Z.min ea eb)) as Hp.
    assert (Hz : Z.pos ma' - Z.pos mb' <= 0).
    { apply le_IZR. rewrite minus_IZR. nra. }
    destruct (Z.pos ma' - Z.pos mb') as [|p|p]; try lia; [reflexivity|].
    unfold binary_normalize.
    destruct (binary_round_rounded true p (Z.min ea eb)) as (m & e & l & Hc & ->).
    apply pack_true_nonpos.
    destruct Hc as (_ & Hm & _). pose proof (round_nearest_even_bounds m l). lia.
Qed.

(** X10. The lens shader paints a black disc around [lensCenter]: every
    pixel at a positive distance [r] from it with [r * r < lensStrength]
    (100 pixels with the strength 10000 the program uploads) is opaque
    black, whatever the texture holds. *)
Theorem lens_main_black_disc (texture0 : sampler2D) (lensCenter : Vector2)
  (lensStrength : float) (screenSize fragTexCoord : Vector2) :
  let r := lens_r lensCenter screenSize fragTexCoord in
  fin_pos r = true ->
  fin_pos lensStrength = true ->
  (r * r <? lensStrength)%b32 = true ->
  lens_main texture0 lensCenter lensStrength screenSize fragTexCoord = black4.
Proof.
  intros r Hr HL Hlt.
  assert (Hneg : fle (lens_newR lensCenter lensStrength screenSize fragTexCoord) zero = true).
  { change (lens_newR lensCenter lensStrength screenSize fragTexCoord)
      with (r - lensStrength / r)%b32.
    pose proof (fin_pos_B2R r Hr) as Hr0.
    pose proof (fin_pos_fin_nonneg r Hr) as Fr.
    pose proof (fin_pos_fin_nonneg _ HL) as FL.
    assert (Hsq : (B2R r * B2R r < B2R lensStrength)%R).
    { apply Rnot_le_lt. intros Hge.
      pose proof (rounded_mono _ _ _ _ (fin_nonneg_rounded _ FL) (fmul_rounded r r Fr Fr) Hge) as H.
      apply flt_not_fle in Hlt. unfold fmul in Hlt. congruence. }
    assert (Hq : rounded (B2R lensStrength / B2R r) (lensStrength / r)%b32).
    { destruct (fin_pos_inv r Hr) as (mr & er & -> & _).
      destruct (fin_pos_inv _ HL) as (mL & eL & -> & _). apply fdiv_rounded. }
    assert (Hrq : (B2R r <= B2R lensStrength / B2R r)%R).
    { apply Rmult_le_reg_r with (B2R r); [lra|]. unfold Rdiv.
      rewrite Rmult_assoc, Rinv_l by lra. lra. }
    destruct (nonneg_cases _ (rounded_nonneg _ _ Hq)) as [-> | Fq].
    - destruct (fin_pos_inv r Hr) as (mr & er & -> & _). reflexivity.
    - apply fsub_nonpos; try assumption.
      apply (rounded_ge_fin _ _ r Hq Fq Fr Hrq). }
  unfold lens_main. fold r.
  change (lens_newR lensCenter lensStrength screenSize fragTexCoord >? zero)%b32
    with (flt zero (lens_newR lensCenter lensStrength screenSize fragTexCoord)).
  rewrite (fle_not_flt _ _ Hneg). destruct (r >? zero)%b32; reflexivity.
Qed.

Lemma lens_main_black_disc_witness :
  lens_main uv_texture (mkVector2 (of_Z 512) (of_Z 384)) (of_Z 10000)
    (mkVector2 (of_Z 1024) (of_Z 768)) (mkVector2 (dec 9 16) (dec 1 2)) = black4.
Proof.
  apply (lens_main_black_disc uv_texture (mkVector2 (of_Z 512) (of_Z 384)) (of_Z 10000)
           (mkVector2 (of_Z 1024) (of_Z 768)) (mkVector2 (dec 9 16) (dec 1 2)));
    reflexivity.
Defined.

(** ** The disk shader on a degenerate annulus *)

Lemma flt_fle_trans a b c :
  flt a b = true -> fle b c = true -> flt a c = true.
Proof.
  unfold flt, fle, SFltb, SFleb.
  float_cases a ma ea; float_cases b mb eb; try discriminate;
    float_cases c mc ec; try discriminate; try reflexivity; simpl;
    change (Pos.compare_cont Eq ma mb) with (Pos.compare ma mb);
    change (Pos.compare_cont Eq mb mc) with (Pos.compare mb mc);
    change (Pos.compare_cont Eq ma mc) with (Pos.compare ma mc);
    destruct (Z.compare_spec ea eb); try discriminate;
    destruct (Z.compare_spec eb ec); try discriminate;
    destruct (Z.compare_spec ea ec); try lia; try reflexivity;
    try (destruct (Pos.compare_spec ma mb); try discriminate);
    try (destruct (Pos.compare_spec mb mc); try discriminate);
    try (destruct (Pos.compare_spec ma mc); try discriminate);
    simpl; intros; try reflexivity; try discriminate; try lia.
Qed.

(** X11. When [outerRadius] is below [innerRadius] the disk shader discards
    every fragment whose radius is a number; in particular with both radii
    at 0, the value of uniforms that were never set, everything off the
    central axis is discarded. *)
Theorem disk_main_empty_annulus (B : Builtins) (u : DiskUniforms) (worldPos : Vector3) :
  not_nan (disk_r u worldPos) = true ->
  ((u_outerRadius u <? u_innerRadius u)%b32 = true
   \/ (u_innerRadius u = zero /\ u_outerRadius u = zero
       /\ (disk_r u worldPos >? zero)%b32 = true)) ->
  disk_main B u worldPos = None.
Proof.
  intros Hn H.
  assert (Hd : disk_discard u worldPos = true).
  { unfold disk_discard. set (r := disk_r u worldPos) in *.
    destruct H as [H | (Hi & Ho & Hr)].
    - destruct (flt r (u_innerRadius u)) eqn:E; [reflexivity|]. simpl.
      assert (Ni : not_nan (u_innerRadius u) = true).
      { destruct (u_innerRadius u); try reflexivity.
        unfold flt, SFltb in H. destruct (u_outerRadius u) as [[]|[]| |[] ? ?]; discriminate. }
      rewrite flt_negb_fle in E by assumption. apply negb_false_iff in E.
      exact (flt_fle_trans _ _ _ H E).
    - rewrite Ho. rewrite Hr. apply orb_true_r. }
  unfold disk_main. rewrite Hd. reflexivity.
Qed.

Lemma disk_main_empty_annulus_witness :
  disk_main sqrt_builtins
    (mkDiskUniforms zero (mkVector3 zero zero zero) zero zero
       (mkVector3 zero zero zero) (mkVector3 zero zero zero))
    (mkVector3 (of_Z 10) zero zero) = None.
Proof.
  apply disk_main_empty_annulus; [reflexivity|].
  right. repeat split; reflexivity.
Defined.

(** ** Magnitudes: the operations on numbers of either sign *)

Lemma binary_round_aux_abs s m e l :
  SFabs (binary_round_aux prec emax s m e l) = binary_round_aux prec emax false m e l.
Proof.
  unfold binary_round_aux.
  destruct (shr_fexp prec emax m e l) as [mrs' e'].
  destruct (shr_fexp prec emax _ e' loc_Exact) as [mrs'' e''].
  destruct (shr_m mrs''); try reflexivity.
  destruct (e'' <=? emax - prec); reflexivity.
Qed.

Lemma binary_round_abs s m e :
  SFabs (binary_round prec emax s m e) = binary_round prec emax false m e.
Proof.
  unfold binary_round. destruct (shl_align m e _) as [mz ez]. apply binary_round_aux_abs.
Qed.

Lemma SFabs_fmul a b : SFabs (a * b)%b32 = (SFabs a * SFabs b)%b32.
Proof.
  destruct a as [sa|sa| |sa ma ea], b as [sb|sb| |sb mb eb]; try reflexivity.
  unfold fmul, SFmul, SFabs. apply binary_round_aux_abs.
Qed.

Lemma SFabs_fdiv a b : SFabs (a / b)%b32 = (SFabs a / SFabs b)%b32.
Proof.
  destruct a as [sa|sa| |sa ma ea], b as [sb|sb| |sb mb eb]; try reflexivity.
  unfold fdiv, SFdiv, SFabs.
  destruct (SFdiv_core_binary prec emax (Z.pos ma) ea (Z.pos mb) eb) as [[mz ez] lz].
  apply binary_round_aux_abs.
Qed.

Lemma finite_coord_abs f : finite_coord f = fin_nonneg (SFabs f).
Proof. destruct f as [s|s| |s m e]; try reflexivity; destruct s; reflexivity. Qed.

Lemma B2R_abs f : B2R (SFabs f) = Rabs (B2R f).
Proof.
  destruct f as [s|s| |s m e]; simpl; try (rewrite Rabs_R0; reflexivity).
  pose proof (bpow_gt_0 e). assert (0 < IZR (Z.pos m))%R by (apply IZR_lt; lia).
  destruct s; [rewrite Rabs_Ropp|]; rewrite Rabs_pos_eq; nra.
Qed.

(** The magnitude of a sum or difference of finite numbers is the rounding
    of the magnitude of the exact result. *)
Lemma binary_normalize_abs_rounded z e :
  rounded (Rabs (IZR z * bpow e)) (SFabs (binary_normalize prec emax z e false)).
Proof.
  pose proof (bpow_gt_0 e) as Hp.
  destruct z as [|p|p]; unfold binary_normalize.
  - rewrite Rmult_0_l, Rabs_R0. exists 0, (-149), loc_Exact. split; [|reflexivity].
    unfold ccell; simpl. split; [lra | lia].
  - rewrite binary_round_abs, Rabs_pos_eq.
    + apply binary_round_rounded.
    + assert (0 < IZR (Z.pos p))%R by (apply IZR_lt; lia). nra.
  - rewrite binary_round_abs.
    replace (Rabs (IZR (Z.neg p) * bpow e)) with (IZR (Z.pos p) * bpow e)%R.
    + apply binary_round_rounded.
    + change (Z.neg p) with (- Z.pos p). rewrite opp_IZR.
      assert (0 < IZR (Z.pos p))%R by (apply IZR_lt; lia).
      rewrite Rabs_left; nra.
Qed.

Lemma B2R_finite_aligned s m e ez :
  ez <= e ->
  B2R (S754_finite s m e)
  = (IZR (cond_Zopp s (Z.pos (fst (shl_align m e ez)))) * bpow ez)%R.
Proof.
  intros H. destruct (shl_align_spec m e ez) as (H1 & _ & H3 & _).
  replace ez with (snd (shl_align m e ez)) at 2 by lia.
  unfold B2R, cond_Zopp. destruct s; [rewrite opp_IZR|]; rewrite <- H1; ring.
Qed.

Lemma fadd_abs_rounded a b :
  finite_coord a = true -> finite_coord b = true ->
  rounded (Rabs (B2R a + B2R b)) (SFabs (a + b)%b32).
Proof.
  intros Ha Hb.
  assert (Hself : forall f, finite_coord f = true -> rounded (Rabs (B2R f)) (SFabs f)).
  { intros f Hf. rewrite <- B2R_abs. apply fin_nonneg_rounded.
    rewrite <- finite_coord_abs. exact Hf. }
  destruct a as [sa|sa| |sa ma ea]; try discriminate;
    destruct b as [sb|sb| |sb mb eb]; try discriminate.
  - replace (B2R (S754_zero sa) + B2R (S754_zero sb))%R with (B2R (S754_zero false))
      by (simpl; lra).
    replace (SFabs (S754_zero sa + S754_zero sb)%b32) with (SFabs (S754_zero false))
      by (destruct sa, sb; reflexivity).
    apply Hself. reflexivity.
  - replace (B2R (S754_zero sa) + B2R (S754_finite sb mb eb))%R
      with (B2R (S754_finite sb mb eb)) by (simpl; lra).
    apply Hself. exact Hb.
  - replace (B2R (S754_finite sa ma ea) + B2R (S754_zero sb))%R
      with (B2R (S754_finite sa ma ea)) by (simpl; lra).
    apply Hself. exact Ha.
  - unfold fadd, SFadd.
    rewrite (B2R_finite_aligned sa ma ea (Z.min ea eb)) by lia.
    rewrite (B2R_finite_aligned sb mb eb (Z.min ea eb)) by lia.
    rewrite <- Rmult_plus_distr_r, <- plus_IZR.
    apply binary_normalize_abs_rounded.
Qed.

Lemma fsub_abs_rounded a b :
  finite_coord a = true -> finite_coord b = true ->
  rounded (Rabs (B2R a - B2R b)) (SFabs (a - b)%b32).
Proof.
  intros Ha Hb.
  assert (Hself : forall f, finite_coord f = true -> rounded (Rabs (B2R f)) (SFabs f)).
  { intros f Hf. rewrite <- B2R_abs. apply fin_nonneg_rounded.
    rewrite <- finite_coord_abs. exact Hf. }
  destruct a as [sa|sa| |sa ma ea]; try discriminate;
    destruct b as [sb|sb| |sb mb eb]; try discriminate.
  - replace (B2R (S754_zero sa) - B2R (S754_zero sb))%R with (B2R (S754_zero false))
      by (simpl; lra).
    replace (SFabs (S754_zero sa - S754_zero sb)%b32) with (SFabs (S754_zero false))
      by (destruct sa, sb; reflexivity).
    apply Hself. reflexivity.
  - replace (B2R (S754_zero sa) - B2R (S754_finite sb mb eb))%R
      with (B2R (S754_finite (negb sb) mb eb)) by (destruct sb; simpl; lra).
    apply (Hself (S754_finite (negb sb) mb eb)). destruct sb; exact Hb.
  - replace (B2R (S754_finite sa ma ea) - B2R (S754_zero sb))%R
      with (B2R (S754_finite sa ma ea)) by (simpl; lra).
    apply Hself. exact Ha.
  - unfold fsub, SFsub.
    rewrite (B2R_finite_aligned sa ma ea (Z.min ea eb)) by lia.
    rewrite (B2R_finite_aligned sb mb eb (Z.min ea eb)) by lia.
    rewrite <- Rmult_minus_distr_r, <- minus_IZR.
    apply binary_normalize_abs_rounded.
Qed.

Lemma fmul_abs_rounded a b :
  finite_coord a = true -> finite_coord b = true ->
  rounded (Rabs (B2R a) * Rabs (B2R b)) (SFabs (a * b)%b32).
Proof.
  intros Ha Hb. rewrite SFabs_fmul, <- !B2R_abs.
  apply fmul_rounded; rewrite <- finite_coord_abs; assumption.
Qed.

(** The largest finite float; anything whose exact magnitude exceeds it by
    at most 16 still rounds to a finite number. *)
Lemma rounded_near_max_finite x f :
  rounded x f -> (x <= B2R (S754_finite false 16777215 104) + 16)%R ->
  fin_nonneg f = true.
Proof.
  intros Hr Hx.
  set (mx := S754_finite false 16777215 104) in *.
  assert (H16 : B2R (of_Z 16) = 16%R) by (unfold of_Z; simpl; unfold bpow; simpl; lra).
  pose proof (fadd_rounded mx (of_Z 16) eq_refl eq_refl) as Hm.
  rewrite H16 in Hm.
  replace (SFadd prec emax mx (of_Z 16)) with mx in Hm by (vm_compute; reflexivity).
  pose proof (rounded_mono _ _ _ _ Hr Hm Hx) as Hle.
  destruct (nonneg_cases f (rounded_nonneg x f Hr)) as [-> | H]; [discriminate | exact H].
Qed.

Lemma fle_finite_pos_Z m e m' e' :
  fle (S754_finite false m e) (S754_finite false m' e') = true
  <-> (e < e' \/ (e = e' /\ Z.pos m <= Z.pos m')).
Proof. apply fle_finite_pos. Qed.

Lemma finite_coord_B2R_le_max f :
  finite_coord f = true -> (Rabs (B2R f) <= B2R (S754_finite false 16777215 104))%R.
Proof.
  intros Hf. rewrite <- B2R_abs. apply fle_B2R; [rewrite <- finite_coord_abs; exact Hf | reflexivity |].
  rewrite finite_coord_abs in Hf.
  destruct (SFabs f) as [[]|[]| |[] m e]; try discriminate; [reflexivity|].
  simpl in Hf. apply bounded_spec in Hf. apply fle_finite_pos_Z.
  change (2 ^ 24) with 16777216 in Hf. lia.
Qed.

(** Adding a step of magnitude at most 16 to a finite number gives a finite
    number. *)
Lemma fadd_step_finite p c :
  finite_coord p = true -> finite_coord c = true -> (Rabs (B2R c) <= 16)%R ->
  finite_coord (p + c)%b32 = true.
Proof.
  intros Hp Hc Hb. rewrite finite_coord_abs.
  apply (rounded_near_max_finite _ _ (fadd_abs_rounded p c Hp Hc)).
  pose proof (finite_coord_B2R_le_max p Hp). pose proof (Rabs_triang (B2R p) (B2R c)). lra.
Qed.

(** ** Rounding changes a magnitude by less than a factor of two *)

Lemma rounded_within_factor x f :
  rounded x f -> fin_nonneg f = true ->
  (B2R f <= 2 * x)%R /\ ((0 < B2R f)%R -> (x <= 2 * B2R f)%R).
Proof.
  intros (m & e & l & (Hc & Hm & He & Hn) & ->) Hf.
  pose proof (round_nearest_even_bounds m l) as Hr.
  rewrite B2R_pack by (assumption || lia).
  pose proof (bpow_gt_0 e) as Hp.
  assert (Hm0 : (0 <= IZR m)%R) by (apply IZR_le; lia).
  assert (Hpos : (0 < IZR m * bpow e)%R -> (1 <= IZR m)%R).
  { intros H. apply IZR_le. destruct (Z.eq_dec m 0) as [-> | N]; [|lia]. simpl in H. lra. }
  destruct l as [|[]]; unfold round_nearest_even, cell in *.
  - subst x. split; [nra | intros; nra].
  - subst x. destruct (Z.even m).
    + split; [nra|]. intros H. specialize (Hpos H). nra.
    + rewrite plus_IZR. split; [nra | intros; nra].
  - split; [nra|]. intros H. specialize (Hpos H). nra.
  - rewrite plus_IZR. split; [nra | intros; nra].
Qed.

Lemma nonneg_abs f : nonneg f = true -> SFabs f = f.
Proof. float_cases f m e; try discriminate; reflexivity. Qed.

Lemma fle_add_l a b :
  nonneg a = true -> nonneg b = true -> fle b (a + b)%b32 = true.
Proof.
  intros Ha Hb. destruct (nonneg_cases a Ha) as [-> | Fa].
  - float_cases b m e; try discriminate; reflexivity.
  - destruct (nonneg_cases b Hb) as [-> | Fb].
    + float_cases a m e; try discriminate; reflexivity.
    + eapply rounded_mono; [apply fin_nonneg_rounded; exact Fb | apply fadd_rounded; assumption |].
      pose proof (fin_nonneg_B2R_ge_0 a Fa). lra.
Qed.

Lemma fmul_self_abs_rounded c :
  finite_coord c = true ->
  nonneg (c * c)%b32 = true
  /\ rounded (Rabs (B2R c) * Rabs (B2R c)) (c * c)%b32.
Proof.
  intros Hc. unfold finite_coord in Hc. apply andb_true_iff in Hc. destruct Hc as [Fc Vc].
  assert (N : nonneg (c * c)%b32 = true).
  { apply fmul_self_nonneg; [exact Vc|]. destruct c; try discriminate; reflexivity. }
  split; [exact N|]. rewrite <- (nonneg_abs _ N).
  apply fmul_abs_rounded; unfold finite_coord; rewrite Fc, Vc; reflexivity.
Qed.

Lemma finite_coord_of_abs f x :
  rounded x (SFabs f) -> (x <= 8)%R ->
  finite_coord f = true /\ (Rabs (B2R f) <= 8)%R.
Proof.
  intros Hr Hx.
  assert (H8 : B2R (of_Z 8) = 8%R) by (unfold of_Z; simpl; unfold bpow; simpl; lra).
  destruct (rounded_le_fin _ _ (of_Z 8) Hr eq_refl) as [F B]; [rewrite H8; exact Hx|].
  rewrite H8, B2R_abs in B. rewrite finite_coord_abs. split; assumption.
Qed.

(** One component [c] of a vector whose squared components sum to [s]:
    either the length is zero and [c] is tiny, or [c / length] is a finite
    number of magnitude at most 8. *)
Lemma normalize_component c s :
  finite_coord c = true -> nonneg s = true -> fle (c * c)%b32 s = true ->
  (feq (fsqrt s) zero = true -> (Rabs (B2R c) <= 1)%R)
  /\ (feq (fsqrt s) zero = false ->
      finite_coord (c * (one / fsqrt s))%b32 = true
      /\ (Rabs (B2R (c * (one / fsqrt s))%b32) <= 8)%R).
Proof.
  intros Hc Hs Hle.
  destruct (fmul_self_abs_rounded c Hc) as [Nsq Rsq].
  set (A := Rabs (B2R c)) in *. assert (HA : (0 <= A)%R) by apply Rabs_pos.
  assert (E149 : bpow (-149) = (/ 713623846352979940529142984724747568191373312)%R)
    by (unfold bpow; simpl; lra).
  destruct (nonneg_cases s Hs) as [-> | Fs].
  { (* the squares overflowed: the length is infinite, the quotient is 0 *)
    split; [discriminate|]. intros _.
    change (one / fsqrt (S754_infinity false))%b32 with (S754_zero false).
    unfold finite_coord in Hc. apply andb_true_iff in Hc. destruct Hc as [Fc _].
    destruct c as [sc|sc| |sc mc ec]; try discriminate;
      (split; [destruct sc; reflexivity | simpl; rewrite Rabs_R0; lra]). }
  assert (Fsq : fin_nonneg (c * c)%b32 = true).
  { destruct (nonneg_cases _ Nsq) as [E | H]; [|exact H].
    rewrite E in Hle. apply fle_inf_l in Hle. subst s. discriminate. }
  pose proof (proj1 (fle_B2R _ _ Fsq Fs) Hle) as Bsq.
  pose proof (fin_nonneg_B2R_ge_0 _ Fsq) as Bsq0.
  assert (HAS : (0 < B2R s -> A * A <= 2 * B2R s)%R).
  { intros Hpos. destruct (Rle_lt_dec (B2R (c * c)%b32) 0) as [Hz | Hnz].
    - assert (Ez : (c * c)%b32 = S754_zero false).
      { destruct (c * c)%b32 as [[]|[]| |[] m e]; try discriminate; try reflexivity.
        exfalso. simpl in Hz. pose proof (bpow_gt_0 e).
        assert (0 < IZR (Z.pos m))%R by (apply IZR_lt; lia). nra. }
      rewrite Ez in Rsq. apply rounded_zero_small in Rsq.
      assert (bpow (-149) <= B2R s)%R.
      { destruct (fin_nonneg_pos_inv s Fs Hpos) as (m & e & ->).
        simpl in Fs. apply bounded_spec in Fs. unfold B2R.
        assert (1 <= IZR (Z.pos m))%R by (apply IZR_le; lia).
        pose proof (bpow_le (-149) e ltac:(lia)). pose proof (bpow_gt_0 (-149)). nra. }
      lra.
    - destruct (rounded_within_factor _ _ Rsq Fsq) as [_ H]. specialize (H Hnz). lra. }
  destruct (Rle_lt_dec (B2R s) 0) as [Hs0 | Hs0].
  - (* the squares underflowed to zero: the length is zero *)
    assert (Es : s = S754_zero false).
    { destruct s as [[]|[]| |[] m e]; try discriminate; try reflexivity.
      exfalso. simpl in Hs0. pose proof (bpow_gt_0 e).
      assert (0 < IZR (Z.pos m))%R by (apply IZR_lt; lia). nra. }
    subst s. split; [intros _ | discriminate].
    assert (Ez : (c * c)%b32 = S754_zero false).
    { destruct (c * c)%b32 as [[]|[]| |[] m e]; try discriminate; reflexivity. }
    rewrite Ez in Rsq. apply rounded_zero_small in Rsq. rewrite E149 in Rsq.
    destruct (Rle_lt_dec A 1); [assumption | nra].
  - destruct (fin_nonneg_pos_inv s Fs Hs0) as (ms & es & Es).
    assert (Rlen : rounded (sqrt (B2R s)) (fsqrt s)) by (rewrite Es; apply fsqrt_rounded).
    specialize (HAS Hs0).
    pose proof (sqrt_sqrt (B2R s) ltac:(lra)) as Hsq.
    pose proof (sqrt_pos (B2R s)) as Hsq0.
    set (S := sqrt (B2R s)) in *.
    (* the length is a finite number between 2^-75 and 2^64 *)
    assert (Smin : (bpow (-149) <= B2R s)%R).
    { rewrite Es. rewrite Es in Fs. simpl in Fs. apply bounded_spec in Fs. unfold B2R.
      assert (1 <= IZR (Z.pos ms))%R by (apply IZR_le; lia).
      pose proof (bpow_le (-149) es ltac:(lia)). pose proof (bpow_gt_0 (-149)). nra. }
    assert (Smax : (B2R s <= bpow 128)%R).
    { rewrite Es. rewrite Es in Fs. simpl in Fs. apply bounded_spec in Fs. unfold B2R.
      assert (IZR (Z.pos ms) <= bpow 24)%R by (rewrite bpow_IZR by lia; apply IZR_le; lia).
      pose proof (bpow_le es 104 ltac:(lia)). pose proof (bpow_gt_0 es).
      replace 128 with (24 + 104) by lia. rewrite bpow_add.
      assert (0 < IZR (Z.pos ms))%R by (apply IZR_lt; lia).
      pose proof (bpow_gt_0 24). nra. }
    assert (S75 : (bpow (-75) <= S)%R).
    { destruct (Rle_lt_dec (bpow (-75)) S); [assumption|]. exfalso.
      assert (S * S < bpow (-75) * bpow (-75))%R by (pose proof (bpow_gt_0 (-75)); nra).
      rewrite <- bpow_add in H. simpl Z.add in H.
      pose proof (bpow_lt (-150) (-149) ltac:(lia)). lra. }
    assert (S64 : (S <= bpow 64)%R).
    { destruct (Rle_lt_dec S (bpow 64)); [assumption|]. exfalso.
      assert (bpow 64 * bpow 64 < S * S)%R by (pose proof (bpow_gt_0 64); nra).
      rewrite <- bpow_add in H. simpl Z.add in H. lra. }
    set (lo := S754_finite false 8388608 (-98)).
    set (hi := S754_finite false 8388608 41).
    assert (Blo : B2R lo = bpow (-75)).
    { unfold lo, B2R. replace (-75) with (23 + -98) by lia.
      rewrite bpow_add, (bpow_IZR 23) by lia. reflexivity. }
    assert (Bhi : B2R hi = bpow 64).
    { unfold hi, B2R. replace 64 with (23 + 41) by lia.
      rewrite bpow_add, (bpow_IZR 23) by lia. reflexivity. }
    destruct (rounded_le_fin _ _ hi Rlen eq_refl) as [Flen _]; [rewrite Bhi; exact S64|].
    pose proof (rounded_ge_fin _ _ lo Rlen Flen eq_refl ltac:(rewrite Blo; exact S75)) as L75.
    rewrite Blo in L75. pose proof (bpow_gt_0 (-75)) as P75.
    set (L := B2R (fsqrt s)) in *.
    assert (HL : (0 < L)%R) by lra.
    assert (Hnz : feq (fsqrt s) zero = false).
    { destruct (fsqrt s) as [[]|[]| |[] m e]; try discriminate; try reflexivity.
      exfalso. unfold L in HL. simpl in HL. lra. }
    split; [rewrite Hnz; discriminate | intros _].
    destruct (rounded_within_factor _ _ Rlen Flen) as [_ HSL]. specialize (HSL HL).
    change (S <= 2 * L)%R in HSL.
    assert (HA3 : (A <= 3 * L)%R).
    { destruct (Rle_lt_dec A (3 * L)); [assumption|]. exfalso.
      assert (S * S <= 2 * L * (2 * L))%R by (apply Rmult_le_compat; lra).
      assert (3 * L * (3 * L) < A * A)%R by (apply Rmult_le_0_lt_compat; lra).
      lra. }
    (* the reciprocal of the length *)
    destruct (fin_nonneg_pos_inv _ Flen HL) as (ml & el & El).
    assert (Ril : rounded (1 / L) (one / fsqrt s)%b32).
    { unfold L. rewrite El. rewrite <- B2R_one. apply fdiv_rounded. }
    set (top := S754_finite false 8388608 52).
    assert (Btop : B2R top = bpow 75).
    { unfold top, B2R. replace 75 with (23 + 52) by lia.
      rewrite bpow_add, (bpow_IZR 23) by lia. reflexivity. }
    assert (HinvL : (1 / L <= bpow 75)%R).
    { apply Rmult_le_reg_r with L; [exact HL|]. unfold Rdiv.
      rewrite Rmult_1_l, Rinv_l by lra.
      assert (bpow 75 * bpow (-75) = 1)%R by (rewrite <- bpow_add; reflexivity).
      pose proof (bpow_gt_0 75). nra. }
    destruct (rounded_le_fin _ _ top Ril eq_refl) as [Fil _]; [rewrite Btop; exact HinvL|].
    destruct (rounded_within_factor _ _ Ril Fil) as [Hil _].
    set (I := B2R (one / fsqrt s)%b32) in *.
    pose proof (fin_nonneg_B2R_ge_0 _ Fil) as Hil0. fold I in Hil0.
    assert (Fic : finite_coord (one / fsqrt s)%b32 = true).
    { rewrite finite_coord_abs, nonneg_abs by auto with b32. exact Fil. }
    pose proof (fmul_abs_rounded c (one / fsqrt s)%b32 Hc Fic) as Rp.
    fold A in Rp. fold I in Rp. rewrite (Rabs_pos_eq _ Hil0) in Rp.
    apply (finite_coord_of_abs _ _ Rp).
    assert (L * (1 / L) = 1)%R by (field; lra).
    assert (0 < 1 / L)%R by (apply Rdiv_lt_0_compat; lra).
    apply Rle_trans with (3 * L * (2 * (1 / L)))%R; [|nra].
    apply Rmult_le_compat; lra.
Qed.

(** ** The camera stays finite *)

Lemma scale_small n k :
  finite_coord n = true -> (Rabs (B2R n) <= 8)%R ->
  finite_coord k = true -> (Rabs (B2R k) <= 1)%R ->
  small_coord (n * k)%b32.
Proof.
  intros Hn Bn Hk Bk. apply (finite_coord_of_abs _ _ (fmul_abs_rounded n k Hn Hk)).
  pose proof (Rabs_pos (B2R n)). pose proof (Rabs_pos (B2R k)). nra.
Qed.

Lemma Vector3Normalize_scaled_small v k :
  finite_vec v = true -> finite_coord k = true -> (Rabs (B2R k) <= 1)%R ->
  small_vec (Vector3Scale (Vector3Normalize v) k).
Proof.
  intros Hv Hk Bk. unfold finite_vec in Hv. rewrite !andb_true_iff in Hv.
  destruct Hv as [[Hx Hy] Hz].
  destruct (fmul_self_abs_rounded _ Hx) as [Nx _].
  destruct (fmul_self_abs_rounded _ Hy) as [Ny _].
  destruct (fmul_self_abs_rounded _ Hz) as [Nz _].
  set (s := (x3 v * x3 v + y3 v * y3 v + z3 v * z3 v)%b32).
  assert (Nxy : nonneg (x3 v * x3 v + y3 v * y3 v)%b32 = true) by (apply fadd_nonneg; assumption).
  assert (Ns : nonneg s = true) by (apply fadd_nonneg; assumption).
  assert (Lx : fle (x3 v * x3 v)%b32 s = true).
  { apply (fle_nonneg_trans _ (x3 v * x3 v + y3 v * y3 v)%b32); try assumption;
      apply fle_add_r; assumption. }
  assert (Ly : fle (y3 v * y3 v)%b32 s = true).
  { apply (fle_nonneg_trans _ (x3 v * x3 v + y3 v * y3 v)%b32); try assumption;
      [apply fle_add_l | apply fle_add_r]; assumption. }
  assert (Lz : fle (z3 v * z3 v)%b32 s = true) by (apply fle_add_l; assumption).
  destruct (normalize_component _ s Hx Ns Lx) as [X0 X1].
  destruct (normalize_component _ s Hy Ns Ly) as [Y0 Y1].
  destruct (normalize_component _ s Hz Ns Lz) as [Z0 Z1].
  unfold Vector3Normalize. fold s.
  destruct (feq (fsqrt s) zero) eqn:E; simpl negb; cbv iota.
  - specialize (X0 eq_refl). specialize (Y0 eq_refl). specialize (Z0 eq_refl).
    repeat split; simpl; apply scale_small; assumption || lra.
  - destruct (X1 eq_refl). destruct (Y1 eq_refl). destruct (Z1 eq_refl).
    repeat split; simpl; apply scale_small; assumption.
Qed.

Lemma Vector3Add_small p w :
  finite_vec p = true -> small_vec w -> finite_vec (Vector3Add p w) = true.
Proof.
  unfold finite_vec, small_vec, small_coord. rewrite !andb_true_iff.
  intros [[Hx Hy] Hz] ((Wx & Bx) & (Wy & By) & (Wz & Bz)). simpl.
  repeat split; apply fadd_step_finite; assumption || lra.
Qed.

Lemma fsub_zero_finite p :
  finite_coord p = true ->
  finite_coord (zero - p)%b32 = true /\ finite_coord (p - zero)%b32 = true.
Proof. destruct p as [s|s| |s m e]; try discriminate; destruct s; intros H; split; exact H || reflexivity. Qed.

Lemma fmul_zero_is_zero c :
  finite_coord c = true -> exists s, (c * zero)%b32 = S754_zero s.
Proof. destruct c as [s|s| |s m e]; try discriminate; intros _; eexists; reflexivity. Qed.

Lemma fmul_one_finite c :
  finite_coord c = true -> finite_coord (c * of_Z 1)%b32 = true.
Proof.
  intros Hc. rewrite finite_coord_abs.
  assert (H1 : finite_coord (of_Z 1) = true) by reflexivity.
  pose proof (fmul_abs_rounded c (of_Z 1) Hc H1) as R.
  replace (Rabs (B2R (of_Z 1))) with 1%R in R
    by (change (of_Z 1) with one; rewrite B2R_one, Rabs_pos_eq; lra).
  apply (rounded_near_max_finite _ _ R).
  pose proof (finite_coord_B2R_le_max c Hc). lra.
Qed.

Lemma fsub_with_zero a s :
  finite_coord a = true ->
  finite_coord (a - S754_zero s)%b32 = true /\ finite_coord (S754_zero s - a)%b32 = true.
Proof.
  destruct a as [sa|sa| |sa m e]; try discriminate; destruct sa, s; intros H;
    split; exact H || reflexivity.
Qed.

Lemma Vector3CrossProduct_up_finite v :
  finite_vec v = true ->
  finite_vec (Vector3CrossProduct v (mkVector3 zero (of_Z 1) zero)) = true.
Proof.
  unfold finite_vec. rewrite !andb_true_iff. intros [[Hx Hy] Hz].
  unfold Vector3CrossProduct. simpl.
  destruct (fmul_zero_is_zero _ Hx) as (sx & Ex).
  destruct (fmul_zero_is_zero _ Hy) as (sy & Ey).
  destruct (fmul_zero_is_zero _ Hz) as (sz & Ez).
  rewrite Ex, Ey, Ez.
  repeat split.
  - apply (fsub_with_zero _ sy (fmul_one_finite _ Hz)).
  - destruct sz, sx; reflexivity.
  - apply (fsub_with_zero _ sy (fmul_one_finite _ Hx)).
Qed.

Lemma Vector3Subtract_origin p :
  finite_vec p = true ->
  finite_vec (Vector3Subtract (mkVector3 zero zero zero) p) = true
  /\ finite_vec (Vector3Subtract p (mkVector3 zero zero zero)) = true.
Proof.
  unfold finite_vec. rewrite !andb_true_iff. intros [[Hx Hy] Hz]. simpl.
  destruct (fsub_zero_finite _ Hx), (fsub_zero_finite _ Hy), (fsub_zero_finite _ Hz).
  repeat split; assumption.
Qed.

Lemma half_small :
  finite_coord (dec 1 2) = true /\ (Rabs (B2R (dec 1 2)) <= 1)%R
  /\ finite_coord (SFopp (dec 1 2)) = true /\ (Rabs (B2R (SFopp (dec 1 2))) <= 1)%R.
Proof.
  assert (E : B2R (dec 1 2) = (/ 2)%R) by (vm_compute B2R; unfold bpow; simpl; lra).
  assert (E' : B2R (SFopp (dec 1 2)) = (- / 2)%R) by (vm_compute B2R; unfold bpow; simpl; lra).
  rewrite E, E'. repeat split; try reflexivity.
  - rewrite Rabs_pos_eq; lra.
  - rewrite Rabs_left; lra.
Qed.

(** Each movement key leaves the camera at a finite position, as long as it
    looks at the origin with the y axis up. *)
Lemma MoveCamera_finite down sim :
  finite_vec (cam_position (camera sim)) = true ->
  cam_target (camera sim) = mkVector3 zero zero zero ->
  cam_up (camera sim) = mkVector3 zero (of_Z 1) zero ->
  finite_vec (cam_position (camera (MoveCamera down sim))) = true.
Proof.
  destruct half_small as (H1 & B1 & H2 & B2).
  assert (Fwd : forall s, finite_vec (cam_position (camera s)) = true ->
                  cam_target (camera s) = mkVector3 zero zero zero ->
                  finite_vec (cam_position (camera (MoveForward s))) = true).
  { intros s Hp Ht. unfold MoveForward. simpl. rewrite Ht.
    apply Vector3Add_small; [exact Hp|].
    apply Vector3Normalize_scaled_small; try assumption.
    apply Vector3Subtract_origin. exact Hp. }
  assert (Bwd : forall s, finite_vec (cam_position (camera s)) = true ->
                  cam_target (camera s) = mkVector3 zero zero zero ->
                  finite_vec (cam_position (camera (MoveBackward s))) = true).
  { intros s Hp Ht. unfold MoveBackward. simpl. rewrite Ht.
    apply Vector3Add_small; [exact Hp|].
    apply Vector3Normalize_scaled_small; try assumption.
    apply Vector3Subtract_origin. exact Hp. }
  assert (Side : forall k s, finite_coord k = true -> (Rabs (B2R k) <= 1)%R ->
                  finite_vec (cam_position (camera s)) = true ->
                  cam_target (camera s) = mkVector3 zero zero zero ->
                  cam_up (camera s) = mkVector3 zero (of_Z 1) zero ->
                  finite_vec (cam_position (camera (MoveSideways k s))) = true).
  { intros k s Hk Bk Hp Ht Hu. unfold MoveSideways. simpl. rewrite Ht, Hu.
    apply Vector3Add_small; [exact Hp|].
    apply Vector3Normalize_scaled_small; try assumption.
    apply Vector3CrossProduct_up_finite. apply Vector3Subtract_origin. exact Hp. }
  intros Hp Ht Hu. destruct down as [w s a d]. unfold MoveCamera. simpl.
  set (s1 := if w then MoveForward sim else sim).
  assert (I1 : finite_vec (cam_position (camera s1)) = true
               /\ cam_target (camera s1) = mkVector3 zero zero zero
               /\ cam_up (camera s1) = mkVector3 zero (of_Z 1) zero).
  { unfold s1. destruct w; [|auto]. split; [apply Fwd; assumption | split; assumption]. }
  destruct I1 as (P1 & T1 & U1).
  set (s2 := if s then MoveBackward s1 else s1).
  assert (I2 : finite_vec (cam_position (camera s2)) = true
               /\ cam_target (camera s2) = mkVector3 zero zero zero
               /\ cam_up (camera s2) = mkVector3 zero (of_Z 1) zero).
  { unfold s2. destruct s; [|auto]. split; [apply Bwd; assumption | split; assumption]. }
  destruct I2 as (P2 & T2 & U2).
  set (s3 := if a then MoveSideways (SFopp (dec 1 2)) s2 else s2).
  assert (I3 : finite_vec (cam_position (camera s3)) = true
               /\ cam_target (camera s3) = mkVector3 zero zero zero
               /\ cam_up (camera s3) = mkVector3 zero (of_Z 1) zero).
  { unfold s3. destruct a; [|auto]. split; [apply Side; assumption | split; assumption]. }
  destruct I3 as (P3 & T3 & U3).
  destruct d; [apply Side; assumption | exact P3].
Qed.

Lemma LoopStep_invariant i sim :
  fin_nonneg (in_frameTime i) = true ->
  loop_invariant sim ->
  loop_invariant (LoopStep i sim)
  /\ fle (time sim) (time (LoopStep i sim)) = true.
Proof.
  intros Hdt (Hp & Ht & Hu & Hb & Hc & Hd & Hd1).
  destruct (UpdateSimulation_frame (in_frameTime i) sim) as (U1 & U2 & _).
  assert (Hrs : fin_pos (schwarzschildRadius (blackHole sim)) = true)
    by (rewrite Hb; reflexivity).
  assert (Hbp : finite_vec (bh_position (blackHole sim)) = true)
    by (rewrite Hb; reflexivity).
  destruct (CalculateTimeDilation_range_aux (cam_position (camera sim)) (blackHole sim)
              Hp Hbp Hrs) as (A & _ & B).
  assert (Hinc : nonneg (if showTimeEffects sim
                         then (in_frameTime i
                               * CalculateTimeDilation (cam_position (camera sim))
                                   (blackHole sim))%b32
                         else in_frameTime i) = true).
  { destruct (showTimeEffects sim); [apply fmul_nonneg; assumption | auto with b32]. }
  set (s1 := UpdateSimulation (in_frameTime i) sim) in *.
  assert (Tc : nonneg (time s1) = true /\ fle (time sim) (time s1) = true).
  { unfold s1. rewrite UpdateSimulation_time.
    destruct (showTimeEffects sim); split;
      (apply fadd_nonneg || apply fle_add_r); assumption. }
  assert (Td : fin_nonneg (timeDilation s1) = true /\ (timeDilation s1 <=? one)%b32 = true).
  { unfold s1, UpdateSimulation. destruct (showTimeEffects sim); simpl timeDilation;
      split; assumption. }
  destruct (HandleToggles_frame (in_pressed i) s1) as (T1 & T2 & _ & _ & T5 & T6).
  set (s2 := HandleToggles (in_pressed i) s1) in *.
  destruct (MoveCamera_frame (in_down i) s2)
    as (M1 & M2 & _ & _ & M5 & _ & _ & M8 & M9 & _).
  unfold LoopStep. fold s1. fold s2.
  unfold loop_invariant. rewrite M1, M2, M5, M8, M9, T1, T2, T5, T6, U1, U2.
  repeat split; try assumption; try tauto.
  apply MoveCamera_finite; rewrite T1, ?U1; assumption.
Qed.

Lemma InitSimulation_invariant rand : loop_invariant (InitSimulation rand).
Proof. repeat split. Qed.

Lemma run_loop_invariant inputs : forall sim,
  forallb (fun i => fin_nonneg (in_frameTime i)) inputs = true ->
  loop_invariant sim ->
  loop_invariant (run_loop inputs sim)
  /\ fle (time sim) (time (run_loop inputs sim)) = true.
Proof.
  induction inputs as [|i rest IH]; intros sim Hin Hinv.
  - split; [exact Hinv|]. destruct Hinv as (_ & _ & _ & _ & Hc & _).
    apply fle_B2R_refl. exact Hc.
  - simpl in Hin. apply andb_true_iff in Hin. destruct Hin as [Hi Hrest].
    destruct (LoopStep_invariant i sim Hi Hinv) as [Hinv1 Hle1].
    destruct (IH _ Hrest Hinv1) as [Hinv2 Hle2].
    split; [exact Hinv2|].
    change (run_loop (i :: rest) sim) with (run_loop rest (LoopStep i sim)).
    destruct Hinv as (_ & _ & _ & _ & Hc & _).
    destruct Hinv1 as (_ & _ & _ & _ & Hc1 & _).
    destruct Hinv2 as (_ & _ & _ & _ & Hc2 & _).
    apply (fle_nonneg_trans _ (time (LoopStep i sim))); assumption.
Qed.

(** X12.  Whatever keys are held or pressed and whatever the random source,
    after any number of loop iterations with finite non-negative frame times
    the camera position is finite (no coordinate is a NaN or an infinity),
    the state is one [UpdateSimulation] is well defined on, the clock is
    neither negative nor a NaN and not below its value any number of
    iterations earlier, and the dilation factor is a finite number in
    [0, 1]. *)
Theorem main_loop_keeps_state_finite (rand : RandomSource)
    (earlier later : list FrameInput) :
  forallb (fun i => fin_nonneg (in_frameTime i)) (earlier ++ later) = true ->
  let before := run_loop earlier (InitSimulation rand) in
  let sim := run_loop (earlier ++ later) (InitSimulation rand) in
  finite_vec (cam_position (camera sim)) = true
  /\ wf_state sim = true
  /\ nonneg (time sim) = true
  /\ fle (time before) (time sim) = true
  /\ fin_nonneg (timeDilation sim) = true
  /\ (timeDilation sim <=? one)%b32 = true.
Proof.
  intros Hin before sim. rewrite forallb_app in Hin. apply andb_true_iff in Hin.
  destruct Hin as [He Hl].
  destruct (run_loop_invariant earlier _ He (InitSimulation_invariant rand)) as [I1 _].
  fold before in I1.
  destruct (run_loop_invariant later _ Hl I1) as [I2 Hle].
  assert (E : run_loop later before = sim)
    by (unfold sim, before, run_loop; rewrite fold_left_app; reflexivity).
  rewrite E in I2, Hle.
  destruct I2 as (Hp & Ht & Hu & Hb & Hc & Hd & Hd1).
  repeat split; try assumption.
  unfold wf_state. rewrite Hp, Hb, Hc. reflexivity.
Qed.

Lemma main_loop_keeps_state_finite_witness :
  let earlier := [mkFrameInput (dec 1 60) (mkKeys false false true)
                    (mkMoveKeys true false false true) 60] in
  let later := [mkFrameInput zero (mkKeys true false false)
                  (mkMoveKeys false true true false) 60] in
  let before := run_loop earlier (InitSimulation rand0) in
  let sim := run_loop (earlier ++ later) (InitSimulation rand0) in
  finite_vec (cam_position (camera sim)) = true
  /\ wf_state sim = true
  /\ nonneg (time sim) = true
  /\ fle (time before) (time sim) = true
  /\ fin_nonneg (timeDilation sim) = true
  /\ (timeDilation sim <=? one)%b32 = true.
Proof.
  apply (main_loop_keeps_state_finite rand0
           [mkFrameInput (dec 1 60) (mkKeys false false true)
              (mkMoveKeys true false false true) 60]
           [mkFrameInput zero (mkKeys true false false)
              (mkMoveKeys false true true false) 60]).
  reflexivity.
Defined.

(** ** The flags after many iterations *)

Lemma LoopStep_flags i sim :
  showLensing (LoopStep i sim) = xorb (KEY_L (in_pressed i)) (showLensing sim)
  /\ showDisk (LoopStep i sim) = xorb (KEY_O (in_pressed i)) (showDisk sim)
  /\ showTimeEffects (LoopStep i sim) = xorb (KEY_T (in_pressed i)) (showTimeEffects sim).
Proof.
  unfold LoopStep.
  destruct (MoveCamera_frame (in_down i)
              (HandleToggles (in_pressed i) (UpdateSimulation (in_frameTime i) sim)))
    as (_ & _ & _ & _ & _ & _ & _ & _ & _ & M1 & M2 & M3).
  rewrite M1, M2, M3.
  destruct (UpdateSimulation_frame (in_frameTime i) sim) as (_ & _ & _ & _ & U1 & U2 & U3).
  revert U1 U2 U3. generalize (UpdateSimulation (in_frameTime i) sim). intros s U1 U2 U3.
  rewrite <- U1, <- U2, <- U3.
  destruct (in_pressed i) as [kl ko kt]. unfold HandleToggles. simpl.
  destruct kl, ko, kt; simpl; repeat split; reflexivity.
Qed.

Lemma flip_parity (b k : bool) (n : nat) :
  (if Nat.even n then xorb k b else negb (xorb k b))
  = (if Nat.even (if k then S n else n) then b else negb b).
Proof.
  destruct k; [|reflexivity]. rewrite Nat.even_succ, <- Nat.negb_even.
  destruct (Nat.even n), b; reflexivity.
Qed.

(** X13. After any number of iterations each flag is what it was if its
    key (L, O, T) was pressed on an even number of them and the opposite
    otherwise; the movement keys (W, A, S, D) and the frame times play no
    part. *)
Theorem run_loop_flags (inputs : list FrameInput) (sim : SimulationState) :
  let after := run_loop inputs sim in
  let flipped (key : Keys -> bool) (b : bool) :=
    if Nat.even (presses key inputs) then b else negb b in
  showLensing after = flipped KEY_L (showLensing sim)
  /\ showDisk after = flipped KEY_O (showDisk sim)
  /\ showTimeEffects after = flipped KEY_T (showTimeEffects sim).
Proof.
  cbv zeta. revert sim.
  induction inputs as [|i rest IH]; intros sim; [repeat split; reflexivity|].
  change (run_loop (i :: rest) sim) with (run_loop rest (LoopStep i sim)).
  destruct (IH (LoopStep i sim)) as (A & B & C).
  destruct (LoopStep_flags i sim) as (FL & FO & FT).
  rewrite A, B, C, FL, FO, FT. unfold presses. cbn [filter].
  repeat split; rewrite flip_parity;
    match goal with |- context [in_pressed i] => idtac end;
    [destruct (KEY_L (in_pressed i)) | destruct (KEY_O (in_pressed i))
    | destruct (KEY_T (in_pressed i))]; reflexivity.
Qed.

(** ** [DrawSimulation] *)


(** ** [CartesianToPolar] *)

Lemma fmul_from_origin c : ((zero - c) * (zero - c))%b32 = (c * c)%b32.
Proof. destruct c as [[]|[]| |[] m e]; reflexivity. Qed.

(** X15. The radius [CartesianToPolar] returns is the distance to the
    origin as [Vector3Distance] computes it, bit for bit.  When that radius
    is zero (the origin itself, or coordinates whose squares underflow) and
    [pos.y] is finite, the quotient handed to [acosf] is not a finite
    number: a NaN for [pos.y = 0], an infinity otherwise. *)
Theorem CartesianToPolar_radius (atan2f : float -> float -> float)
    (acosf : float -> float) (pos : Vector3) :
  let polar := CartesianToPolar atan2f acosf pos in
  x3 polar = Vector3Distance pos (mkVector3 zero zero zero)
  /\ (finite_coord (y3 pos) = true -> feq (x3 polar) zero = true ->
      exists q, is_finite q = false /\ z3 polar = acosf q
                /\ q = (y3 pos / x3 polar)%b32
                /\ (feq (y3 pos) zero = true -> q = S754_nan)).
Proof.
  cbv zeta. split.
  - unfold CartesianToPolar, Vector3Distance. cbn [x3 y3 z3].
    rewrite !fmul_from_origin. reflexivity.
  - unfold CartesianToPolar. cbn [x3 y3 z3].
    set (r := fsqrt _). intros Hy Hr.
    exists (y3 pos / r)%b32. repeat split.
    + destruct r as [sr|[]| |[] mr er]; try discriminate.
      destruct (y3 pos) as [sy|sy| |sy my ey]; try discriminate; reflexivity.
    + intros Hz. destruct r as [sr|[]| |[] mr er]; try discriminate.
      destruct (y3 pos) as [sy|[]| |[] my ey]; try discriminate; reflexivity.
Qed.

Lemma CartesianToPolar_radius_witness :
  let pos := mkVector3 zero zero zero in
  let polar := CartesianToPolar (fun _ _ => zero) (fun q => q) pos in
  exists q, is_finite q = false /\ z3 polar = q
            /\ q = (y3 pos / x3 polar)%b32
            /\ (feq (y3 pos) zero = true -> q = S754_nan).
Proof.
  intros pos polar.
  apply (CartesianToPolar_radius (fun _ _ => zero) (fun q => q) pos); reflexivity.
Defined.
